(** * SpacesVM: genesis allocation, transfers and the claim client

    A shallow embedding of [chain/genesis.go], of [TransferTx] and of the
    [claim] command of the command-line client, with the properties the
    specification states about them.

    Conventions.
    - A Go [uint64] is a [Z] in the range [0 .. MaxUint64].
    - A [common.Address] ([[20]byte]) is a list of bytes; [wf_address]
      says that it has 20 of them.
    - The ledger store is a finite map from addresses to balances.  Go
      mutates the store behind a handle; here every operation returns the
      store it leaves behind, together with its Go results, also when the
      result is an error.
    - An [error] is [option Err]; [None] is Go's [nil].
    - A slice of pointers is a list of options; [None] is a nil entry, and
      reading a field through it panics.
    - Transactions are objects on a heap, and a pointer is a key of the
      heap, so that two pointers to one object see each other's writes.
    - The client talks to a node: the answers of the node and the readings
      of the clock are given by a [World], indexed by the number of requests
      and waits that came before.  The loops of the client take fuel; a
      computation returns its Go results, exits the process, panics or runs
      out of fuel. *)

From Stdlib Require Import ZArith List Lia Bool String Ascii.
From Stdlib Require Import Init.Byte.
From stdpp Require Import base option countable gmap list strings.

Import ListNotations.
Local Open Scope Z_scope.

(** ** Bytes as map keys *)

Global Instance byte_eq_dec : EqDecision byte := Byte.byte_eq_dec.

Global Instance byte_countable : Countable byte :=
  inj_countable' Byte.to_N (fun n => default x00 (Byte.of_N n))
    (fun b => @eq_ind_r (option byte) (Some b) (fun o => default x00 o = b)
                eq_refl _ (Byte.of_to_N b)).

(** [bytes.Equal] of the Go standard library. *)
Definition bytes_Equal (a b : list byte) : bool := bool_decide (a = b).

(** ** Machine integers *)

Definition MaxUint64 : Z := 2 ^ 64 - 1.

Definition is_uint64 (n : Z) : Prop := 0 <= n <= MaxUint64.

(** ** Error values *)

Inductive Err : Type :=
| ErrNonActionable
| ErrInvalidMagic
| ErrInsufficientBalance
| ErrBalanceOverflow
| ErrAllocationMismatch (expected got : string)
| ErrUnmarshal
| ErrWrapped (e : Err)
| ErrRequest (code : nat)          (* a failed request to the node *)
| ErrParseKey                      (* a key [chain.ParseKey] refuses *)
| ErrTxFailed (txID : list byte)   (* "tx %v failed" *)
| DeadlineExceeded.                (* [context.DeadlineExceeded] *)

Definition error : Type := option Err.

(** ** How a call ends *)

Inductive Outcome (A : Type) : Type :=
| Val (a : A)          (* it returns *)
| Exit (code : Z)      (* [os.Exit] *)
| Panic                (* nil pointer dereference *)
| OutOfFuel.           (* the loop is still running *)
Arguments Val {A} a.
Arguments Exit {A} code.
Arguments Panic {A}.
Arguments OutOfFuel {A}.

Module chain.

(** ** Addresses *)

Definition AddressLength : nat := 20.

Definition Address : Type := list byte.

Definition wf_address (a : Address) : Prop := length a = AddressLength.

(** Modelled from the spec: [zeroAddress], a package-level variable of
    [chain] that is declared outside the files under [src/]; the spec calls
    it the zero address, the address whose 20 bytes are all zero. *)
Definition zeroAddress : Address := repeat x00 AddressLength.

(** [common.BytesToAddress] of go-ethereum: an input longer than 20 bytes is
    cropped from the left, a shorter one is written right-aligned into a
    zeroed array. *)
Definition BytesToAddress (b : list byte) : Address :=
  let b' := skipn (length b - AddressLength) b in
  repeat x00 (AddressLength - length b') ++ b'.

(** ** Ledger store *)

(** The balance namespace of the store: address to balance. *)
Abbreviation Ledger := (gmap Address Z).

(** Modelled from the spec: [GetBalance] (storage code of [chain] that is
    not under [src/]).  Section 3: an account is created implicitly on its
    first credit, so an address without an entry has balance zero. *)
Definition GetBalance (db : Ledger) (address : Address) : Z :=
  default 0 (db !! address).

(** Modelled from the spec: [SetBalance] (storage code of [chain] that is
    not under [src/]).  Section 6: the store maps an address to its balance;
    section 3: the explicit allocations are applied after the airdrop so
    that they override it.  [Genesis.Load] hands [SetBalance] a
    [database.KeyValueWriter], a handle that can be written but not read: it
    stores [bal] as the balance of [address], whatever was stored before.
    The in-memory store never fails to write, so the error result is always
    [nil]. *)
Definition SetBalance (db : Ledger) (address : Address) (bal : Z)
  : Ledger * error :=
  (<[address := bal]> db, None).

(** Modelled from the spec: [ModifyBalance] (storage code of [chain] that is
    not under [src/]).  Section 3: a balance is an unsigned 64-bit unit
    count that is never negative, and a debit fails closed if the balance is
    insufficient.  The new balance is computed with checked 64-bit
    arithmetic: a debit below zero and a credit above [MaxUint64] are
    reported as errors and write nothing; otherwise the new balance is
    stored and returned. *)
Definition ModifyBalance (db : Ledger) (address : Address) (add : bool)
    (change : Z) : Ledger * (Z * error) :=
  let b := GetBalance db address in
  if add then
    if MaxUint64 <? b + change then (db, (0, Some ErrBalanceOverflow))
    else
      let n := b + change in
      let '(db', err) := SetBalance db address n in (db', (n, err))
  else
    if b <? change then (db, (0, Some ErrInsufficientBalance))
    else
      let n := b - change in
      let '(db', err) := SetBalance db address n in (db', (n, err)).

(** ** [TransferTx] *)

(** A Go pointer: an index into the heap of the objects of its type. *)
Definition loc : Type := nat.

Record TransferTx : Type := mkTransferTx {
  baseTx : loc;       (* the embedded [*BaseTx] *)
  To : Address;
  Units : Z
}.

(** The fields of [TransactionContext] that [Execute] reads. *)
Record TransactionContext : Type := mkTransactionContext {
  Database : Ledger;
  Sender : Address
}.

(** [TransferTx.Execute]: the store it leaves behind and the error. *)
Definition Execute (t : TransferTx) (c : TransactionContext)
  : Ledger * error :=
  (* Must transfer to someone *)
  if bytes_Equal (To t) zeroAddress then (Database c, Some ErrNonActionable)
  (* This prevents someone from transferring to themselves. *)
  else if bytes_Equal (To t) (Sender c) then
    (Database c, Some ErrNonActionable)
  else if Units t =? 0 then (Database c, Some ErrNonActionable)
  else
    let '(db1, (_, err1)) :=
      ModifyBalance (Database c) (Sender c) false (Units t) in
    match err1 with
    | Some e => (db1, Some e)
    | None =>
      let '(db2, (_, err2)) := ModifyBalance db1 (To t) true (Units t) in
      match err2 with
      | Some e => (db2, Some e)
      | None => (db2, None)
      end
    end.

(** ** Transactions on the heap *)

(** [ids.ID], a 32-byte identifier. *)
Definition ID : Type := list byte.

(** Modelled from the spec: [BaseTx], declared in a file of [chain] that is
    not under [src/].  Section 3 lists the common fields: sender, target
    prefix, the block identifier the transaction was mined against and the
    graffiti nonce; [TypedData] also reads [Magic] and [Price]. *)
Record BaseTx : Type := mkBaseTx {
  BaseTx_Sender : list byte;
  Prefix : list byte;
  BlockID : ID;
  Graffiti : Z;
  BaseTx_Magic : Z;
  Price : Z
}.

Record ClaimTx : Type := mkClaimTx {
  ClaimTx_baseTx : loc
}.

(** What a [chain.UnsignedTransaction] can point to. *)
Inductive TxObject : Type :=
| ClaimTxObj (c : ClaimTx)
| TransferTxObj (t : TransferTx).

Definition base_of (o : TxObject) : loc :=
  match o with
  | ClaimTxObj c => ClaimTx_baseTx c
  | TransferTxObj t => baseTx t
  end.

(** The objects transactions are made of.  A [*BaseTx] is a key of
    [baseTxs], a [chain.UnsignedTransaction] a key of [utxs]. *)
Record Heap : Type := mkHeap {
  baseTxs : gmap loc BaseTx;
  utxs : gmap loc TxObject
}.

Definition alloc_BaseTx (h : Heap) (b : BaseTx) : Heap * loc :=
  let l := fresh (dom (baseTxs h)) in
  (mkHeap (<[l := b]> (baseTxs h)) (utxs h), l).

Definition alloc_utx (h : Heap) (o : TxObject) : Heap * loc :=
  let l := fresh (dom (utxs h)) in
  (mkHeap (baseTxs h) (<[l := o]> (utxs h)), l).

Definition store_BaseTx (h : Heap) (l : loc) (b : BaseTx) : Heap :=
  mkHeap (<[l := b]> (baseTxs h)) (utxs h).

Definition store_utx (h : Heap) (l : loc) (o : TxObject) : Heap :=
  mkHeap (baseTxs h) (<[l := o]> (utxs h)).

(** [b] with one field assigned. *)
Definition with_BlockID (b : BaseTx) (bid : ID) : BaseTx :=
  mkBaseTx (BaseTx_Sender b) (Prefix b) bid (Graffiti b) (BaseTx_Magic b)
    (Price b).

Definition with_Graffiti (b : BaseTx) (graffiti : Z) : BaseTx :=
  mkBaseTx (BaseTx_Sender b) (Prefix b) (BlockID b) graffiti (BaseTx_Magic b)
    (Price b).

(** Modelled from the spec: [BaseTx.SetBlockID], a method of [BaseTx] that
    is not under [src/], reached through the embedded pointer.  Section 4.3:
    the mining loop sets the fetched block id on the transaction.  The
    result is [None] where Go dereferences a nil pointer. *)
Definition SetBlockID (h : Heap) (utx : loc) (bid : ID) : option Heap :=
  o ← utxs h !! utx;
  b ← baseTxs h !! base_of o;
  Some (store_BaseTx h (base_of o) (with_BlockID b bid)).

(** Modelled from the spec: [BaseTx.SetGraffiti], a method of [BaseTx] that
    is not under [src/].  Section 3: the graffiti is the mutable nonce of the
    transaction; the method assigns it. *)
Definition SetGraffiti (h : Heap) (utx : loc) (graffiti : Z) : option Heap :=
  o ← utxs h !! utx;
  b ← baseTxs h !! base_of o;
  Some (store_BaseTx h (base_of o) (with_Graffiti b graffiti)).

(** Modelled from the spec: [BaseTx.Copy] (not under [src/]).  Section 4.5
    asks every transaction for a deep copy: a new [BaseTx] object with the
    field values of the receiver. *)
Definition BaseTx_Copy (h : Heap) (b : loc) : option (Heap * loc) :=
  v ← baseTxs h !! b;
  Some (alloc_BaseTx h
          (mkBaseTx (BaseTx_Sender v) (Prefix v) (BlockID v) (Graffiti v)
                    (BaseTx_Magic v) (Price v))).

(** Go's built-in [copy(dst, src)]: the contents of [dst] afterwards. *)
Definition go_copy {A} (dst src : list A) : list A :=
  take (length dst) src ++ drop (length src) dst.

(** [TransferTx.Copy]: the heap with the copy in it and the pointer to the
    copy; [None] where Go dereferences a nil pointer or the receiver is not
    a [*TransferTx]. *)
Definition Copy (h : Heap) (t : loc) : option (Heap * loc) :=
  o ← utxs h !! t;
  match o with
  | TransferTxObj tx =>
    let to := go_copy (repeat x00 AddressLength) (To tx) in
    '(h1, b') ← BaseTx_Copy h (baseTx tx);
    Some (alloc_utx h1
            (TransferTxObj (mkTransferTx b' (BytesToAddress to) (Units tx))))
  | ClaimTxObj _ => None
  end.

(** ** Genesis *)

(** The allocation lists are slices of pointers, [[]*Airdrop] and
    [[]*CustomAllocation]: lists of options of the structs pointed to, with
    [None] for a nil entry (what [json.Unmarshal] makes of a [null]). *)

Record Airdrop : Type := mkAirdrop {
  Airdrop_Address : Address
}.

Record CustomAllocation : Type := mkCustomAllocation {
  Alloc_Address : Address;
  Balance : Z
}.

Record Genesis : Type := mkGenesis {
  Magic : Z;
  (* Tx params *)
  BaseTxUnits : Z;
  (* SetTx params *)
  ValueUnitSize : Z;
  MaxValueSize : Z;
  (* Claim Params *)
  ClaimFeeMultiplier : Z;
  ClaimTier3Multiplier : Z;
  ClaimTier2Size : Z;
  ClaimTier2Multiplier : Z;
  ClaimTier1Size : Z;
  ClaimTier1Multiplier : Z;
  (* Lifeline Params *)
  PrefixRenewalDiscount : Z;
  (* Reward Params *)
  ClaimReward : Z;
  LifelineUnitReward : Z;
  (* Mining Reward *)
  LotteryRewardMultipler : Z;
  LotteryRewardDivisor : Z;
  (* Fee Mechanism Params *)
  LookbackWindow : Z;
  BlockTarget : Z;
  TargetUnits : Z;
  MinPrice : Z;
  MinBlockCost : Z;
  (* Allocations *)
  (* field [CustomAllocation] *)
  CustomAllocations : list (option CustomAllocation);
  AirdropHash : string;
  AirdropUnits : Z
}.

Definition KiB : Z := 1024.

Definition DefaultGenesis : Genesis :=
  {| Magic := 0;
     BaseTxUnits := 10;
     ValueUnitSize := 256;
     MaxValueSize := 128 * KiB;
     ClaimFeeMultiplier := 5;
     ClaimTier3Multiplier := 1;
     ClaimTier2Size := 36;
     ClaimTier2Multiplier := 5;
     ClaimTier1Size := 12;
     ClaimTier1Multiplier := 25;
     PrefixRenewalDiscount := 5;
     ClaimReward := 60 * 60 * 24 * 15;
     LifelineUnitReward := 60 * 60 * 6;
     LotteryRewardMultipler := 8;
     LotteryRewardDivisor := 10;
     LookbackWindow := 60;
     BlockTarget := 1;
     TargetUnits := 10 * 512 * 60;
     MinPrice := 1;
     MinBlockCost := 0;
     CustomAllocations := [];
     AirdropHash := EmptyString;
     AirdropUnits := 0 |}.

(** [g] with its magic value and its allocations replaced. *)
Definition with_allocations (g : Genesis) (magic : Z)
    (custom : list (option CustomAllocation)) (hash : string) (units : Z)
  : Genesis :=
  {| Magic := magic;
     BaseTxUnits := BaseTxUnits g;
     ValueUnitSize := ValueUnitSize g;
     MaxValueSize := MaxValueSize g;
     ClaimFeeMultiplier := ClaimFeeMultiplier g;
     ClaimTier3Multiplier := ClaimTier3Multiplier g;
     ClaimTier2Size := ClaimTier2Size g;
     ClaimTier2Multiplier := ClaimTier2Multiplier g;
     ClaimTier1Size := ClaimTier1Size g;
     ClaimTier1Multiplier := ClaimTier1Multiplier g;
     PrefixRenewalDiscount := PrefixRenewalDiscount g;
     ClaimReward := ClaimReward g;
     LifelineUnitReward := LifelineUnitReward g;
     LotteryRewardMultipler := LotteryRewardMultipler g;
     LotteryRewardDivisor := LotteryRewardDivisor g;
     LookbackWindow := LookbackWindow g;
     BlockTarget := BlockTarget g;
     TargetUnits := TargetUnits g;
     MinPrice := MinPrice g;
     MinBlockCost := MinBlockCost g;
     CustomAllocations := custom;
     AirdropHash := hash;
     AirdropUnits := units |}.

(** [g] with another magic value, all else kept. *)
Definition set_Magic (g : Genesis) (magic : Z) : Genesis :=
  with_allocations g magic (CustomAllocations g) (AirdropHash g)
    (AirdropUnits g).

(** [Genesis.Verify] *)
Definition Verify (g : Genesis) : error :=
  if Magic g =? 0 then Some ErrInvalidMagic else None.

Section Load.

(** [common.BytesToHash(crypto.Keccak256(b)).Hex()] of go-ethereum: the
    hex digest of the payload. *)
Variable Keccak256Hex : list byte -> string.

(** [json.Unmarshal] into a [[]*Airdrop]: the decoded entries and the
    error. *)
Variable json_Unmarshal : list byte -> list (option Airdrop) * error.

(** [for _, alloc := range standardAllocation]: the store it leaves and the
    way it ends.  [alloc.Address] panics when [alloc] is nil. *)
Fixpoint Load_standard (db : Ledger) (units : Z)
    (standardAllocation : list (option Airdrop)) : Ledger * Outcome error :=
  match standardAllocation with
  | [] => (db, Val None)
  | None :: _ => (db, Panic)
  | Some alloc :: rest =>
    let '(db', err) := SetBalance db (Airdrop_Address alloc) units in
    match err with
    | Some e => (db', Val (Some (ErrWrapped e)))
    | None => Load_standard db' units rest
    end
  end.

(** [for _, alloc := range g.CustomAllocation] *)
Fixpoint Load_custom (db : Ledger) (allocs : list (option CustomAllocation))
  : Ledger * Outcome error :=
  match allocs with
  | [] => (db, Val None)
  | None :: _ => (db, Panic)
  | Some alloc :: rest =>
    let '(db', err) := SetBalance db (Alloc_Address alloc) (Balance alloc) in
    match err with
    | Some e => (db', Val (Some (ErrWrapped e)))
    | None => Load_custom db' rest
    end
  end.

(** The first block of [Genesis.Load]: the airdrop.  [Val None] is the way
    on to the custom allocations. *)
Definition Load_airdrop (g : Genesis) (db : Ledger)
    (airdropData : list byte) : Ledger * Outcome error :=
  if (0 <? String.length (AirdropHash g))%nat then
    let h := Keccak256Hex airdropData in
    if negb (String.eqb (AirdropHash g) h) then
      (db, Val (Some (ErrAllocationMismatch (AirdropHash g) h)))
    else
      match json_Unmarshal airdropData with
      | (_, Some e) => (db, Val (Some e))
      | (standardAllocation, None) =>
        Load_standard db (AirdropUnits g) standardAllocation
      end
  else (db, Val None).

(** [Genesis.Load] *)
Definition Load (g : Genesis) (db : Ledger) (airdropData : list byte)
  : Ledger * Outcome error :=
  let '(db1, out) := Load_airdrop g db airdropData in
  match out with
  | Val None =>
    (* Do custom allocation last in case an address shows up in standard
       allocation *)
    Load_custom db1 (CustomAllocations g)
  | _ => (db1, out)
  end.

End Load.

End chain.

(** * The [claim] command of the client *)

Module claim.

Import chain.

(** ** The world outside the client *)

Inductive result (A : Type) : Type :=
| Ok (a : A)
| Failed (e : Err).
Arguments Ok {A} a.
Arguments Failed {A} e.

(** The requests the client sends with [requester.SendRequest]. *)
Inductive Request : Type :=
| ReqCurrBlock
| ReqValidBlockID (blkID : ID)
| ReqDifficultyEstimate
| ReqIssueTx (tx : list byte)
| ReqCheckTx (txID : ID)
| ReqPrefixInfo (pfx : list byte).

(** What the client does that takes time: a request, or waiting in the
    [select] of the polling loop. *)
Inductive Event : Type :=
| EvSend (r : Request)
| EvSelect.

(** The node and the wall clock, as seen by one run of the client.  Every
    answer is indexed by the number of events that came before the call. *)
Record World : Type := mkWorld {
  w_clock : nat -> Z;                       (* time, in nanoseconds *)
  w_currBlock : nat -> result ID;
  w_validBlockID : nat -> ID -> result bool;
  w_difficultyEstimate : nat -> result Z;
  w_issueTx : nat -> list byte -> result (ID * bool);
  w_checkTx : nat -> ID -> result bool;
  w_select_tie : nat -> bool                (* timer and deadline together *)
}.

(** What a transaction pointer leads to, pointers followed. *)
Inductive TxSnapshot : Type :=
| SnapClaim (b : BaseTx)
| SnapTransfer (b : BaseTx) (to : Address) (units : Z).

Definition snap_base (t : TxSnapshot) : BaseTx :=
  match t with
  | SnapClaim b => b
  | SnapTransfer b _ _ => b
  end.

Definition snapshot (h : Heap) (utx : loc) : option TxSnapshot :=
  o ← utxs h !! utx;
  b ← baseTxs h !! base_of o;
  Some match o with
       | ClaimTxObj _ => SnapClaim b
       | TransferTxObj t => SnapTransfer b (To t) (Units t)
       end.

Record PrivateKey : Type := mkPrivateKey {
  PublicKey_Bytes : list byte;
  Sign : list byte -> list byte * error
}.

(** Functions of this repository and of its libraries that the command
    calls and that are not under [src/]; they are parameters of the model. *)
Record Lib : Type := mkLib {
  UnsignedBytes : TxSnapshot -> list byte * error;  (* [chain.UnsignedBytes] *)
  Difficulty : list byte -> Z;                      (* [pow.Difficulty] *)
  ParseKey : list byte -> error;                    (* [chain.ParseKey] *)
  LoadPK : string -> result PrivateKey;             (* [create.LoadPK] *)
  (* [chain.NewTx] and [Tx.Init]: the id and the bytes of the signed
     transaction *)
  NewTx_Init : TxSnapshot -> list byte -> (ID * list byte) * error
}.

(** ** The state of a run and its monad *)

Record Client : Type := mkClient {
  heap : Heap;
  events : list Event
}.

Definition now (s : Client) : nat := length (events s).

Definition log (s : Client) (e : Event) : Client :=
  mkClient (heap s) (events s ++ [e]).

(** A computation of the client: the way it ends and the state it leaves. *)
Definition M (A : Type) : Type := Client -> Outcome A * Client.

Definition ret {A} (a : A) : M A := fun s => (Val a, s).

Definition bind {A B} (m : M A) (k : A -> M B) : M B :=
  fun s =>
    match m s with
    | (Val a, s') => k a s'
    | (Exit code, s') => (Exit code, s')
    | (Panic, s') => (Panic, s')
    | (OutOfFuel, s') => (OutOfFuel, s')
    end.

Definition os_Exit {A} (code : Z) : M A := fun s => (Exit code, s).

Definition out_of_fuel {A} : M A := fun s => (OutOfFuel, s).

(** A heap update that panics on a nil pointer. *)
Definition update_heap (f : Heap -> option Heap) : M unit :=
  fun s =>
    match f (heap s) with
    | Some h => (Val tt, mkClient h (events s))
    | None => (Panic, s)
    end.

Definition read_heap {A} (f : Heap -> option A) : M A :=
  fun s =>
    match f (heap s) with
    | Some a => (Val a, s)
    | None => (Panic, s)
    end.

Definition alloc {A} (f : Heap -> Heap * A) : M A :=
  fun s => let '(h, a) := f (heap s) in (Val a, mkClient h (events s)).

Declare Scope client_scope.
Delimit Scope client_scope with client.
Notation "x <- m ;; k" := (bind m (fun x => k))
  (at level 20, m at level 99, k at level 200, only parsing) : client_scope.
Notation "' p <- m ;; k" := (bind m (fun x => let 'p := x in k))
  (at level 20, p pattern, m at level 99, k at level 200, only parsing)
  : client_scope.
Local Open Scope client_scope.

(** ** Contexts with a deadline *)

Record Context : Type := mkContext {
  deadline : Z
}.

Definition Second : Z := 1000000000.

Section Client.

Variable w : World.
Variable lib : Lib.

(** [context.WithTimeout(context.Background(), timeout)] *)
Definition WithTimeout (timeout : Z) : M Context :=
  fun s => (Val (mkContext (w_clock w (now s) + timeout)), s).

(** [ctx.Err()] *)
Definition ctx_Err (ctx : Context) : M error :=
  fun s =>
    (Val (if deadline ctx <=? w_clock w (now s)
          then Some DeadlineExceeded else None), s).

(** The [select] of the polling loop: [true] when the one-second timer
    fires, [false] when [ctx.Done()] is taken. *)
Definition select_timer (ctx : Context) : M bool :=
  fun s =>
    let timer := w_clock w (now s) + Second in
    (Val (if timer <? deadline ctx then true
          else if deadline ctx <? timer then false
          else w_select_tie w (now s)),
     log s EvSelect).

(** ** Requests *)

Definition zeroID : ID := repeat x00 32.

Definition currBlock : M (ID * error) :=
  fun s =>
    let s' := log s (EvSend ReqCurrBlock) in
    match w_currBlock w (now s) with
    | Failed e => (Val (zeroID, Some e), s')
    | Ok blockID => (Val (blockID, None), s')
    end.

Definition validBlockID (blkID : ID) : M (bool * error) :=
  fun s =>
    let s' := log s (EvSend (ReqValidBlockID blkID)) in
    match w_validBlockID w (now s) blkID with
    | Failed e => (Val (false, Some e), s')
    | Ok valid => (Val (valid, None), s')
    end.

Definition difficultyEstimate : M (Z * error) :=
  fun s =>
    let s' := log s (EvSend ReqDifficultyEstimate) in
    match w_difficultyEstimate w (now s) with
    | Failed e => (Val (0, Some e), s')
    | Ok difficulty => (Val (difficulty, None), s')
    end.

(** [chain.UnsignedBytes(utx)], on what [utx] points to now. *)
Definition unsignedBytes (utx : loc) : M (list byte * error) :=
  t <- read_heap (fun h => snapshot h utx) ;;
  ret (UnsignedBytes lib t).

(** ** [mine] *)

(** The inner loop.  [None]: the loop was left, by its condition or by
    [break]; [Some r]: [mine] returns [r]. *)
Fixpoint mine_inner (fuel : nat) (ctx : Context) (utx : loc) (cbID : ID)
    (graffiti : Z) : M (option (option loc * error)) :=
  match fuel with
  | O => out_of_fuel
  | S fuel' =>
    cerr <- ctx_Err ctx ;;
    match cerr with
    | Some _ => ret None
    | None =>
      '(v, err) <- validBlockID cbID ;;
      match err with
      | Some e => ret (Some (None, Some e))
      | None =>
        if negb v then ret None
        else
          _ <- update_heap (fun h => SetGraffiti h utx graffiti) ;;
          '(b, err) <- unsignedBytes utx ;;
          match err with
          | Some e => ret (Some (None, Some e))
          | None =>
            let d := Difficulty lib b in
            '(est, err) <- difficultyEstimate ;;
            match err with
            | Some e => ret (Some (None, Some e))
            | None =>
              if est <=? d then ret (Some (Some utx, None))
              else mine_inner fuel' ctx utx cbID
                     ((graffiti + 1) mod 2 ^ 64)
            end
          end
      end
    end
  end.

Fixpoint mine (fuel : nat) (ctx : Context) (utx : loc)
  : M (option loc * error) :=
  match fuel with
  | O => out_of_fuel
  | S fuel' =>
    cerr <- ctx_Err ctx ;;
    match cerr with
    | Some _ => cerr' <- ctx_Err ctx ;; ret (None, cerr')
    | None =>
      '(cbID, err) <- currBlock ;;
      match err with
      | Some e => ret (None, Some e)
      | None =>
        _ <- update_heap (fun h => SetBlockID h utx cbID) ;;
        r <- mine_inner fuel' ctx utx cbID 0 ;;
        match r with
        | Some res => ret res
        | None =>
          (* Get new block hash if no longer valid *)
          mine fuel' ctx utx
        end
      end
    end
  end.

(** ** The confirmation polling loop of [claimFunc] *)

(** [SendRequest("checkTx", ...)]: the [Confirmed] field of the reply, which
    keeps its zero value when the request fails, and the error. *)
Definition checkTx (txID : ID) : M (bool * error) :=
  fun s =>
    let s' := log s (EvSend (ReqCheckTx txID)) in
    match w_checkTx w (now s) txID with
    | Failed e => (Val (false, Some e), s')
    | Ok confirmed => (Val (confirmed, None), s')
    end.

(** The loop labelled [done]. *)
Fixpoint poll (fuel : nat) (ctx : Context) (txID : ID) : M unit :=
  match fuel with
  | O => out_of_fuel
  | S fuel' =>
    cerr <- ctx_Err ctx ;;
    match cerr with
    | Some _ => ret tt
    | None =>
      timer <- select_timer ctx ;;
      if negb timer then ret tt                     (* break done *)
      else
        '(confirmed, err) <- checkTx txID ;;
        (* an error is printed, nothing else *)
        if confirmed then ret tt                    (* break *)
        else poll fuel' ctx txID
    end
  end.

(** ** [getClaimOp] *)

(** [bytes.HasSuffix] *)
Definition bytes_HasSuffix (s suffix : list byte) : bool :=
  (length suffix <=? length s)%nat
  && bytes_Equal (drop (length s - length suffix) s) suffix.

Definition slash : byte := "/"%byte.

(** Lines 294 to 296 of [getClaimOp]. *)
Definition trim_slash (pfx : list byte) : list byte :=
  if bytes_HasSuffix pfx [slash] then take (length pfx - 1) pfx else pfx.

Definition getClaimOp (args : list string) : M (list byte) :=
  match args with
  | [arg] =>
    let pfx := list_byte_of_string arg in
    let pfx := trim_slash pfx in
    match ParseKey lib pfx with
    | Some _ => os_Exit 128
    | None => ret pfx
    end
  | _ => os_Exit 128
  end.

(** ** [claimFunc] *)

Definition issueTx (tx : list byte) : M ((ID * bool) * error) :=
  fun s =>
    let s' := log s (EvSend (ReqIssueTx tx)) in
    match w_issueTx w (now s) tx with
    | Failed e => (Val ((zeroID, false), Some e), s')
    | Ok resp => (Val (resp, None), s')
    end.

(** [client.GetPrefixInfo]; its result is only printed. *)
Definition GetPrefixInfo (pfx : list byte) : M unit :=
  fun s => (Val tt, log s (EvSend (ReqPrefixInfo pfx))).

Definition claimFunc (fuel : nat) (privateKeyFile : string)
    (requestTimeout : Z) (prefixInfo : bool) (args : list string)
  : M error :=
  match LoadPK lib privateKeyFile with
  | Failed e => ret (Some e)
  | Ok priv =>
    pfx <- getClaimOp args ;;
    (* the requester is created here; nothing is sent yet *)
    b0 <- alloc (fun h =>
            alloc_BaseTx h
              (mkBaseTx (PublicKey_Bytes priv) pfx zeroID 0 0 0)) ;;
    utx <- alloc (fun h => alloc_utx h (ClaimTxObj (mkClaimTx b0))) ;;
    ctx <- WithTimeout requestTimeout ;;
    '(mtx, err) <- mine fuel ctx utx ;;
    match err with
    | Some e => ret (Some e)
    | None =>
      t <- read_heap (fun h => l ← mtx; snapshot h l) ;;
      let '(b, err) := UnsignedBytes lib t in
      match err with
      | Some e => ret (Some e)
      | None =>
        let '(sig, err) := Sign priv b in
        match err with
        | Some e => ret (Some e)
        | None =>
          let '((_, txBytes), err) := NewTx_Init lib t sig in
          match err with
          | Some e => ret (Some e)
          | None =>
            '((txID, success), err) <- issueTx txBytes ;;
            match err with
            | Some e => ret (Some e)
            | None =>
              if negb success then ret (Some (ErrTxFailed txID))
              else
                ctx <- WithTimeout requestTimeout ;;
                _ <- poll fuel ctx txID ;;
                _ <- (if prefixInfo then GetPrefixInfo pfx else ret tt) ;;
                ret None
            end
          end
        end
      end
    end
  end.

End Client.

End claim.

(** * Library functions [Genesis.Load] is run with *)

Definition byte_Z (b : byte) : Z := Z.of_N (Byte.to_N b).

Definition Z_byte (z : Z) : byte :=
  default x00 (Byte.of_N (Z.to_N (z mod 256))).

(** [encoding/hex] *)
Module hex.

Definition digit (n : Z) : ascii :=
  nth (Z.to_nat n) (list_ascii_of_string "0123456789abcdef") "0"%char.

(** [hex.EncodeToString] *)
Fixpoint EncodeToString (b : list byte) : string :=
  match b with
  | [] => EmptyString
  | x :: rest =>
    String (digit (byte_Z x / 16))
      (String (digit (byte_Z x mod 16)) (EncodeToString rest))
  end.

(** The value of a hexadecimal digit, in either case. *)
Definition value (c : byte) : option Z :=
  let n := byte_Z c in
  if (48 <=? n) && (n <=? 57) then Some (n - 48)
  else if (97 <=? n) && (n <=? 102) then Some (n - 87)
  else if (65 <=? n) && (n <=? 70) then Some (n - 55)
  else None.

(** [n] bytes read from [2 * n] digits, and what follows them. *)
Fixpoint decode (n : nat) (s : list byte) : option (list byte * list byte) :=
  match n with
  | O => Some ([], s)
  | S n' =>
    match s with
    | hi :: lo :: rest =>
      h ← value hi;
      l ← value lo;
      '(bs, rest') ← decode n' rest;
      Some (Z_byte (16 * h + l) :: bs, rest')
    | _ => None
    end
  end.

End hex.

(** [crypto.Keccak256] of go-ethereum: Keccak-256, the sponge over the
    permutation Keccak-f[1600] with a rate of 136 bytes and the padding of
    the Keccak submission (first padding byte 1, last padding bit set). *)
Module crypto.

(** A 64-bit lane rotated left by [n] bits. *)
Definition rotl (x n : Z) : Z :=
  Z.lor (Z.land (Z.shiftl x n) (Z.ones 64)) (Z.shiftr x (64 - n)).

(** The state has 25 lanes; lane (x, y) is at index [x + 5 * y]. *)
Definition lane (A : list Z) (i : nat) : Z := nth i A 0.

Definition indices : list nat := seq 0 25.

Definition round_constants : list Z :=
  [0x0000000000000001; 0x0000000000008082; 0x800000000000808A;
   0x8000000080008000; 0x000000000000808B; 0x0000000080000001;
   0x8000000080008081; 0x8000000000008009; 0x000000000000008A;
   0x0000000000000088; 0x0000000080008009; 0x000000008000000A;
   0x000000008000808B; 0x800000000000008B; 0x8000000000008089;
   0x8000000000008003; 0x8000000000008002; 0x8000000000000080;
   0x000000000000800A; 0x800000008000000A; 0x8000000080008081;
   0x8000000000008080; 0x0000000080000001; 0x8000000080008008].

Definition rotation_offsets : list Z :=
  [0; 1; 62; 28; 27;  36; 44; 6; 55; 20;  3; 10; 43; 25; 39;
   41; 45; 15; 21; 8;  18; 2; 61; 56; 14].

Definition theta (A : list Z) : list Z :=
  let C := map (fun x =>
             Z.lxor (lane A x)
               (Z.lxor (lane A (x + 5))
                  (Z.lxor (lane A (x + 10))
                     (Z.lxor (lane A (x + 15)) (lane A (x + 20))))))
             (seq 0 5) in
  let D := map (fun x =>
             Z.lxor (lane C ((x + 4) mod 5))
                    (rotl (lane C ((x + 1) mod 5)) 1))
             (seq 0 5) in
  map (fun i => Z.lxor (lane A i) (lane D (i mod 5))) indices.

(** Lane (x, y) goes, rotated, to (y, 2x + 3y); read from the target. *)
Definition rho_pi (A : list Z) : list Z :=
  map (fun i =>
         let X := (i mod 5)%nat in
         let Y := (i / 5)%nat in
         let src := ((X + 3 * Y) mod 5 + 5 * X)%nat in
         rotl (lane A src) (lane rotation_offsets src))
      indices.

Definition chi (B : list Z) : list Z :=
  map (fun i =>
         let x := (i mod 5)%nat in
         let row := (5 * (i / 5))%nat in
         Z.lxor (lane B i)
           (Z.land (Z.lxor (lane B ((x + 1) mod 5 + row)) (Z.ones 64))
                   (lane B ((x + 2) mod 5 + row))))
      indices.

Definition iota (rc : Z) (A : list Z) : list Z :=
  match A with
  | a :: rest => Z.lxor a rc :: rest
  | [] => []
  end.

Definition keccak_f (A : list Z) : list Z :=
  fold_left (fun A rc => iota rc (chi (rho_pi (theta A)))) round_constants A.

Definition rate : nat := 136.

Definition pad (msg : list Z) : list Z :=
  match (rate - 1 - length msg mod rate)%nat with
  | O => msg ++ [0x81]
  | S n => msg ++ [0x01] ++ repeat 0 n ++ [0x80]
  end.

(** Eight bytes, least significant first, as a lane. *)
Definition lane_of_bytes (bs : list Z) : Z :=
  fold_right (fun b acc => b + 256 * acc) 0 bs.

Fixpoint lanes_of_bytes (n : nat) (bs : list Z) : list Z :=
  match n with
  | O => []
  | S n' => lane_of_bytes (firstn 8 bs) :: lanes_of_bytes n' (skipn 8 bs)
  end.

Definition bytes_of_lane (a : Z) : list Z :=
  map (fun k => Z.shiftr a (8 * Z.of_nat k) mod 256) (seq 0 8).

Fixpoint absorb (blocks : nat) (A : list Z) (data : list Z) : list Z :=
  match blocks with
  | O => A
  | S blocks' =>
    let block := lanes_of_bytes 17 (firstn rate data) in
    let A' := map (fun i => Z.lxor (lane A i) (lane block i)) indices in
    absorb blocks' (keccak_f A') (skipn rate data)
  end.

Definition Keccak256 (data : list byte) : list byte :=
  let padded := pad (map byte_Z data) in
  let A := absorb (length padded / rate) (repeat 0 25) padded in
  map Z_byte (flat_map bytes_of_lane (firstn 4 A)).

(** [common.BytesToHash(crypto.Keccak256(b)).Hex()]: the 32 bytes of the
    digest in lower-case hexadecimal digits after [0x]. *)
Definition Keccak256Hex (b : list byte) : string :=
  String "0" (String "x" (hex.EncodeToString (Keccak256 b))).

End crypto.

(** [json.Unmarshal] into a [[]*Airdrop], for the texts that [json.Marshal]
    writes for such a slice: [null], or an array, without white space, of
    [null] and of objects with the one key [address] whose value is a
    string of [0x] and 40 hexadecimal digits.  On these texts it gives what
    [json.Unmarshal] gives; every other text is answered with an error
    here. *)
Module json.

Import chain.

Definition quote : byte := x22.

(** [s] without its prefix [p]. *)
Definition strip (p s : list byte) : option (list byte) :=
  if bool_decide (take (length p) s = p) then Some (drop (length p) s)
  else None.

Definition null : list byte := list_byte_of_string "null".

(** The bytes of an object before the digits of its address, and after
    them. *)
Definition object_open : list byte :=
  list_byte_of_string "{" ++ [quote] ++ list_byte_of_string "address"
  ++ [quote] ++ list_byte_of_string ":" ++ [quote]
  ++ list_byte_of_string "0x".

Definition object_close : list byte := [quote] ++ list_byte_of_string "}".

(** One element of the array and what follows it; a [null] is a nil
    pointer. *)
Definition element (s : list byte) : option (option Airdrop * list byte) :=
  match strip null s with
  | Some rest => Some (None, rest)
  | None =>
    s1 ← strip object_open s;
    '(a, s2) ← hex.decode AddressLength s1;
    s3 ← strip object_close s2;
    Some (Some (mkAirdrop a), s3)
  end.

(** What follows an element: the next one after a comma, or the end of the
    array and of the text. *)
Fixpoint elements (fuel : nat) (s : list byte)
  : option (list (option Airdrop)) :=
  match fuel with
  | O => None
  | S fuel' =>
    match s with
    | c :: rest =>
      if bool_decide (c = "]"%byte) then
        match rest with [] => Some [] | _ => None end
      else if bool_decide (c = ","%byte) then
        '(x, s') ← element rest;
        l ← elements fuel' s';
        Some (x :: l)
      else None
    | [] => None
    end
  end.

Definition array (data : list byte) : option (list (option Airdrop)) :=
  if bool_decide (data = null) then Some []
  else if bool_decide (data = list_byte_of_string "[]") then Some []
  else
    s ← strip (list_byte_of_string "[") data;
    '(x, s') ← element s;
    l ← elements (length data) s';
    Some (x :: l).

Definition Unmarshal (data : list byte) : list (option Airdrop) * error :=
  match array data with
  | Some l => (l, None)
  | None => ([], Some ErrUnmarshal)
  end.

End json.

(** * Sample data *)

Module sample.

Import chain.

Definition alice : Address := repeat x01 AddressLength.
Definition bob : Address := repeat x02 AddressLength.

(** Alice holds one unit, Bob the largest balance there is. *)
Definition rich_bob : Ledger := <[bob := MaxUint64]> (<[alice := 1]> ∅).

(** Alice holds ten units, Bob three. *)
Definition ten_three : Ledger := <[bob := 3]> (<[alice := 10]> ∅).

Definition pay_bob (units : Z) : TransferTx := mkTransferTx 0%nat bob units.

Definition from_alice (db : Ledger) : TransactionContext :=
  mkTransactionContext db alice.

End sample.

(** Genesis files with an airdrop of 5 units and a custom allocation of 7
    units for Bob, and airdrop payloads for them. *)
Module sample_genesis.

Import chain.

(** The bytes of a text that is written with ['] for the double quote. *)
Definition text (s : string) : list byte :=
  map (fun b => if bool_decide (b = "'"%byte) then json.quote else b)
      (list_byte_of_string s).

(** The airdrop list of Alice and Bob, as [json.Marshal] writes it. *)
Definition payload : list byte :=
  text "[{'address':'0x0101010101010101010101010101010101010101'},"
  ++ text "{'address':'0x0202020202020202020202020202020202020202'}]".

(** Alice, a [null], and Bob. *)
Definition payload_null : list byte :=
  text "[{'address':'0x0101010101010101010101010101010101010101'},null,"
  ++ text "{'address':'0x0202020202020202020202020202020202020202'}]".

(** A text that is not JSON. *)
Definition payload_bad : list byte := text "{".

(** Magic 1, the digest of the airdrop payload, an airdrop of 5 units, and
    Bob in the custom list with 7. *)
Definition with_hash (hash : string) : Genesis :=
  with_allocations DefaultGenesis 1 [Some (mkCustomAllocation sample.bob 7)]
    hash 5.

(** The genesis of [payload], of [payload_null] and of [payload_bad]. *)
Definition genesis : Genesis :=
  with_hash
    "0x5f5ca31d78b11bb54341d0009c38018e7fe4fc093e547516456d976d1fd1e745".

Definition genesis_null : Genesis :=
  with_hash
    "0xe4e91bc90314d096045d4b8ad2697f36dfecef5fd26d45c535cef387e3549a75".

Definition genesis_bad : Genesis :=
  with_hash
    "0xa91eddf639b0b768929589c1a9fd21dcb0107199bdd82e55c5348018a1572f52".

(** The same custom allocation, no airdrop, and the magic left at zero. *)
Definition no_magic : Genesis :=
  with_allocations DefaultGenesis 0 [Some (mkCustomAllocation sample.bob 7)]
    "" 0.

End sample_genesis.

(** A node and the library functions for sample runs of the client. *)
Module sample_client.

Import chain claim.

Definition key : PrivateKey :=
  mkPrivateKey [x0a] (fun b => (b, None)).

(** Keys are refused when empty; the unsigned bytes of a transaction are as
    many zero bytes as its graffiti says, and their difficulty is their
    number. *)
Definition lib : Lib :=
  {| UnsignedBytes := fun t =>
       (repeat x00 (Z.to_nat (Graffiti (snap_base t))), None);
     Difficulty := fun b => Z.of_nat (length b);
     ParseKey := fun pfx =>
       match pfx with [] => Some ErrParseKey | _ => None end;
     LoadPK := fun _ => Ok key;
     NewTx_Init := fun _ sig => (([x01], sig), None) |}.

Definition block1 : ID := repeat x01 32.

(** A node that answers every request: the block is [block1], it stays
    valid, the difficulty estimate is 2, transactions are accepted and
    confirmed at once.  The clock ticks once per event. *)
Definition steady : World :=
  {| w_clock := fun n => Z.of_nat n;
     w_currBlock := fun _ => Ok block1;
     w_validBlockID := fun _ _ => Ok true;
     w_difficultyEstimate := fun _ => Ok 2;
     w_issueTx := fun _ _ => Ok ([x01], true);
     w_checkTx := fun _ _ => Ok true;
     w_select_tie := fun _ => true |}.

(** A node whose [currBlock] fails. *)
Definition unreachable : World :=
  {| w_clock := fun n => Z.of_nat n;
     w_currBlock := fun _ => Failed (ErrRequest 1);
     w_validBlockID := fun _ _ => Ok true;
     w_difficultyEstimate := fun _ => Ok 2;
     w_issueTx := fun _ _ => Ok ([x01], true);
     w_checkTx := fun _ _ => Ok true;
     w_select_tie := fun _ => true |}.

(** A node that asks for more difficulty than a short search finds. *)
Definition hard : World :=
  {| w_clock := fun n => Z.of_nat n;
     w_currBlock := fun _ => Ok block1;
     w_validBlockID := fun _ _ => Ok true;
     w_difficultyEstimate := fun _ => Ok 1000;
     w_issueTx := fun _ _ => Ok ([x01], true);
     w_checkTx := fun _ _ => Ok true;
     w_select_tie := fun _ => true |}.

(** A node whose [checkTx] fails until five events have passed. *)
Definition flaky : World :=
  {| w_clock := fun n => Z.of_nat n;
     w_currBlock := fun _ => Ok block1;
     w_validBlockID := fun _ _ => Ok true;
     w_difficultyEstimate := fun _ => Ok 2;
     w_issueTx := fun _ _ => Ok ([x01], true);
     w_checkTx := fun n _ =>
       if (n <? 5)%nat then Failed (ErrRequest 2) else Ok true;
     w_select_tie := fun _ => true |}.

(** One pending claim on the heap: the [BaseTx] at 0, the [ClaimTx] at 0. *)
Definition pending_base : BaseTx := mkBaseTx [x0a] [x68; x69] zeroID 0 0 0.

Definition pending : Client :=
  mkClient
    (mkHeap (<[0%nat := pending_base]> ∅)
            (<[0%nat := ClaimTxObj (mkClaimTx 0%nat)]> ∅))
    [].

Definition soon : Context := mkContext 100.

(** A context for the polling loop, with seconds to go. *)
Definition later : Context := mkContext (100 * Second).

(** One pending transfer on the heap: its [BaseTx] at 3, the [TransferTx]
    at 7. *)
Definition transfer_heap : Heap :=
  mkHeap (<[3%nat := pending_base]> ∅)
         (<[7%nat := TransferTxObj (mkTransferTx 3%nat sample.bob 4)]> ∅).

End sample_client.

(** * Properties *)

Import chain.

(** ** Balances *)

Lemma bytes_Equal_true a b : bytes_Equal a b = true <-> a = b.
Proof. unfold bytes_Equal. by rewrite bool_decide_eq_true. Qed.

Lemma bytes_Equal_false a b : bytes_Equal a b = false <-> a <> b.
Proof. unfold bytes_Equal. by rewrite bool_decide_eq_false. Qed.

Lemma GetBalance_insert_eq (db : Ledger) a v :
  GetBalance (<[a := v]> db) a = v.
Proof. unfold GetBalance. by rewrite lookup_insert_eq. Qed.

Lemma GetBalance_insert_ne (db : Ledger) a b v :
  a <> b -> GetBalance (<[a := v]> db) b = GetBalance db b.
Proof. intros Hne. unfold GetBalance. by rewrite lookup_insert_ne. Qed.

Lemma ModifyBalance_debit (db : Ledger) a change :
  change <= GetBalance db a ->
  ModifyBalance db a false change =
    (<[a := GetBalance db a - change]> db, (GetBalance db a - change, None)).
Proof.
  intros Hle. unfold ModifyBalance, SetBalance.
  destruct (Z.ltb_spec (GetBalance db a) change); [lia | reflexivity].
Qed.

Lemma ModifyBalance_debit_insufficient (db : Ledger) a change :
  GetBalance db a < change ->
  ModifyBalance db a false change = (db, (0, Some ErrInsufficientBalance)).
Proof.
  intros Hlt. unfold ModifyBalance.
  destruct (Z.ltb_spec (GetBalance db a) change); [reflexivity | lia].
Qed.

Lemma ModifyBalance_credit (db : Ledger) a change :
  GetBalance db a + change <= MaxUint64 ->
  ModifyBalance db a true change =
    (<[a := GetBalance db a + change]> db, (GetBalance db a + change, None)).
Proof.
  intros Hle. unfold ModifyBalance, SetBalance.
  destruct (Z.ltb_spec MaxUint64 (GetBalance db a + change));
    [lia | reflexivity].
Qed.

Lemma ModifyBalance_credit_overflow (db : Ledger) a change :
  MaxUint64 < GetBalance db a + change ->
  ModifyBalance db a true change = (db, (0, Some ErrBalanceOverflow)).
Proof.
  intros Hlt. unfold ModifyBalance.
  destruct (Z.ltb_spec MaxUint64 (GetBalance db a + change));
    [reflexivity | lia].
Qed.

(** ** [TransferTx.Execute] *)

(** Past its three guards, [Execute] is the debit followed by the credit. *)
Lemma Execute_actionable t c :
  To t <> zeroAddress -> To t <> Sender c -> Units t <> 0 ->
  Execute t c =
    let '(db1, (_, err1)) :=
      ModifyBalance (Database c) (Sender c) false (Units t) in
    match err1 with
    | Some e => (db1, Some e)
    | None =>
      let '(db2, (_, err2)) := ModifyBalance db1 (To t) true (Units t) in
      match err2 with
      | Some e => (db2, Some e)
      | None => (db2, None)
      end
    end.
Proof.
  intros Hz Hs Hu. unfold Execute.
  apply bytes_Equal_false in Hz, Hs. rewrite Hz, Hs.
  apply Z.eqb_neq in Hu. by rewrite Hu.
Qed.

Lemma Execute_insufficient t c :
  To t <> zeroAddress -> To t <> Sender c -> Units t <> 0 ->
  GetBalance (Database c) (Sender c) < Units t ->
  Execute t c = (Database c, Some ErrInsufficientBalance).
Proof.
  intros Hz Hs Hu Hlt. rewrite Execute_actionable by done.
  by rewrite ModifyBalance_debit_insufficient.
Qed.

Lemma Execute_success t c :
  To t <> zeroAddress -> To t <> Sender c -> Units t <> 0 ->
  Units t <= GetBalance (Database c) (Sender c) ->
  GetBalance (Database c) (To t) + Units t <= MaxUint64 ->
  Execute t c =
    (<[To t := GetBalance (Database c) (To t) + Units t]>
       (<[Sender c := GetBalance (Database c) (Sender c) - Units t]>
          (Database c)), None).
Proof.
  intros Hz Hs Hu Hle Hmax. rewrite Execute_actionable by done.
  rewrite ModifyBalance_debit by done. cbv beta iota.
  rewrite ModifyBalance_credit; rewrite GetBalance_insert_ne by done; done.
Qed.

Lemma Execute_credit_overflow t c :
  To t <> zeroAddress -> To t <> Sender c -> Units t <> 0 ->
  Units t <= GetBalance (Database c) (Sender c) ->
  MaxUint64 < GetBalance (Database c) (To t) + Units t ->
  Execute t c =
    (<[Sender c := GetBalance (Database c) (Sender c) - Units t]>
       (Database c), Some ErrBalanceOverflow).
Proof.
  intros Hz Hs Hu Hle Hmax. rewrite Execute_actionable by done.
  rewrite ModifyBalance_debit by done. cbv beta iota.
  rewrite ModifyBalance_credit_overflow;
    rewrite ?GetBalance_insert_ne by done; done.
Qed.

(** A transfer that one of the guards stops leaves the ledger alone. *)
Lemma Execute_guarded_ledger t c :
  To t = Sender c \/ To t = zeroAddress \/ Units t = 0 ->
  (Execute t c).1 = Database c.
Proof.
  intros H. unfold Execute.
  destruct (bytes_Equal (To t) zeroAddress) eqn:Hz; [done |].
  destruct (bytes_Equal (To t) (Sender c)) eqn:Hs; [done |].
  destruct (Units t =? 0) eqn:Hu; [done |].
  apply bytes_Equal_false in Hz, Hs. apply Z.eqb_neq in Hu.
  destruct H as [H | [H | H]]; congruence.
Qed.

(** Every balance of the ledger is a [uint64]. *)
Definition wf_ledger (db : Ledger) : Prop :=
  forall a, is_uint64 (GetBalance db a).

Lemma wf_ledger_insert (db : Ledger) a v :
  wf_ledger db -> is_uint64 v -> wf_ledger (<[a := v]> db).
Proof.
  intros Hdb Hv b. destruct (decide (a = b)) as [-> | Hne].
  - by rewrite GetBalance_insert_eq.
  - by rewrite GetBalance_insert_ne.
Qed.

(** Section 3, the invariant of accounts: whatever [Execute] does with a
    transfer of a [uint64] amount, no balance leaves the range of [uint64];
    in particular none becomes negative. *)
Lemma Execute_keeps_balances_in_range t c :
  wf_ledger (Database c) -> is_uint64 (Units t) ->
  wf_ledger (Execute t c).1.
Proof.
  intros Hdb Hunits.
  destruct (decide (To t = Sender c \/ To t = zeroAddress \/ Units t = 0))
    as [Hna | Hact].
  { by rewrite Execute_guarded_ledger. }
  assert (To t <> zeroAddress /\ To t <> Sender c /\ Units t <> 0)
    as (Hz & Hs & Hu) by naive_solver.
  pose proof (Hdb (Sender c)) as Hsender. pose proof (Hdb (To t)) as Hto.
  unfold is_uint64 in *.
  destruct (Z.lt_ge_cases (GetBalance (Database c) (Sender c)) (Units t))
    as [Hlt | Hle].
  { by rewrite Execute_insufficient. }
  destruct (Z.lt_ge_cases MaxUint64
              (GetBalance (Database c) (To t) + Units t)) as [Hover | Hfits].
  - rewrite Execute_credit_overflow by done. cbn [fst].
    apply wf_ledger_insert; [done |]. unfold is_uint64. lia.
  - rewrite Execute_success by done. cbn [fst].
    apply wf_ledger_insert; [apply wf_ledger_insert; [done |] |];
      unfold is_uint64; lia.
Qed.

(** *** The sample ledgers *)

Lemma bob_not_alice : sample.bob <> sample.alice.
Proof. vm_compute. discriminate. Qed.

Lemma bob_not_zero : sample.bob <> zeroAddress.
Proof. vm_compute. discriminate. Qed.

Lemma rich_bob_alice : GetBalance sample.rich_bob sample.alice = 1.
Proof.
  unfold sample.rich_bob.
  rewrite GetBalance_insert_ne by apply bob_not_alice.
  apply GetBalance_insert_eq.
Qed.

Lemma rich_bob_bob : GetBalance sample.rich_bob sample.bob = MaxUint64.
Proof. apply GetBalance_insert_eq. Qed.

Lemma ten_three_alice : GetBalance sample.ten_three sample.alice = 10.
Proof.
  unfold sample.ten_three.
  rewrite GetBalance_insert_ne by apply bob_not_alice.
  apply GetBalance_insert_eq.
Qed.

Lemma ten_three_bob : GetBalance sample.ten_three sample.bob = 3.
Proof. apply GetBalance_insert_eq. Qed.

(** Alice pays Bob one unit he has no room for: the debit is written, the
    credit is refused. *)
Lemma Execute_rich_bob :
  Execute (sample.pay_bob 1) (sample.from_alice sample.rich_bob)
  = (<[sample.alice := 0]> sample.rich_bob, Some ErrBalanceOverflow).
Proof.
  rewrite Execute_credit_overflow; cbn [To Units Sender Database
    sample.pay_bob sample.from_alice];
    rewrite ?rich_bob_alice, ?rich_bob_bob;
    first [ apply bob_not_zero | apply bob_not_alice | done
          | unfold MaxUint64; lia ].
Qed.

(** C2: a transfer to oneself, to the zero address or of zero units fails
    with [ErrNonActionable], and the ledger is the one [Execute] was given:
    no balance changes. *)
Theorem Execute_non_actionable t c :
  To t = Sender c \/ To t = zeroAddress \/ Units t = 0 ->
  Execute t c = (Database c, Some ErrNonActionable).
Proof.
  intros H. unfold Execute.
  destruct (bytes_Equal (To t) zeroAddress) eqn:Hz; [done |].
  destruct (bytes_Equal (To t) (Sender c)) eqn:Hs; [done |].
  destruct (Units t =? 0) eqn:Hu; [done |].
  apply bytes_Equal_false in Hz, Hs. apply Z.eqb_neq in Hu.
  destruct H as [H | [H | H]]; congruence.
Qed.

Lemma Execute_non_actionable_witness :
  Execute (sample.pay_bob 0) (sample.from_alice sample.ten_three)
  = (sample.ten_three, Some ErrNonActionable).
Proof.
  apply (Execute_non_actionable (sample.pay_bob 0)
           (sample.from_alice sample.ten_three)).
  right. right. reflexivity.
Defined.

(** What C1 says of a funded transfer fails for Alice paying one unit to Bob
    when Bob already holds [MaxUint64]: the transfer is actionable and
    funded, yet [Execute] does not succeed. *)
Lemma Execute_funded_not_always_ok :
  let t := sample.pay_bob 1 in
  let c := sample.from_alice sample.rich_bob in
  To t <> zeroAddress /\ To t <> Sender c /\ Units t <> 0 /\
  Units t <= GetBalance (Database c) (Sender c) /\
  ~ (exists db',
        Execute t c = (db', None) /\
        GetBalance db' (Sender c)
          = GetBalance (Database c) (Sender c) - Units t /\
        GetBalance db' (To t) = GetBalance (Database c) (To t) + Units t).
Proof.
  cbv zeta.
  split; [apply bob_not_zero |]. split; [apply bob_not_alice |].
  split; [done |]. split.
  - change (1 <= GetBalance sample.rich_bob sample.alice).
    by rewrite rich_bob_alice.
  - intros (db' & Hex & _). rewrite Execute_rich_bob in Hex.
    discriminate Hex.
Qed.

(** C1, amended: take an actionable transfer (recipient not the zero
    address and not the sender, units not zero).  With a sender balance of
    at least [Units] and a credit that fits in 64 bits, [Execute] succeeds
    with the sender's balance lowered and the recipient's raised by [Units],
    every other balance kept.  With a sender balance below [Units],
    [Execute] fails with the ledger unchanged, whatever the recipient
    holds. *)
Theorem Execute_transfer t c :
  To t <> zeroAddress -> To t <> Sender c -> Units t <> 0 ->
  (Units t <= GetBalance (Database c) (Sender c) ->
   GetBalance (Database c) (To t) + Units t <= MaxUint64 ->
   exists db',
     Execute t c = (db', None) /\
     GetBalance db' (Sender c)
       = GetBalance (Database c) (Sender c) - Units t /\
     GetBalance db' (To t) = GetBalance (Database c) (To t) + Units t /\
     forall a, a <> Sender c -> a <> To t ->
               GetBalance db' a = GetBalance (Database c) a) /\
  (GetBalance (Database c) (Sender c) < Units t ->
   Execute t c = (Database c, Some ErrInsufficientBalance)).
Proof.
  intros Hz Hs Hu. split.
  - intros Hle Hmax. eexists. split; [by apply Execute_success |].
    split; [| split].
    + rewrite GetBalance_insert_ne by done. apply GetBalance_insert_eq.
    + apply GetBalance_insert_eq.
    + intros a Ha1 Ha2. by rewrite !GetBalance_insert_ne.
  - by apply Execute_insufficient.
Qed.

(** C1 on the sample ledgers: Alice, with ten units, pays Bob four; Alice,
    with one unit, cannot pay two to Bob, who holds [MaxUint64], and the
    ledger stays as it is. *)
Lemma Execute_transfer_witness :
  (exists db',
      Execute (sample.pay_bob 4) (sample.from_alice sample.ten_three)
      = (db', None) /\
      GetBalance db' sample.alice = 10 - 4 /\
      GetBalance db' sample.bob = 3 + 4) /\
  Execute (sample.pay_bob 2) (sample.from_alice sample.rich_bob)
  = (sample.rich_bob, Some ErrInsufficientBalance).
Proof.
  split.
  - destruct (Execute_transfer (sample.pay_bob 4)
                (sample.from_alice sample.ten_three)) as [Hok _];
      try first [ apply bob_not_zero | apply bob_not_alice | done ].
    cbn [To Units Sender Database sample.pay_bob sample.from_alice] in Hok.
    rewrite ten_three_alice, ten_three_bob in Hok.
    destruct Hok as (db' & Hex & Hs & Ht & _);
      [done | unfold MaxUint64; lia |].
    exists db'. split; [exact Hex |]. split; [exact Hs | exact Ht].
  - apply (Execute_transfer (sample.pay_bob 2)
             (sample.from_alice sample.rich_bob));
      [apply bob_not_zero | apply bob_not_alice | discriminate |].
    cbn [To Units Sender Database sample.pay_bob sample.from_alice].
    rewrite rich_bob_alice. lia.
Defined.

(** Either nothing happened to the ledger, or both the debit and the credit
    of [t] did. *)
Definition all_or_nothing (t : TransferTx) (c : TransactionContext)
    (db' : Ledger) : Prop :=
  db' = Database c \/
  (GetBalance db' (Sender c) = GetBalance (Database c) (Sender c) - Units t /\
   GetBalance db' (To t) = GetBalance (Database c) (To t) + Units t).

(** What C3 says fails for Alice paying one unit to Bob when Bob already
    holds [MaxUint64]: [Execute] returns an error, Alice's unit is gone and
    Bob's balance is what it was. *)
Lemma Execute_debit_without_credit :
  let t := sample.pay_bob 1 in
  let c := sample.from_alice sample.rich_bob in
  exists db',
    Execute t c = (db', Some ErrBalanceOverflow) /\
    GetBalance db' (Sender c) = GetBalance (Database c) (Sender c) - Units t /\
    GetBalance db' (To t) = GetBalance (Database c) (To t) /\
    ~ all_or_nothing t c db'.
Proof.
  cbv zeta. eexists. split; [apply Execute_rich_bob |].
  unfold all_or_nothing.
  cbn [To Units Sender Database sample.pay_bob sample.from_alice].
  rewrite GetBalance_insert_eq, rich_bob_alice.
  rewrite GetBalance_insert_ne by (apply not_eq_sym, bob_not_alice).
  rewrite rich_bob_bob.
  split; [done |]. split; [done |].
  intros [Heq | [_ Hcredit]]; [| lia].
  apply (f_equal (fun db => GetBalance db sample.alice)) in Heq.
  rewrite GetBalance_insert_eq, rich_bob_alice in Heq. discriminate Heq.
Qed.

(** The one case in which [Execute] gets past the debit and not past the
    credit: the transfer is actionable, the sender can pay, and the
    recipient's balance with the units on top does not fit in 64 bits. *)
Definition credit_refused (t : TransferTx) (c : TransactionContext) : Prop :=
  To t <> zeroAddress /\ To t <> Sender c /\ Units t <> 0 /\
  Units t <= GetBalance (Database c) (Sender c) /\
  MaxUint64 < GetBalance (Database c) (To t) + Units t.

(** C3, amended: outside the case [credit_refused], every outcome of
    [Execute], success or error, leaves the ledger either untouched or with
    both the debit and the credit applied; this covers every transfer a
    guard stops and every transfer the sender cannot pay, whatever the
    recipient holds.  In the case [credit_refused], [Execute] returns the
    error of the credit and the ledger has the debit without the credit. *)
Theorem Execute_all_or_nothing t c :
  (~ credit_refused t c -> all_or_nothing t c (Execute t c).1) /\
  (credit_refused t c ->
   Execute t c
   = (<[Sender c := GetBalance (Database c) (Sender c) - Units t]>
        (Database c), Some ErrBalanceOverflow) /\
   ~ all_or_nothing t c (Execute t c).1).
Proof.
  unfold all_or_nothing, credit_refused. split.
  - intros Hnot.
    destruct (decide (To t = Sender c \/ To t = zeroAddress \/ Units t = 0))
      as [Hna | Hact].
    { left. by apply Execute_guarded_ledger. }
    assert (To t <> zeroAddress /\ To t <> Sender c /\ Units t <> 0)
      as (Hz & Hs & Hu) by naive_solver.
    destruct (Z.lt_ge_cases (GetBalance (Database c) (Sender c)) (Units t))
      as [Hlt | Hle].
    { left. by rewrite Execute_insufficient. }
    assert (GetBalance (Database c) (To t) + Units t <= MaxUint64) as Hmax.
    { destruct (Z.le_gt_cases (GetBalance (Database c) (To t) + Units t)
                  MaxUint64) as [| Hgt]; [done |].
      exfalso. apply Hnot. repeat split; done. }
    right. rewrite Execute_success by done. cbn [fst]. split.
    + rewrite GetBalance_insert_ne by done. apply GetBalance_insert_eq.
    + apply GetBalance_insert_eq.
  - intros (Hz & Hs & Hu & Hle & Hover).
    rewrite Execute_credit_overflow by done. split; [done |]. cbn [fst].
    intros [Heq | [_ Hcredit]].
    + apply (f_equal (fun db => GetBalance db (Sender c))) in Heq.
      rewrite GetBalance_insert_eq in Heq. lia.
    + rewrite GetBalance_insert_ne in Hcredit by done. lia.
Qed.

(** C3 on the sample ledgers: Alice, with one unit, cannot pay two to Bob,
    who holds [MaxUint64]; nothing happens to the ledger. *)
Lemma Execute_all_or_nothing_witness :
  all_or_nothing (sample.pay_bob 2) (sample.from_alice sample.rich_bob)
    (Execute (sample.pay_bob 2) (sample.from_alice sample.rich_bob)).1.
Proof.
  apply (proj1 (Execute_all_or_nothing (sample.pay_bob 2)
                  (sample.from_alice sample.rich_bob))).
  unfold credit_refused.
  cbn [To Units Sender Database sample.pay_bob sample.from_alice].
  rewrite rich_bob_alice. intros (_ & _ & _ & Hle & _). lia.
Defined.

(** ** [Genesis.Verify] and [Genesis.Load] *)

(** The entries of a slice of pointers that come before its first nil
    entry: those a [range] loop gets through when its body reads a field of
    the entry. *)
Fixpoint until_nil {A} (l : list (option A)) : list A :=
  match l with
  | Some x :: rest => x :: until_nil rest
  | _ => []
  end.

(** Whether the slice has a nil entry. *)
Fixpoint has_nil {A} (l : list (option A)) : bool :=
  match l with
  | [] => false
  | None :: _ => true
  | Some _ :: rest => has_nil rest
  end.

(** How such a loop ends when nothing else stops it: it panics at a nil
    entry and falls through without one. *)
Definition range_end {A} (l : list (option A)) : Outcome error :=
  if has_nil l then Panic else Val None.

Lemma has_nil_spec {A} (l : list (option A)) : has_nil l = true <-> None ∈ l.
Proof.
  induction l as [| [x |] l IH]; cbn.
  - split; [done |]. intros H. by apply elem_of_nil in H.
  - rewrite IH, elem_of_cons. split; [by right |].
    intros [Heq | Hin]; [discriminate Heq | done].
  - split; [| done]. intros _. apply elem_of_cons. by left.
Qed.

Lemma range_end_Val {A} (l : list (option A)) :
  range_end l = Val None <-> None ∉ l.
Proof.
  unfold range_end. rewrite <- has_nil_spec.
  destruct (has_nil l); naive_solver.
Qed.

Lemma range_end_Panic {A} (l : list (option A)) :
  range_end l = Panic <-> None ∈ l.
Proof.
  unfold range_end. rewrite <- has_nil_spec.
  destruct (has_nil l); naive_solver.
Qed.

Lemma until_nil_app {A} (l1 l2 : list (option A)) :
  None ∉ l1 -> until_nil (l1 ++ l2) = until_nil l1 ++ until_nil l2.
Proof.
  induction l1 as [| [x |] l1 IH]; intros Hnil; [done | |].
  - cbn. rewrite IH; [done |]. intros Hin. apply Hnil, elem_of_cons.
    by right.
  - exfalso. apply Hnil, elem_of_cons. by left.
Qed.

(** The balance the custom list gives an address: that of its last entry
    for the address, if it has one. *)
Fixpoint custom_entry (allocs : list CustomAllocation) (a : Address)
  : option Z :=
  match allocs with
  | [] => None
  | alloc :: rest =>
    match custom_entry rest a with
    | Some bal => Some bal
    | None =>
      if decide (Alloc_Address alloc = a) then Some (Balance alloc) else None
    end
  end.

Lemma custom_entry_None allocs a :
  custom_entry allocs a = None <-> a ∉ map Alloc_Address allocs.
Proof.
  induction allocs as [| x rest IH]; cbn.
  - split; [intros _; apply not_elem_of_nil | done].
  - rewrite not_elem_of_cons. destruct (custom_entry rest a) as [bal |].
    + split; [done |]. intros [_ Hr]. by apply IH in Hr.
    + destruct (decide (Alloc_Address x = a)) as [Heq | Hne].
      * split; [done |]. intros [Hne _]. congruence.
      * split; [| done]. intros _. split; [congruence | by apply IH].
Qed.

Lemma custom_entry_last l1 alloc l2 :
  Alloc_Address alloc ∉ map Alloc_Address l2 ->
  custom_entry (l1 ++ alloc :: l2) (Alloc_Address alloc)
  = Some (Balance alloc).
Proof.
  intros Hnot. apply custom_entry_None in Hnot.
  induction l1 as [| x l1 IH]; cbn.
  - rewrite Hnot. by rewrite decide_True.
  - by rewrite IH.
Qed.

(** The airdrop loop writes [units] to the addresses before the first nil
    entry, and to no other. *)
Lemma Load_standard_lookup (db : Ledger) units allocs :
  exists db',
    Load_standard db units allocs = (db', range_end allocs) /\
    forall a, db' !! a
              = if decide (a ∈ map Airdrop_Address (until_nil allocs))
                then Some units else db !! a.
Proof.
  revert db. induction allocs as [| [alloc |] rest IH]; intros db; cbn.
  - exists db. split; [done |]. intros a.
    destruct (decide (a ∈ [])) as [Hin | _]; [| done].
    by apply elem_of_nil in Hin.
  - destruct (IH (<[Airdrop_Address alloc := units]> db))
      as (db' & Hrun & Hlook).
    exists db'. split; [done |].
    intros a. rewrite Hlook.
    destruct (decide (a ∈ map Airdrop_Address (until_nil rest)))
      as [Hr | Hr].
    + rewrite decide_True; [done |]. apply elem_of_cons. by right.
    + destruct (decide (Airdrop_Address alloc = a)) as [<- | Hne].
      * rewrite lookup_insert_eq. rewrite decide_True; [done |].
        apply elem_of_cons. by left.
      * rewrite lookup_insert_ne by done. rewrite decide_False; [done |].
        apply not_elem_of_cons. split; [congruence | done].
  - exists db. split; [done |]. intros a.
    destruct (decide (a ∈ [])) as [Hin | _]; [| done].
    by apply elem_of_nil in Hin.
Qed.

(** The custom loop never returns an error; an address keeps what the loop
    found unless an entry before the first nil entry names it, and then it
    holds the balance of the last of these. *)
Lemma Load_custom_lookup (db : Ledger) allocs :
  exists db',
    Load_custom db allocs = (db', range_end allocs) /\
    forall a, db' !! a = match custom_entry (until_nil allocs) a with
                         | Some bal => Some bal
                         | None => db !! a
                         end.
Proof.
  revert db. induction allocs as [| [x |] rest IH]; intros db; cbn.
  - by exists db.
  - destruct (IH (<[Alloc_Address x := Balance x]> db))
      as (db' & Hrun & Hlook).
    exists db'. split; [done |].
    intros a. rewrite Hlook.
    destruct (custom_entry (until_nil rest) a) as [bal |]; [done |].
    destruct (decide (Alloc_Address x = a)) as [<- | Hne].
    + apply lookup_insert_eq.
    + by apply lookup_insert_ne.
  - by exists db.
Qed.

Section Load_properties.

Variable Keccak256Hex : list byte -> string.
Variable json_Unmarshal : list byte -> list (option Airdrop) * error.

Local Abbreviation Load := (Load Keccak256Hex json_Unmarshal).
Local Abbreviation Load_airdrop :=
  (Load_airdrop Keccak256Hex json_Unmarshal).

Lemma AirdropHash_declared g :
  AirdropHash g <> EmptyString ->
  (0 <? String.length (AirdropHash g))%nat = true.
Proof. intros Hne. destruct (AirdropHash g); [done | reflexivity]. Qed.

(** The three ways through the airdrop block. *)
Lemma Load_airdrop_cases g db airdropData :
  Load_airdrop g db airdropData =
    if decide (AirdropHash g = EmptyString) then (db, Val None)
    else if decide (Keccak256Hex airdropData = AirdropHash g) then
      match json_Unmarshal airdropData with
      | (_, Some e) => (db, Val (Some e))
      | (standardAllocation, None) =>
        Load_standard db (AirdropUnits g) standardAllocation
      end
    else (db, Val (Some (ErrAllocationMismatch (AirdropHash g)
                           (Keccak256Hex airdropData)))).
Proof.
  unfold chain.Load_airdrop.
  destruct (decide (AirdropHash g = EmptyString)) as [Hempty | Hdecl].
  { by rewrite Hempty. }
  rewrite AirdropHash_declared by done.
  destruct (String.eqb_spec (AirdropHash g) (Keccak256Hex airdropData))
    as [Heq | Hne]; cbn [negb].
  - by rewrite decide_True.
  - by rewrite decide_False.
Qed.

Lemma Load_airdrop_mismatch g db airdropData :
  AirdropHash g <> EmptyString ->
  Keccak256Hex airdropData <> AirdropHash g ->
  Load_airdrop g db airdropData =
    (db, Val (Some (ErrAllocationMismatch (AirdropHash g)
                      (Keccak256Hex airdropData)))).
Proof.
  intros Hdecl Hne. by rewrite Load_airdrop_cases, !decide_False.
Qed.

Lemma Load_airdrop_match g db airdropData standardAllocation :
  AirdropHash g <> EmptyString ->
  Keccak256Hex airdropData = AirdropHash g ->
  json_Unmarshal airdropData = (standardAllocation, None) ->
  Load_airdrop g db airdropData =
    Load_standard db (AirdropUnits g) standardAllocation.
Proof.
  intros Hdecl Heq Hjson.
  by rewrite Load_airdrop_cases, decide_False, decide_True, Hjson.
Qed.

(** C4, amended: with a declared airdrop digest, [Load] returns an error
    and hands back the ledger it was given when the digest of the payload
    differs from [AirdropHash], and also when the digests agree and the
    payload does not decode.  When the digests agree and the payload
    decodes, the airdrop loop writes [AirdropUnits] as the balance of the
    listed addresses, entry by entry up to the first nil entry, and touches
    no other address: the balance is set, whatever the address held before.
    At a nil entry [Load] panics; with none it goes on to the custom
    allocations on the ledger the loop left. *)
Theorem Load_airdrop_verified g db airdropData :
  AirdropHash g <> EmptyString ->
  (Keccak256Hex airdropData <> AirdropHash g ->
   Load g db airdropData =
     (db, Val (Some (ErrAllocationMismatch (AirdropHash g)
                       (Keccak256Hex airdropData))))) /\
  (Keccak256Hex airdropData = AirdropHash g ->
   (forall junk e,
       json_Unmarshal airdropData = (junk, Some e) ->
       Load g db airdropData = (db, Val (Some e))) /\
   (forall standardAllocation,
       json_Unmarshal airdropData = (standardAllocation, None) ->
       exists db1,
         Load_standard db (AirdropUnits g) standardAllocation
         = (db1, range_end standardAllocation) /\
         (forall a,
             a ∈ map Airdrop_Address (until_nil standardAllocation) ->
             db1 !! a = Some (AirdropUnits g)) /\
         (forall a,
             a ∉ map Airdrop_Address (until_nil standardAllocation) ->
             db1 !! a = db !! a) /\
         (None ∈ standardAllocation ->
          Load g db airdropData = (db1, Panic)) /\
         (None ∉ standardAllocation ->
          Load g db airdropData
          = Load_custom db1 (CustomAllocations g)))).
Proof.
  intros Hdecl. split.
  - intros Hne. unfold chain.Load. by rewrite Load_airdrop_mismatch.
  - intros Heq. split.
    + intros junk e Hjson. unfold chain.Load.
      by rewrite Load_airdrop_cases, decide_False, decide_True, Hjson.
    + intros standardAllocation Hjson.
      destruct (Load_standard_lookup db (AirdropUnits g) standardAllocation)
        as (db1 & Hstd & Hlook).
      exists db1. split; [done |].
      split; [| split; [| split]].
      * intros a Ha. by rewrite Hlook, decide_True.
      * intros a Ha. by rewrite Hlook, decide_False.
      * intros Hnil. unfold chain.Load.
        rewrite (Load_airdrop_match g db airdropData standardAllocation)
          by done.
        apply range_end_Panic in Hnil. by rewrite Hstd, Hnil.
      * intros Hnil. unfold chain.Load.
        rewrite (Load_airdrop_match g db airdropData standardAllocation)
          by done.
        apply range_end_Val in Hnil. by rewrite Hstd, Hnil.
Qed.

(** A [Load] that returns [nil] went through both loops, and neither list
    had a nil entry. *)
Lemma Load_returns_nil g db airdropData db' :
  Load g db airdropData = (db', Val None) ->
  exists db1,
    Load_airdrop g db airdropData = (db1, Val None) /\
    Load_custom db1 (CustomAllocations g) = (db', Val None) /\
    None ∉ CustomAllocations g.
Proof.
  unfold chain.Load. intros Hload.
  destruct (Load_airdrop g db airdropData) as [db1 out] eqn:Hair.
  destruct out as [[e |] | | |]; try discriminate Hload.
  exists db1. split; [done |]. split; [done |].
  destruct (Load_custom_lookup db1 (CustomAllocations g)) as (d & Hcus & _).
  rewrite Hcus in Hload. injection Hload as _ Hend.
  by apply range_end_Val.
Qed.

(** C5, amended: [Load] runs the custom loop on the ledger the airdrop
    block left; a [Load] that returns [nil] leaves every address of the
    custom list with the balance of its last custom entry, whatever the
    airdrop gave it, and every other address with what the airdrop block
    left. *)
Theorem Load_custom_overrides g db airdropData db' :
  Load g db airdropData = (db', Val None) ->
  exists db1,
    Load_airdrop g db airdropData = (db1, Val None) /\
    Load_custom db1 (CustomAllocations g) = (db', Val None) /\
    (forall l1 alloc l2,
        CustomAllocations g = l1 ++ Some alloc :: l2 ->
        Alloc_Address alloc ∉ map Alloc_Address (until_nil l2) ->
        GetBalance db' (Alloc_Address alloc) = Balance alloc) /\
    (forall a, a ∉ map Alloc_Address (until_nil (CustomAllocations g)) ->
               GetBalance db' a = GetBalance db1 a).
Proof.
  intros Hload.
  destruct (Load_returns_nil _ _ _ _ Hload) as (db1 & Hair & Hcus & Hnil).
  exists db1. split; [done |]. split; [done |].
  destruct (Load_custom_lookup db1 (CustomAllocations g))
    as (d & Hcus' & Hlook).
  rewrite Hcus in Hcus'. injection Hcus' as <- _.
  split.
  - intros l1 alloc l2 Heq Hnot. unfold GetBalance. rewrite Hlook, Heq.
    rewrite Heq in Hnil. rewrite until_nil_app.
    2:{ intros Hin. apply Hnil, elem_of_app. by left. }
    cbn [until_nil]. by rewrite custom_entry_last.
  - intros a Ha. apply custom_entry_None in Ha. unfold GetBalance.
    by rewrite Hlook, Ha.
Qed.

(** [Load] never reads [Magic]. *)
Lemma Load_ignores_Magic g db airdropData magic :
  Load (set_Magic g magic) db airdropData
  = Load g db airdropData.
Proof. reflexivity. Qed.

End Load_properties.

Lemma Verify_spec g :
  (Magic g = 0 -> Verify g = Some ErrInvalidMagic) /\
  (Magic g <> 0 -> Verify g = None).
Proof.
  unfold Verify. destruct (Z.eqb_spec (Magic g) 0); split; congruence.
Qed.

(** *** The sample genesis files *)

Lemma digest_payload :
  crypto.Keccak256Hex sample_genesis.payload
  = AirdropHash sample_genesis.genesis.
Proof. vm_compute. reflexivity. Qed.

Lemma decode_payload :
  json.Unmarshal sample_genesis.payload
  = ([Some (mkAirdrop sample.alice); Some (mkAirdrop sample.bob)], None).
Proof. vm_compute. reflexivity. Qed.

Lemma digest_payload_null :
  crypto.Keccak256Hex sample_genesis.payload_null
  = AirdropHash sample_genesis.genesis_null.
Proof. vm_compute. reflexivity. Qed.

Lemma decode_payload_null :
  json.Unmarshal sample_genesis.payload_null
  = ([Some (mkAirdrop sample.alice); None; Some (mkAirdrop sample.bob)],
     None).
Proof. vm_compute. reflexivity. Qed.

Lemma digest_payload_bad :
  crypto.Keccak256Hex sample_genesis.payload_bad
  = AirdropHash sample_genesis.genesis_bad.
Proof. vm_compute. reflexivity. Qed.

Lemma decode_payload_bad :
  json.Unmarshal sample_genesis.payload_bad = ([], Some ErrUnmarshal).
Proof. vm_compute. reflexivity. Qed.

(** Alice and Bob get the airdrop, then Bob his custom allocation. *)
Lemma Load_sample_genesis db :
  Load crypto.Keccak256Hex json.Unmarshal sample_genesis.genesis db
    sample_genesis.payload
  = (<[sample.bob := 7]> (<[sample.bob := 5]> (<[sample.alice := 5]> db)),
     Val None).
Proof.
  unfold Load. rewrite Load_airdrop_cases.
  rewrite decide_False by discriminate.
  rewrite decide_True by apply digest_payload.
  rewrite decode_payload. reflexivity.
Qed.

(** With a [null] after Alice's entry, Alice gets the airdrop and [Load]
    panics: Bob gets neither the airdrop nor his custom allocation. *)
Lemma Load_sample_genesis_null db :
  Load crypto.Keccak256Hex json.Unmarshal sample_genesis.genesis_null db
    sample_genesis.payload_null
  = (<[sample.alice := 5]> db, Panic).
Proof.
  unfold Load. rewrite Load_airdrop_cases.
  rewrite decide_False by discriminate.
  rewrite decide_True by apply digest_payload_null.
  rewrite decode_payload_null. reflexivity.
Qed.

Lemma Load_sample_no_magic db airdropData :
  Load crypto.Keccak256Hex json.Unmarshal sample_genesis.no_magic db
    airdropData
  = (<[sample.bob := 7]> db, Val None).
Proof. reflexivity. Qed.

Lemma Load_airdrop_verified_witness :
  Load crypto.Keccak256Hex json.Unmarshal sample_genesis.genesis_null ∅
    sample_genesis.payload_null
  = (<[sample.alice := 5]> ∅, Panic) /\
  exists db1,
    Load_standard ∅ 5
      [Some (mkAirdrop sample.alice); Some (mkAirdrop sample.bob)]
    = (db1, Val None) /\
    db1 !! sample.alice = Some 5.
Proof.
  split; [apply Load_sample_genesis_null |].
  destruct (Load_airdrop_verified crypto.Keccak256Hex json.Unmarshal
              sample_genesis.genesis ∅ sample_genesis.payload)
    as [_ Hok]; [discriminate |].
  destruct (Hok digest_payload) as [_ Hdecoded].
  destruct (Hdecoded _ decode_payload) as (db1 & Hstd & Hin & _).
  exists db1. split.
  - exact Hstd.
  - apply Hin. cbn. apply elem_of_cons. by left.
Defined.

(** What C4 says of the matching payload fails on the sample genesis when
    Alice already holds 100 units: the digests agree, Alice is listed, and
    [Load] leaves her with [AirdropUnits], which is 5, not with 5 more than
    she had.  The airdrop is written over the balance, not added to it. *)
Lemma Load_airdrop_is_not_a_credit :
  let db : Ledger := <[sample.alice := 100]> ∅ in
  crypto.Keccak256Hex sample_genesis.payload
  = AirdropHash sample_genesis.genesis /\
  Some (mkAirdrop sample.alice) ∈ (json.Unmarshal sample_genesis.payload).1 /\
  GetBalance db sample.alice = 100 /\
  exists db',
    Load crypto.Keccak256Hex json.Unmarshal sample_genesis.genesis db
      sample_genesis.payload = (db', Val None) /\
    GetBalance db' sample.alice = 5 /\
    GetBalance db' sample.alice
    <> GetBalance db sample.alice + AirdropUnits sample_genesis.genesis.
Proof.
  cbv zeta. split; [apply digest_payload |].
  split; [rewrite decode_payload; apply elem_of_cons; by left |].
  split; [apply GetBalance_insert_eq |].
  eexists. split; [apply Load_sample_genesis |].
  rewrite !GetBalance_insert_ne by apply bob_not_alice.
  rewrite !GetBalance_insert_eq. split; [done |]. cbn. lia.
Qed.

(** What C5 says fails on the sample genesis: Bob is in the airdrop (5 units)
    and in the custom list (7 units), and ends with 7 units, not with 12. *)
Lemma Load_custom_not_on_top :
  crypto.Keccak256Hex sample_genesis.payload
  = AirdropHash sample_genesis.genesis /\
  Some (mkAirdrop sample.bob) ∈ (json.Unmarshal sample_genesis.payload).1 /\
  Some (mkCustomAllocation sample.bob 7)
    ∈ CustomAllocations sample_genesis.genesis /\
  exists db',
    Load crypto.Keccak256Hex json.Unmarshal sample_genesis.genesis ∅
      sample_genesis.payload = (db', Val None) /\
    GetBalance db' sample.bob = 7 /\
    GetBalance db' sample.bob <> AirdropUnits sample_genesis.genesis + 7.
Proof.
  split; [apply digest_payload |].
  split; [rewrite decode_payload; cbn; set_solver |].
  split; [cbn; set_solver |].
  eexists. split; [apply Load_sample_genesis |].
  rewrite GetBalance_insert_eq. split; [done |]. cbn. lia.
Qed.

Lemma Load_custom_overrides_witness :
  GetBalance
    (<[sample.bob := 7]> (<[sample.bob := 5]> (<[sample.alice := 5]> ∅)))
    sample.bob = 7.
Proof.
  destruct (Load_custom_overrides crypto.Keccak256Hex json.Unmarshal
              sample_genesis.genesis ∅ sample_genesis.payload _
              (Load_sample_genesis ∅)) as (db1 & _ & _ & Hlast & _).
  apply (Hlast [] (mkCustomAllocation sample.bob 7) []); [reflexivity |].
  apply not_elem_of_nil.
Defined.

(** What C6 says fails on the sample genesis without a magic value: [Verify]
    rejects it, yet [Load] succeeds and writes Bob's allocation. *)
Lemma Load_without_magic :
  Magic sample_genesis.no_magic = 0 /\
  Verify sample_genesis.no_magic = Some ErrInvalidMagic /\
  Load crypto.Keccak256Hex json.Unmarshal sample_genesis.no_magic ∅
    sample_genesis.payload
  = (<[sample.bob := 7]> ∅, Val None) /\
  GetBalance (<[sample.bob := 7]> ∅) sample.bob = 7.
Proof.
  split; [reflexivity |]. split; [reflexivity |].
  split; [apply Load_sample_no_magic | apply GetBalance_insert_eq].
Qed.

(** C6, amended: [Verify] fails with [ErrInvalidMagic] exactly when [Magic]
    is zero and succeeds otherwise; [Load] does not look at [Magic], its
    result is the same for every magic value, so the check comes before the
    allocations only where the caller runs [Verify] first. *)
Theorem Verify_checks_Magic_Load_does_not Keccak256Hex json_Unmarshal g :
  (Verify g = Some ErrInvalidMagic <-> Magic g = 0) /\
  (Verify g = None <-> Magic g <> 0) /\
  (forall db airdropData magic,
      Load Keccak256Hex json_Unmarshal (set_Magic g magic)
        db airdropData
      = Load Keccak256Hex json_Unmarshal g db airdropData).
Proof.
  destruct (Verify_spec g) as [Hz Hnz].
  split; [| split].
  - split; [| done]. intros Hv.
    destruct (decide (Magic g = 0)) as [| Hne]; [done |].
    rewrite Hnz in Hv by done. discriminate Hv.
  - split; [| done]. intros Hv Heq. rewrite Hz in Hv by done.
    discriminate Hv.
  - intros. apply Load_ignores_Magic.
Qed.

(** ** The [claim] command *)

Import claim.

(** *** [getClaimOp] *)

Lemma list_byte_of_string_app (s1 s2 : string) :
  list_byte_of_string (s1 ++ s2)
  = list_byte_of_string s1 ++ list_byte_of_string s2.
Proof.
  unfold list_byte_of_string.
  induction s1 as [| a s1 IH]; [done |].
  cbn [list_ascii_of_string map app]. rewrite <- IH. reflexivity.
Qed.

Lemma bytes_HasSuffix_slash (pfx : list byte) :
  bytes_HasSuffix pfx [slash] = true <-> last pfx = Some slash.
Proof.
  unfold bytes_HasSuffix.
  destruct pfx as [| x pfx'] using rev_ind; [by cbn |].
  rewrite last_snoc, length_app. cbn [length].
  replace (length pfx' + 1 - 1)%nat with (length pfx') by lia.
  rewrite drop_app_length.
  rewrite andb_true_iff, bytes_Equal_true, Nat.leb_le.
  split; [intros [_ Heq]; congruence | intros Heq].
  split; [lia | congruence].
Qed.

Lemma trim_slash_snoc (pfx : list byte) : trim_slash (pfx ++ [slash]) = pfx.
Proof.
  unfold trim_slash.
  destruct (bytes_HasSuffix (pfx ++ [slash]) [slash]) eqn:Hs.
  - rewrite length_app. cbn [length].
    replace (length pfx + 1 - 1)%nat with (length pfx) by lia.
    by rewrite take_app_length.
  - assert (bytes_HasSuffix (pfx ++ [slash]) [slash] = true) as Ht
      by (apply bytes_HasSuffix_slash, last_snoc).
    congruence.
Qed.

Lemma trim_slash_id (pfx : list byte) :
  last pfx <> Some slash -> trim_slash pfx = pfx.
Proof.
  intros Hlast. unfold trim_slash.
  destruct (bytes_HasSuffix pfx [slash]) eqn:Hs; [| done].
  by apply bytes_HasSuffix_slash in Hs.
Qed.

Lemma getClaimOp_slash lib (arg : string) :
  last (list_byte_of_string arg) <> Some slash ->
  getClaimOp lib [(arg ++ "/")%string] = getClaimOp lib [arg].
Proof.
  intros Hlast. unfold getClaimOp.
  rewrite list_byte_of_string_app.
  change (list_byte_of_string "/") with [slash].
  by rewrite trim_slash_snoc, trim_slash_id.
Qed.

(** C10: when [ParseKey] refuses the argument with its one trailing slash
    removed, [claimFunc] ends in [os.Exit(128)] (or, when the key file cannot
    be read, in that error) in the state it started in: no transaction object
    was built and no request was sent.  The trimming removes exactly one
    trailing slash: an argument that ends in a single slash is treated as the
    same argument without it, and of two trailing slashes one is kept. *)
Theorem claimFunc_rejects_bad_prefix w lib fuel privateKeyFile requestTimeout
    prefixInfo (arg : string) s e :
  ParseKey lib (trim_slash (list_byte_of_string arg)) = Some e ->
  (claimFunc w lib fuel privateKeyFile requestTimeout prefixInfo [arg] s
   = match LoadPK lib privateKeyFile with
     | Ok _ => (Exit 128, s)
     | Failed e' => (Val (Some e'), s)
     end) /\
  (forall pfx, trim_slash (pfx ++ [slash]) = pfx) /\
  (forall pfx, trim_slash (pfx ++ [slash; slash]) = pfx ++ [slash]) /\
  (forall arg' : string,
      last (list_byte_of_string arg') <> Some slash ->
      claimFunc w lib fuel privateKeyFile requestTimeout prefixInfo
        [(arg' ++ "/")%string]
      = claimFunc w lib fuel privateKeyFile requestTimeout prefixInfo
          [arg']).
Proof.
  intros Hparse. split; [| split; [| split]].
  - unfold claimFunc. destruct (LoadPK lib privateKeyFile); [| done].
    unfold bind, getClaimOp. by rewrite Hparse.
  - apply trim_slash_snoc.
  - intros pfx.
    change (pfx ++ [slash; slash]) with (pfx ++ [slash] ++ [slash]).
    rewrite app_assoc. apply trim_slash_snoc.
  - intros arg' Hlast. unfold claimFunc.
    destruct (LoadPK lib privateKeyFile); [| done].
    by rewrite getClaimOp_slash.
Qed.

Lemma claimFunc_rejects_bad_prefix_witness :
  claimFunc sample_client.steady sample_client.lib 10 "" 30 true ["/"%string]
    sample_client.pending
  = (Exit 128, sample_client.pending).
Proof.
  apply (claimFunc_rejects_bad_prefix sample_client.steady sample_client.lib
           10 "" 30 true "/"%string sample_client.pending ErrParseKey).
  reflexivity.
Defined.

(** *** Transactions on the heap *)

(** A transaction with the block id and the graffiti the mining loop gave
    it. *)
Definition mined (t : TxSnapshot) (cb : ID) (graffiti : Z) : TxSnapshot :=
  match t with
  | SnapClaim b => SnapClaim (with_Graffiti (with_BlockID b cb) graffiti)
  | SnapTransfer b to units =>
    SnapTransfer (with_Graffiti (with_BlockID b cb) graffiti) to units
  end.

Lemma mined_mined t cb g cb' g' : mined (mined t cb g) cb' g' = mined t cb' g'.
Proof. by destruct t. Qed.

Lemma mined_id t :
  mined t (BlockID (snap_base t)) (Graffiti (snap_base t)) = t.
Proof. by destruct t as [[] | [] ? ?]. Qed.

Lemma snap_base_mined t cb g :
  BlockID (snap_base (mined t cb g)) = cb /\
  Graffiti (snap_base (mined t cb g)) = g.
Proof. by destruct t. Qed.

(** [h'] is [h] but for the block id and the graffiti of the [BaseTx] that
    [utx] leads to. *)
Definition remined (utx : loc) (h h' : Heap) : Prop :=
  h' = h \/
  (utxs h' = utxs h /\
   exists o b cb g,
     utxs h !! utx = Some o /\
     baseTxs h !! base_of o = Some b /\
     baseTxs h' = <[base_of o := with_Graffiti (with_BlockID b cb) g]>
                    (baseTxs h)).

Lemma snapshot_Some h utx t :
  snapshot h utx = Some t ->
  exists o b, utxs h !! utx = Some o /\ baseTxs h !! base_of o = Some b /\
              snap_base t = b.
Proof.
  unfold snapshot. intros Hs.
  destruct (utxs h !! utx) as [o |] eqn:Ho; [| done]. cbn in Hs.
  destruct (baseTxs h !! base_of o) as [b |] eqn:Hb; [| done]. cbn in Hs.
  exists o, b. injection Hs as <-. by destruct o.
Qed.

Lemma SetBlockID_Some h utx cb h1 :
  SetBlockID h utx cb = Some h1 ->
  exists t, snapshot h utx = Some t /\
            snapshot h1 utx = Some (mined t cb (Graffiti (snap_base t))) /\
            remined utx h h1.
Proof.
  unfold SetBlockID, snapshot, remined. intros Hs.
  destruct (utxs h !! utx) as [o |] eqn:Ho; [| done]. cbn in Hs |- *.
  destruct (baseTxs h !! base_of o) as [b |] eqn:Hb; [| done]. cbn in Hs |- *.
  injection Hs as <-. cbn. rewrite Ho. cbn. rewrite lookup_insert_eq. cbn.
  eexists. split; [done |]. split.
  - by destruct o, b.
  - right. split; [done |]. exists o, b, cb, (Graffiti b).
    split; [done |]. split; [done |]. by destruct b.
Qed.

Lemma SetGraffiti_Some h utx g h1 :
  SetGraffiti h utx g = Some h1 ->
  exists t, snapshot h utx = Some t /\
            snapshot h1 utx = Some (mined t (BlockID (snap_base t)) g) /\
            remined utx h h1.
Proof.
  unfold SetGraffiti, snapshot, remined. intros Hs.
  destruct (utxs h !! utx) as [o |] eqn:Ho; [| done]. cbn in Hs |- *.
  destruct (baseTxs h !! base_of o) as [b |] eqn:Hb; [| done]. cbn in Hs |- *.
  injection Hs as <-. cbn. rewrite Ho. cbn. rewrite lookup_insert_eq. cbn.
  eexists. split; [done |]. split.
  - by destruct o, b.
  - right. split; [done |]. exists o, b, (BlockID b), g.
    split; [done |]. split; [done |]. by destruct b.
Qed.

Lemma SetBlockID_is_Some h utx cb t :
  snapshot h utx = Some t -> is_Some (SetBlockID h utx cb).
Proof.
  intros (o & b & Ho & Hb & _)%snapshot_Some.
  unfold SetBlockID. rewrite Ho. cbn. rewrite Hb. by cbn.
Qed.

Lemma SetGraffiti_is_Some h utx g t :
  snapshot h utx = Some t -> is_Some (SetGraffiti h utx g).
Proof.
  intros (o & b & Ho & Hb & _)%snapshot_Some.
  unfold SetGraffiti. rewrite Ho. cbn. rewrite Hb. by cbn.
Qed.

Lemma remined_refl utx h : remined utx h h.
Proof. by left. Qed.

Lemma remined_trans utx h1 h2 h3 :
  remined utx h1 h2 -> remined utx h2 h3 -> remined utx h1 h3.
Proof.
  intros [-> | [Hu1 (o & b & cb & g & Ho & Hb & Hb1)]]; [done |].
  intros [-> | [Hu2 (o' & b' & cb' & g' & Ho' & Hb' & Hb2)]].
  { right. split; [done |]. by exists o, b, cb, g. }
  right. split; [congruence |].
  rewrite Hu1, Ho in Ho'. injection Ho' as <-.
  rewrite Hb1, lookup_insert_eq in Hb'. injection Hb' as <-.
  exists o, b, cb', g'. split; [done |]. split; [done |].
  rewrite Hb2, Hb1, insert_insert_eq. by destruct b.
Qed.

(** What re-mining leaves alone: every transaction object, and every
    [BaseTx] but the one of [utx]. *)
Lemma remined_frame utx h h' :
  remined utx h h' ->
  utxs h' = utxs h /\
  forall o l, utxs h !! utx = Some o -> l <> base_of o ->
              baseTxs h' !! l = baseTxs h !! l.
Proof.
  intros [-> | [Hu (o & b & cb & g & Ho & Hb & Hb')]]; [done |].
  split; [done |]. intros o' l Ho' Hl.
  rewrite Ho in Ho'. injection Ho' as <-.
  rewrite Hb'. by apply lookup_insert_ne.
Qed.

Lemma remined_snapshot utx h h' t :
  remined utx h h' -> snapshot h utx = Some t ->
  exists cb g, snapshot h' utx = Some (mined t cb g).
Proof.
  intros [-> | [Hu (o & b & cb & g & Ho & Hb & Hb')]] Hs.
  { exists (BlockID (snap_base t)), (Graffiti (snap_base t)).
    by rewrite mined_id. }
  exists cb, g. unfold snapshot in *. rewrite Hu, Ho in *. cbn in *.
  rewrite Hb in Hs. rewrite Hb', lookup_insert_eq. cbn in *.
  injection Hs as <-. by destruct o.
Qed.

(** *** Runs of [mine] *)

Lemma bind_Val {A B} (m : M A) (k : A -> M B) s b s' :
  bind m k s = (Val b, s') ->
  exists a s1, m s = (Val a, s1) /\ k a s1 = (Val b, s').
Proof.
  unfold bind. destruct (m s) as [[a | code | |] s1]; try discriminate.
  intros Hk. by exists a, s1.
Qed.

Lemma update_heap_Val f s u s' :
  update_heap f s = (Val u, s') ->
  exists h, f (heap s) = Some h /\ s' = mkClient h (events s).
Proof.
  unfold update_heap. destruct (f (heap s)) as [h |]; [| discriminate].
  intros [= <- <-]. by exists h.
Qed.

Lemma now_log s e : now (log s e) = S (now s).
Proof. unfold now, log. cbn. rewrite length_app. cbn. lia. Qed.

Lemma now_snoc h s e : now (mkClient h (events s ++ [e])) = S (now s).
Proof. unfold now. cbn. rewrite length_app. cbn. lia. Qed.

Lemma now_snoc_2 h s e1 e2 :
  now (mkClient h (events s ++ [e1; e2])) = S (S (now s)).
Proof. unfold now. cbn. rewrite length_app. cbn. lia. Qed.
Section Mining.

Variable w : World.
Variable lib : Lib.
Variable ctx : Context.
Variable utx : loc.

(** The deadline of [ctx] has not passed after [n] events. *)
Definition alive (n : nat) : Prop := (deadline ctx <=? w_clock w n) = false.

Definition expired (n : nat) : Prop := (deadline ctx <=? w_clock w n) = true.

Lemma ctx_Err_alive s : alive (now s) -> ctx_Err w ctx s = (Val None, s).
Proof. unfold ctx_Err, alive. by intros ->. Qed.

Lemma ctx_Err_expired s :
  expired (now s) -> ctx_Err w ctx s = (Val (Some DeadlineExceeded), s).
Proof. unfold ctx_Err, expired. by intros ->. Qed.

Lemma alive_or_expired n : {alive n} + {expired n}.
Proof.
  unfold alive, expired. destruct (deadline ctx <=? w_clock w n); auto.
Qed.

(** The runs of the inner loop that come to an end, one rule for each way
    through its body. *)
Inductive inner_run (cbID : ID)
  : Z -> Client -> option (option loc * error) -> Client -> Prop :=
| IR_expired graffiti s :
    expired (now s) ->
    inner_run cbID graffiti s None s
| IR_valid_failed graffiti s e :
    alive (now s) ->
    w_validBlockID w (now s) cbID = Failed e ->
    inner_run cbID graffiti s (Some (None, Some e))
      (log s (EvSend (ReqValidBlockID cbID)))
| IR_invalid graffiti s :
    alive (now s) ->
    w_validBlockID w (now s) cbID = Ok false ->
    inner_run cbID graffiti s None (log s (EvSend (ReqValidBlockID cbID)))
| IR_bytes_failed graffiti s h1 t b e :
    alive (now s) ->
    w_validBlockID w (now s) cbID = Ok true ->
    SetGraffiti (heap s) utx graffiti = Some h1 ->
    snapshot h1 utx = Some t ->
    UnsignedBytes lib t = (b, Some e) ->
    inner_run cbID graffiti s (Some (None, Some e))
      (mkClient h1 (events s ++ [EvSend (ReqValidBlockID cbID)]))
| IR_estimate_failed graffiti s h1 t b e :
    alive (now s) ->
    w_validBlockID w (now s) cbID = Ok true ->
    SetGraffiti (heap s) utx graffiti = Some h1 ->
    snapshot h1 utx = Some t ->
    UnsignedBytes lib t = (b, None) ->
    w_difficultyEstimate w (S (now s)) = Failed e ->
    inner_run cbID graffiti s (Some (None, Some e))
      (mkClient h1 (events s ++ [EvSend (ReqValidBlockID cbID);
                                 EvSend ReqDifficultyEstimate]))
| IR_hit graffiti s h1 t b est :
    alive (now s) ->
    w_validBlockID w (now s) cbID = Ok true ->
    SetGraffiti (heap s) utx graffiti = Some h1 ->
    snapshot h1 utx = Some t ->
    UnsignedBytes lib t = (b, None) ->
    w_difficultyEstimate w (S (now s)) = Ok est ->
    est <= Difficulty lib b ->
    inner_run cbID graffiti s (Some (Some utx, None))
      (mkClient h1 (events s ++ [EvSend (ReqValidBlockID cbID);
                                 EvSend ReqDifficultyEstimate]))
| IR_miss graffiti s h1 t b est out s' :
    alive (now s) ->
    w_validBlockID w (now s) cbID = Ok true ->
    SetGraffiti (heap s) utx graffiti = Some h1 ->
    snapshot h1 utx = Some t ->
    UnsignedBytes lib t = (b, None) ->
    w_difficultyEstimate w (S (now s)) = Ok est ->
    Difficulty lib b < est ->
    inner_run cbID ((graffiti + 1) mod 2 ^ 64)
      (mkClient h1 (events s ++ [EvSend (ReqValidBlockID cbID);
                                 EvSend ReqDifficultyEstimate]))
      out s' ->
    inner_run cbID graffiti s out s'.

(** The runs of [mine] that come to an end. *)
Inductive mine_run : Client -> option loc * error -> Client -> Prop :=
| MR_expired s :
    expired (now s) ->
    mine_run s (None, Some DeadlineExceeded) s
| MR_currBlock_failed s e :
    alive (now s) ->
    w_currBlock w (now s) = Failed e ->
    mine_run s (None, Some e) (log s (EvSend ReqCurrBlock))
| MR_return s cbID h1 r s' :
    alive (now s) ->
    w_currBlock w (now s) = Ok cbID ->
    SetBlockID (heap s) utx cbID = Some h1 ->
    inner_run cbID 0 (mkClient h1 (events s ++ [EvSend ReqCurrBlock]))
      (Some r) s' ->
    mine_run s r s'
| MR_refetch s cbID h1 s1 r s' :
    alive (now s) ->
    w_currBlock w (now s) = Ok cbID ->
    SetBlockID (heap s) utx cbID = Some h1 ->
    inner_run cbID 0 (mkClient h1 (events s ++ [EvSend ReqCurrBlock]))
      None s1 ->
    mine_run s1 r s' ->
    mine_run s r s'.

(** Every result of the inner loop is the result of one of its runs. *)
Lemma mine_inner_run fuel cbID graffiti s out s' :
  mine_inner w lib fuel ctx utx cbID graffiti s = (Val out, s') ->
  inner_run cbID graffiti s out s'.
Proof.
  revert graffiti s. induction fuel as [| fuel IH]; intros graffiti s Hrun;
    [discriminate Hrun |].
  cbn [mine_inner] in Hrun.
  destruct (alive_or_expired (now s)) as [Hctx | Hctx].
  2:{ unfold bind in Hrun. rewrite ctx_Err_expired in Hrun by done.
      injection Hrun as <- <-. by constructor. }
  unfold bind at 1 in Hrun. rewrite ctx_Err_alive in Hrun by done.
  unfold bind at 1, validBlockID in Hrun.
  destruct (w_validBlockID w (now s) cbID) as [[|] | e] eqn:Hvalid;
    cbn [negb] in Hrun.
  3:{ injection Hrun as <- <-. by constructor. }
  2:{ injection Hrun as <- <-. by constructor. }
  apply bind_Val in Hrun as ([] & s1 & Hset & Hrun).
  apply update_heap_Val in Hset as (h1 & Hset & ->). cbn [log heap] in Hset.
  apply bind_Val in Hrun as ([b err] & s2 & Hbytes & Hrun).
  unfold unsignedBytes in Hbytes.
  apply bind_Val in Hbytes as (t & s3 & Hsnap & Hbytes).
  unfold read_heap in Hsnap. cbn [heap] in Hsnap.
  destruct (snapshot h1 utx) as [t' |] eqn:Hsnap'; [| discriminate Hsnap].
  injection Hsnap as -> <-. injection Hbytes as Hbytes <-.
  destruct err as [e |].
  { injection Hrun as <- <-. cbn [log events]. by econstructor. }
  unfold bind at 1, difficultyEstimate in Hrun.
  rewrite now_snoc in Hrun.
  unfold log in Hrun. cbn [heap events] in Hrun.
  rewrite <- app_assoc in Hrun. cbn [app] in Hrun.
  destruct (w_difficultyEstimate w (S (now s))) as [est | e] eqn:Hest.
  2:{ injection Hrun as <- <-. by econstructor. }
  destruct (Z.leb_spec est (Difficulty lib b)) as [Hle | Hlt].
  { injection Hrun as <- <-. by econstructor. }
  apply IH in Hrun. by econstructor.
Qed.

(** Every result of [mine] is the result of one of its runs. *)
Lemma mine_mine_run fuel s r s' :
  mine w lib fuel ctx utx s = (Val r, s') -> mine_run s r s'.
Proof.
  revert s. induction fuel as [| fuel IH]; intros s Hrun;
    [discriminate Hrun |].
  cbn [mine] in Hrun.
  destruct (alive_or_expired (now s)) as [Hctx | Hctx].
  2:{ unfold bind in Hrun. rewrite !ctx_Err_expired in Hrun by done.
      injection Hrun as <- <-. by constructor. }
  unfold bind at 1 in Hrun. rewrite ctx_Err_alive in Hrun by done.
  unfold bind at 1, currBlock in Hrun.
  destruct (w_currBlock w (now s)) as [cbID | e] eqn:Hcurr.
  2:{ injection Hrun as <- <-. by constructor. }
  apply bind_Val in Hrun as ([] & s1 & Hset & Hrun).
  apply update_heap_Val in Hset as (h1 & Hset & ->). cbn [log heap] in Hset.
  apply bind_Val in Hrun as (out & s2 & Hinner & Hrun).
  apply mine_inner_run in Hinner. cbn [log events] in Hinner.
  destruct out as [res |].
  - injection Hrun as <- <-. by econstructor.
  - apply IH in Hrun. by econstructor.
Qed.

(** **** What a run leaves behind *)

Lemma inner_run_frame cbID graffiti s out s' :
  inner_run cbID graffiti s out s' ->
  remined utx (heap s) (heap s') /\
  exists evs, events s' = events s ++ evs.
Proof.
  induction 1 as
    [ g s Hx | g s e Ha Hv | g s Ha Hv
    | g s h1 t b e Ha Hv Hset Hsnap Hb
    | g s h1 t b e Ha Hv Hset Hsnap Hb He
    | g s h1 t b est Ha Hv Hset Hsnap Hb He Hd
    | g s h1 t b est out s' Ha Hv Hset Hsnap Hb He Hd Hrun IH ];
    try (apply SetGraffiti_Some in Hset as (t1 & _ & _ & Hre));
    cbn [log heap events].
  - split; [apply remined_refl |]. exists []. by rewrite app_nil_r.
  - split; [apply remined_refl | by eexists].
  - split; [apply remined_refl | by eexists].
  - split; [done | by eexists].
  - split; [done | by eexists].
  - split; [done | by eexists].
  - destruct IH as [Hre' [evs Hevs]]. cbn [heap events] in Hre', Hevs.
    split; [by eapply remined_trans |].
    eexists. rewrite Hevs, <- app_assoc. done.
Qed.

Lemma mine_run_frame s r s' :
  mine_run s r s' ->
  remined utx (heap s) (heap s') /\
  exists evs, events s' = events s ++ evs.
Proof.
  induction 1 as
    [ s Hx | s e Ha Hc
    | s cbID h1 r s' Ha Hc Hset Hin
    | s cbID h1 s1 r s' Ha Hc Hset Hin Hrun IH ];
    try (apply SetBlockID_Some in Hset as (t1 & _ & _ & Hre));
    try (apply inner_run_frame in Hin as [Hre1 [evs1 Hevs1]];
         cbn [heap events] in Hre1, Hevs1);
    cbn [log heap events].
  - split; [apply remined_refl |]. exists []. by rewrite app_nil_r.
  - split; [apply remined_refl | by eexists].
  - split; [by eapply remined_trans |].
    eexists. rewrite Hevs1, <- app_assoc. done.
  - destruct IH as [Hre' [evs Hevs]].
    split; [eapply remined_trans; [| done]; by eapply remined_trans |].
    eexists. rewrite Hevs, Hevs1, <- !app_assoc. done.
Qed.

Lemma run_now_le s s' :
  (exists evs, events s' = events s ++ evs) -> (now s <= now s')%nat.
Proof. intros [evs Heq]. unfold now. rewrite Heq, length_app. lia. Qed.

(** **** The transaction [mine] returns *)

(** One turn of the inner loop for the block [cbID], started after [n]
    events with the graffiti [graffiti] on the transaction [t0]: the deadline
    had not passed, the block id was reported valid and the difficulty of
    the unsigned bytes was compared with the estimate fetched right then;
    [hit] tells whether it met it. *)
Definition attempt (cbID : ID) (t0 : TxSnapshot) (n : nat) (graffiti : Z)
    (hit : bool) : Prop :=
  alive n /\
  w_validBlockID w n cbID = Ok true /\
  exists b est,
    UnsignedBytes lib (mined t0 cbID graffiti) = (b, None) /\
    w_difficultyEstimate w (S n) = Ok est /\
    if hit then est <= Difficulty lib b else Difficulty lib b < est.

(** The graffiti of the [i]-th turn of an inner loop. *)
Definition graffiti_of (i : nat) : Z := Z.of_nat i mod 2 ^ 64.

Lemma graffiti_of_S i : (graffiti_of i + 1) mod 2 ^ 64 = graffiti_of (S i).
Proof.
  unfold graffiti_of. rewrite Nat2Z.inj_succ, Zplus_mod_idemp_l. done.
Qed.

Lemma attempt_mined cbID t0 cb' g' n g hit :
  attempt cbID (mined t0 cb' g') n g hit <-> attempt cbID t0 n g hit.
Proof. unfold attempt. by rewrite mined_mined. Qed.

Lemma inner_run_hit cbID t0 n1 graffiti s out s' :
  inner_run cbID graffiti s out s' ->
  forall i l err,
    out = Some (Some l, err) ->
    (exists g', snapshot (heap s) utx = Some (mined t0 cbID g')) ->
    now s = (n1 + 2 * i)%nat ->
    graffiti = graffiti_of i ->
    (forall j, (j < i)%nat ->
               attempt cbID t0 (n1 + 2 * j) (graffiti_of j) false) ->
    l = utx /\ err = None /\
    exists k,
      (forall j, (j < k)%nat ->
                 attempt cbID t0 (n1 + 2 * j) (graffiti_of j) false) /\
      attempt cbID t0 (n1 + 2 * k) (graffiti_of k) true /\
      now s' = (n1 + 2 * k + 2)%nat /\
      snapshot (heap s') utx = Some (mined t0 cbID (graffiti_of k)).
Proof.
  induction 1 as
    [ g s Hx | g s e Ha Hv | g s Ha Hv
    | g s h1 t b e Ha Hv Hset Hsnap Hb
    | g s h1 t b e Ha Hv Hset Hsnap Hb He
    | g s h1 t b est Ha Hv Hset Hsnap Hb He Hd
    | g s h1 t b est out s' Ha Hv Hset Hsnap Hb He Hd Hrun IH ];
    intros i l err Hout [g' Hs0] Hnow Hg Hacc; try discriminate Hout.
  - (* hit *)
    injection Hout as <- <-. split; [done |]. split; [done |].
    apply SetGraffiti_Some in Hset as (t1 & Ht1 & Hh1 & _).
    rewrite Hs0 in Ht1. injection Ht1 as <-.
    destruct (snap_base_mined t0 cbID g') as [Hbid _].
    rewrite Hbid, mined_mined, Hsnap in Hh1. injection Hh1 as ->.
    exists i. split; [done |]. rewrite <- Hg, <- Hnow. split.
    + split; [done |]. split; [done |]. by exists b, est.
    + split; [| done]. unfold now. cbn. rewrite length_app. cbn.
      unfold now in Hnow. lia.
  - (* miss *)
    apply SetGraffiti_Some in Hset as (t1 & Ht1 & Hh1 & _).
    rewrite Hs0 in Ht1. injection Ht1 as <-.
    destruct (snap_base_mined t0 cbID g') as [Hbid _].
    rewrite Hbid, mined_mined, Hsnap in Hh1. injection Hh1 as ->.
    apply (IH (S i) l err Hout).
    + exists g. done.
    + unfold now in *. cbn. rewrite length_app. cbn. lia.
    + rewrite Hg. apply graffiti_of_S.
    + intros j Hj. destruct (decide (j = i)) as [-> | Hne].
      * rewrite <- Hg, <- Hnow. split; [done |]. split; [done |].
        by exists b, est.
      * apply Hacc. lia.
Qed.

Lemma mine_run_hit s r s' :
  mine_run s r s' ->
  forall t0 l err,
    r = (Some l, err) ->
    snapshot (heap s) utx = Some t0 ->
    l = utx /\ err = None /\
    exists n0 cbID k,
      (now s <= n0)%nat /\ alive n0 /\ w_currBlock w n0 = Ok cbID /\
      (forall j, (j < k)%nat ->
                 attempt cbID t0 (S n0 + 2 * j) (graffiti_of j) false) /\
      attempt cbID t0 (S n0 + 2 * k) (graffiti_of k) true /\
      now s' = (S n0 + 2 * k + 2)%nat /\
      snapshot (heap s') utx = Some (mined t0 cbID (graffiti_of k)).
Proof.
  induction 1 as
    [ s Hx | s e Ha Hc
    | s cbID h1 r s' Ha Hc Hset Hin
    | s cbID h1 s1 r s' Ha Hc Hset Hin Hrun IH ];
    intros t0 l err Hr Hs0; try discriminate Hr.
  - subst r.
    apply SetBlockID_Some in Hset as (t1 & Ht1 & Hh1 & _).
    rewrite Hs0 in Ht1. injection Ht1 as <-.
    destruct (inner_run_hit cbID t0 (S (now s)) _ _ _ _ Hin 0%nat l err)
      as (-> & -> & k & Hmiss & Hhit & Hnow & Hsnap); try done.
    + by eexists.
    + unfold now. cbn. rewrite length_app. cbn. lia.
    + intros j Hj. lia.
    + split; [done |]. split; [done |]. exists (now s), cbID, k. done.
  - apply SetBlockID_Some in Hset as (t1 & Ht1 & Hh1 & Hre1).
    rewrite Hs0 in Ht1. injection Ht1 as <-.
    apply inner_run_frame in Hin as [Hre2 Hevs]. cbn [heap] in Hre2.
    apply run_now_le in Hevs. unfold now in Hevs at 1. cbn in Hevs.
    rewrite length_app in Hevs. cbn in Hevs. fold (now s) in Hevs.
    destruct (remined_snapshot _ _ _ _ Hre2 Hh1) as (cb' & g' & Hs1).
    rewrite mined_mined in Hs1.
    destruct (IH _ l err Hr Hs1)
      as (-> & -> & n0 & cb & k & Hle & Hal & Hcb & Hmiss & Hhit & Hnow
          & Hsnap).
    split; [done |]. split; [done |]. exists n0, cb, k.
    split; [lia |]. split; [done |]. split; [done |].
    split; [| split; [| split]].
    + intros j Hj. by eapply attempt_mined, Hmiss.
    + by eapply attempt_mined.
    + done.
    + by rewrite mined_mined in Hsnap.
Qed.

(** **** What the node answered *)

(** The answers of the node that end a turn of [mine]. *)
Inductive Answer : Type :=
| AnsFailed (e : Err)     (* the request failed *)
| AnsInvalid              (* the block id is no longer valid *)
| AnsOther.

(** The answer of the node to the event [ev], sent after [n] events. *)
Definition answer (n : nat) (ev : Event) : Answer :=
  match ev with
  | EvSend ReqCurrBlock =>
    match w_currBlock w n with Failed e => AnsFailed e | Ok _ => AnsOther end
  | EvSend (ReqValidBlockID blkID) =>
    match w_validBlockID w n blkID with
    | Failed e => AnsFailed e
    | Ok false => AnsInvalid
    | Ok true => AnsOther
    end
  | EvSend ReqDifficultyEstimate =>
    match w_difficultyEstimate w n with
    | Failed e => AnsFailed e
    | Ok _ => AnsOther
    end
  | _ => AnsOther
  end.

Lemma lookup_new_events (old new : list Event) n ev :
  (old ++ new) !! n = Some ev -> (length old <= n)%nat ->
  new !! (n - length old)%nat = Some ev.
Proof. intros Hl Hn. by rewrite lookup_app_r in Hl. Qed.

Lemma inner_run_answers cbID graffiti s out s' :
  inner_run cbID graffiti s out s' ->
  forall n ev,
    (now s <= n)%nat -> events s' !! n = Some ev ->
    match answer n ev with
    | AnsFailed e => S n = now s' /\ out = Some (None, Some e)
    | AnsInvalid => S n = now s' /\ out = None
    | AnsOther => True
    end.
Proof.
  induction 1 as
    [ g s Hx | g s e Ha Hv | g s Ha Hv
    | g s h1 t b e Ha Hv Hset Hsnap Hb
    | g s h1 t b e Ha Hv Hset Hsnap Hb He
    | g s h1 t b est Ha Hv Hset Hsnap Hb He Hd
    | g s h1 t b est out s' Ha Hv Hset Hsnap Hb He Hd Hrun IH ];
    intros n ev Hn Hev.
  1:{ apply lookup_lt_Some in Hev. unfold now in Hn. lia. }
  6:{ destruct (inner_run_frame _ _ _ _ _ Hrun) as [_ [evs Hevs]].
      cbn [events] in Hevs.
      destruct (decide (n < now s + 2)%nat) as [Hlt | Hge].
      - rewrite Hevs, <- app_assoc in Hev.
        apply lookup_new_events in Hev; [| done]. fold (now s) in Hev.
        destruct (n - now s)%nat as [| [| k]] eqn:Hk; [| | lia];
          cbn in Hev; injection Hev as <-; cbn [answer].
        + replace n with (now s) by lia. by rewrite Hv.
        + replace n with (S (now s)) by lia. by rewrite He.
      - apply IH; [| done]. unfold now in *. cbn. rewrite length_app. cbn.
        lia. }
  all: cbn [log events] in Hev; apply lookup_new_events in Hev; [| done];
    fold (now s) in Hev;
    destruct (n - now s)%nat as [| [| k]] eqn:Hk; cbn in Hev;
    try discriminate Hev; injection Hev as <-; cbn [answer].
  all: try (replace n with (now s) by lia; rewrite Hv).
  all: try (replace n with (S (now s)) by lia; rewrite He).
  all: try done.
  all: split; [| done]; unfold now, log; cbn; rewrite length_app; cbn; lia.
Qed.

(** A run of [mine] starts by giving up or by asking for the block. *)
Lemma mine_run_first s r s' :
  mine_run s r s' ->
  (expired (now s) /\ s' = s /\ r = (None, Some DeadlineExceeded)) \/
  events s' !! now s = Some (EvSend ReqCurrBlock).
Proof.
  assert (forall (evs evs' : list Event) e,
             ((evs ++ [e]) ++ evs') !! length evs = Some e) as Hfirst.
  { intros evs evs' e. rewrite <- app_assoc.
    rewrite lookup_app_r by done. by rewrite Nat.sub_diag. }
  destruct 1 as
    [ s Hx | s e Ha Hc
    | s cbID h1 r s' Ha Hc Hset Hin
    | s cbID h1 s1 r s' Ha Hc Hset Hin Hrun ].
  - by left.
  - right. cbn. rewrite <- (app_nil_r (_ ++ _)). apply Hfirst.
  - right. apply inner_run_frame in Hin as [_ [evs ->]]. apply Hfirst.
  - right. apply inner_run_frame in Hin as [_ [evs Hevs1]].
    apply mine_run_frame in Hrun as [_ [evs' ->]]. rewrite Hevs1. cbn.
    rewrite <- app_assoc. apply Hfirst.
Qed.

Lemma mine_run_answers s r s' :
  mine_run s r s' ->
  forall n ev,
    (now s <= n)%nat -> events s' !! n = Some ev ->
    match answer n ev with
    | AnsFailed e => S n = now s' /\ r = (None, Some e)
    | AnsInvalid =>
      events s' !! S n = Some (EvSend ReqCurrBlock) \/
      (S n = now s' /\ expired (S n) /\ r = (None, Some DeadlineExceeded))
    | AnsOther => True
    end.
Proof.
  induction 1 as
    [ s Hx | s e Ha Hc
    | s cbID h1 r s' Ha Hc Hset Hin
    | s cbID h1 s1 r s' Ha Hc Hset Hin Hrun IH ];
    intros n ev Hn Hev.
  - apply lookup_lt_Some in Hev. unfold now in Hn. lia.
  - cbn [log events] in Hev. apply lookup_new_events in Hev; [| done].
    fold (now s) in Hev.
    destruct (n - now s)%nat as [| k] eqn:Hk; cbn in Hev;
      [| discriminate Hev].
    injection Hev as <-. cbn [answer]. replace n with (now s) by lia.
    rewrite Hc. split; [| done]. by rewrite now_log.
  - destruct (decide (n = now s)) as [-> | Hne].
    + destruct (inner_run_frame _ _ _ _ _ Hin) as [_ [evs Hevs]].
      cbn [events] in Hevs. rewrite Hevs, <- app_assoc in Hev.
      apply lookup_new_events in Hev; [| done]. fold (now s) in Hev.
      rewrite Nat.sub_diag in Hev. injection Hev as <-. cbn [answer].
      by rewrite Hc.
    + pose proof (inner_run_answers _ _ _ _ _ Hin n ev) as Hans.
      rewrite now_snoc in Hans. specialize (Hans ltac:(lia) Hev).
      destruct (answer n ev) as [e | |]; [| | done].
      * destruct Hans as [? [= <-]]. done.
      * by destruct Hans as [_ ?].
  - destruct (mine_run_frame _ _ _ Hrun) as [_ [evs' Hevs']].
    destruct (decide (n < now s1)%nat) as [Hlt | Hge].
    2:{ apply IH; [lia | done]. }
    assert (events s1 !! n = Some ev) as Hev1.
    { rewrite Hevs' in Hev. by rewrite lookup_app_l in Hev. }
    destruct (decide (n = now s)) as [-> | Hne].
    + destruct (inner_run_frame _ _ _ _ _ Hin) as [_ [evs Hevs]].
      cbn [events] in Hevs. rewrite Hevs, <- app_assoc in Hev1.
      apply lookup_new_events in Hev1; [| done]. fold (now s) in Hev1.
      rewrite Nat.sub_diag in Hev1. injection Hev1 as <-. cbn [answer].
      by rewrite Hc.
    + pose proof (inner_run_answers _ _ _ _ _ Hin n ev) as Hans.
      rewrite now_snoc in Hans. specialize (Hans ltac:(lia) Hev1).
      destruct (answer n ev) as [e | |]; [| | done].
      * by destruct Hans as [_ ?].
      * destruct Hans as [Hn1 _]. rewrite Hn1.
        destruct (mine_run_first _ _ _ Hrun) as [(Hx & -> & ->) | Hcurr];
          [right | by left].
        done.
Qed.

(** **** How a run without a transaction ends *)

(** The requests that a turn of a loop of [mine] starts with, right after
    the loop has examined the deadline. *)
Definition turn_head (ev : Event) : bool :=
  match ev with
  | EvSend ReqCurrBlock | EvSend (ReqValidBlockID _) => true
  | _ => false
  end.

(** The run from [s] to [s'] ended with a request that the node failed
    with [e]. *)
Definition failed_request (s s' : Client) (e : Err) : Prop :=
  exists n ev,
    (now s <= n)%nat /\ S n = now s' /\ events s' !! n = Some ev /\
    answer n ev = AnsFailed e.

(** The run ended when [chain.UnsignedBytes] failed with [e] on the
    transaction. *)
Definition failed_bytes (s' : Client) (e : Err) : Prop :=
  exists t b,
    snapshot (heap s') utx = Some t /\ UnsignedBytes lib t = (b, Some e).

Lemma last_event (evs : list Event) ev :
  (evs ++ [ev]) !! length evs = Some ev.
Proof. rewrite lookup_app_r by done. by rewrite Nat.sub_diag. Qed.

Lemma inner_run_error cbID graffiti s out s' :
  inner_run cbID graffiti s out s' ->
  forall err,
    out = Some (None, err) ->
    exists e, err = Some e /\ (failed_request s s' e \/ failed_bytes s' e).
Proof.
  induction 1 as
    [ g s Hx | g s e Ha Hv | g s Ha Hv
    | g s h1 t b e Ha Hv Hset Hsnap Hb
    | g s h1 t b e Ha Hv Hset Hsnap Hb He
    | g s h1 t b est Ha Hv Hset Hsnap Hb He Hd
    | g s h1 t b est out s' Ha Hv Hset Hsnap Hb He Hd Hrun IH ];
    intros err Hout; try discriminate Hout.
  - injection Hout as <-. exists e. split; [done |]. left.
    exists (now s), (EvSend (ReqValidBlockID cbID)).
    split; [done |]. split; [by rewrite now_log |].
    split; [apply last_event |]. cbn [answer]. by rewrite Hv.
  - injection Hout as <-. exists e. split; [done |]. right.
    by exists t, b.
  - injection Hout as <-. exists e. split; [done |]. left.
    exists (S (now s)), (EvSend ReqDifficultyEstimate).
    split; [lia |]. split.
    { unfold now. cbn. rewrite length_app. cbn. lia. }
    split.
    { cbn [events].
      change [EvSend (ReqValidBlockID cbID); EvSend ReqDifficultyEstimate]
        with ([EvSend (ReqValidBlockID cbID)]
              ++ [EvSend ReqDifficultyEstimate]).
      rewrite app_assoc.
      replace (S (now s))
        with (length (events s ++ [EvSend (ReqValidBlockID cbID)]));
        [apply last_event |].
      rewrite length_app. cbn. unfold now. lia. }
    cbn [answer]. by rewrite He.
  - destruct (IH err Hout) as (e & -> & [Hreq | Hbytes]).
    + exists e. split; [done |]. left.
      destruct Hreq as (n & ev & Hn & Hlast & Hev & Hans).
      exists n, ev. split; [| done].
      rewrite now_snoc_2 in Hn. lia.
    + exists e. split; [done |]. by right.
Qed.

Lemma mine_run_error s r s' :
  mine_run s r s' ->
  forall err,
    r = (None, err) ->
    (err = Some DeadlineExceeded /\ expired (now s')) \/
    exists e, err = Some e /\ (failed_request s s' e \/ failed_bytes s' e).
Proof.
  induction 1 as
    [ s Hx | s e Ha Hc
    | s cbID h1 r s' Ha Hc Hset Hin
    | s cbID h1 s1 r s' Ha Hc Hset Hin Hrun IH ];
    intros err Hr.
  - injection Hr as <-. by left.
  - injection Hr as <-. right. exists e. split; [done |]. left.
    exists (now s), (EvSend ReqCurrBlock).
    split; [done |]. split; [by rewrite now_log |].
    split; [apply last_event |]. cbn [answer]. by rewrite Hc.
  - subst r. right.
    destruct (inner_run_error _ _ _ _ _ Hin err eq_refl)
      as (e & -> & [Hreq | Hbytes]).
    + exists e. split; [done |]. left.
      destruct Hreq as (n & ev & Hn & Hlast & Hev & Hans).
      exists n, ev. split; [| done]. rewrite now_snoc in Hn. lia.
    + exists e. split; [done |]. by right.
  - destruct (IH err Hr) as [Hcancel | (e & -> & [Hreq | Hbytes])];
      [by left | |].
    + right. exists e. split; [done |]. left.
      destruct Hreq as (n & ev & Hn & Hlast & Hev & Hans).
      exists n, ev. split; [| done].
      apply inner_run_frame in Hin as [_ Hevs]. apply run_now_le in Hevs.
      rewrite now_snoc in Hevs. lia.
    + right. exists e. split; [done |]. by right.
Qed.

(** **** No turn starts after the deadline *)

Lemma inner_run_heads cbID graffiti s out s' :
  inner_run cbID graffiti s out s' ->
  forall n ev,
    (now s <= n)%nat -> events s' !! n = Some ev -> turn_head ev = true ->
    alive n.
Proof.
  induction 1 as
    [ g s Hx | g s e Ha Hv | g s Ha Hv
    | g s h1 t b e Ha Hv Hset Hsnap Hb
    | g s h1 t b e Ha Hv Hset Hsnap Hb He
    | g s h1 t b est Ha Hv Hset Hsnap Hb He Hd
    | g s h1 t b est out s' Ha Hv Hset Hsnap Hb He Hd Hrun IH ];
    intros n ev Hn Hev Hhead.
  1:{ apply lookup_lt_Some in Hev. unfold now in Hn. lia. }
  6:{ destruct (inner_run_frame _ _ _ _ _ Hrun) as [_ [evs Hevs]].
      cbn [events] in Hevs.
      destruct (decide (n < now s + 2)%nat) as [Hlt | Hge].
      - rewrite Hevs, <- app_assoc in Hev.
        apply lookup_new_events in Hev; [| done]. fold (now s) in Hev.
        destruct (n - now s)%nat as [| [| k]] eqn:Hk; [| | lia];
          cbn in Hev; injection Hev as <-; [| discriminate Hhead].
        by replace n with (now s) by lia.
      - apply (IH n ev); [| done | done]. rewrite now_snoc_2. lia. }
  all: cbn [log events] in Hev; apply lookup_new_events in Hev; [| done];
    fold (now s) in Hev;
    destruct (n - now s)%nat as [| [| k]] eqn:Hk; cbn in Hev;
    try discriminate Hev; injection Hev as <-; try discriminate Hhead.
  all: by replace n with (now s) by lia.
Qed.

Lemma mine_run_heads s r s' :
  mine_run s r s' ->
  forall n ev,
    (now s <= n)%nat -> events s' !! n = Some ev -> turn_head ev = true ->
    alive n.
Proof.
  induction 1 as
    [ s Hx | s e Ha Hc
    | s cbID h1 r s' Ha Hc Hset Hin
    | s cbID h1 s1 r s' Ha Hc Hset Hin Hrun IH ];
    intros n ev Hn Hev Hhead.
  - apply lookup_lt_Some in Hev. unfold now in Hn. lia.
  - cbn [log events] in Hev. apply lookup_new_events in Hev; [| done].
    fold (now s) in Hev.
    destruct (n - now s)%nat as [| k] eqn:Hk; cbn in Hev;
      [| discriminate Hev].
    by replace n with (now s) by lia.
  - destruct (decide (n = now s)) as [-> | Hne]; [done |].
    apply (inner_run_heads _ _ _ _ _ Hin n ev); [| done | done].
    rewrite now_snoc. lia.
  - destruct (decide (n = now s)) as [-> | Hne]; [done |].
    destruct (mine_run_frame _ _ _ Hrun) as [_ [evs' Hevs']].
    destruct (decide (n < now s1)%nat) as [Hlt | Hge].
    2:{ apply (IH n ev); [lia | done | done]. }
    assert (events s1 !! n = Some ev) as Hev1.
    { rewrite Hevs' in Hev. by rewrite lookup_app_l in Hev. }
    apply (inner_run_heads _ _ _ _ _ Hin n ev); [| done | done].
    rewrite now_snoc. lia.
Qed.

(** **** The deadline *)

Lemma mine_inner_expired fuel cbID graffiti s :
  expired (now s) ->
  mine_inner w lib (S fuel) ctx utx cbID graffiti s = (Val None, s).
Proof.
  intros Hx. cbn [mine_inner]. unfold bind.
  by rewrite ctx_Err_expired.
Qed.

Lemma mine_expired fuel s :
  expired (now s) ->
  mine w lib (S fuel) ctx utx s = (Val (None, Some DeadlineExceeded), s).
Proof.
  intros Hx. cbn [mine]. unfold bind.
  by rewrite !ctx_Err_expired.
Qed.

(** Once the deadline has passed for good, the loops come to an end. *)
Section Termination.

Variable N : nat.
Hypothesis expired_from_N : forall n, (N <= n)%nat -> expired n.

Lemma alive_before_N n : alive n -> (n < N)%nat.
Proof.
  intros Ha. destruct (decide (n < N)%nat) as [| Hge]; [done |].
  assert (expired n) as Hx by (apply expired_from_N; lia).
  unfold alive, expired in *. congruence.
Qed.

Lemma mine_inner_terminates fuel cbID graffiti s t :
  snapshot (heap s) utx = Some t ->
  (N - now s < fuel)%nat ->
  exists out s', mine_inner w lib fuel ctx utx cbID graffiti s = (Val out, s').
Proof.
  revert graffiti s t.
  induction fuel as [| fuel IH]; intros graffiti s t Hsnap Hfuel; [lia |].
  destruct (alive_or_expired (now s)) as [Ha | Hx].
  2:{ rewrite mine_inner_expired by done. by eexists _, _. }
  pose proof (alive_before_N _ Ha) as HltN.
  cbn [mine_inner]. unfold bind at 1. rewrite ctx_Err_alive by done.
  unfold bind at 1, validBlockID.
  destruct (w_validBlockID w (now s) cbID) as [[|] | e]; cbn [negb];
    [| by eexists _, _ | by eexists _, _].
  destruct (SetGraffiti_is_Some (heap s) utx graffiti t Hsnap) as [h1 Hset].
  destruct (SetGraffiti_Some _ _ _ _ Hset) as (t1 & _ & Hsnap1 & _).
  unfold bind at 1, update_heap. cbn [log heap events]. rewrite Hset.
  unfold bind at 1, unsignedBytes, bind at 1, read_heap. cbn [heap].
  rewrite Hsnap1. cbn [ret].
  destruct (UnsignedBytes lib _) as [b [e |]]; [by eexists _, _ |].
  unfold bind at 1, difficultyEstimate. rewrite now_snoc.
  unfold log. cbn [heap events]. rewrite <- app_assoc. cbn [app].
  destruct (w_difficultyEstimate w (S (now s))) as [est | e];
    [| by eexists _, _].
  destruct (est <=? Difficulty lib b); [by eexists _, _ |].
  eapply IH; [done |].
  unfold now in *. cbn. rewrite length_app. cbn. lia.
Qed.

Lemma mine_terminates fuel s t :
  snapshot (heap s) utx = Some t ->
  (N - now s < fuel)%nat ->
  exists r s', mine w lib fuel ctx utx s = (Val r, s').
Proof.
  revert s t. induction fuel as [| fuel IH]; intros s t Hsnap Hfuel; [lia |].
  destruct (alive_or_expired (now s)) as [Ha | Hx].
  2:{ rewrite mine_expired by done. by eexists _, _. }
  pose proof (alive_before_N _ Ha) as HltN.
  cbn [mine]. unfold bind at 1. rewrite ctx_Err_alive by done.
  unfold bind at 1, currBlock.
  destruct (w_currBlock w (now s)) as [cbID | e]; [| by eexists _, _].
  destruct (SetBlockID_is_Some (heap s) utx cbID t Hsnap) as [h1 Hset].
  destruct (SetBlockID_Some _ _ _ _ Hset) as (t1 & _ & Hsnap1 & _).
  unfold bind at 1, update_heap. cbn [log heap events]. rewrite Hset.
  destruct (mine_inner_terminates fuel cbID 0
              (mkClient h1 (events s ++ [EvSend ReqCurrBlock])) _ Hsnap1)
    as (out & s1 & Hinner).
  { rewrite now_snoc. lia. }
  unfold bind. rewrite Hinner.
  destruct out as [res |]; [by eexists _, _ |].
  apply mine_inner_run, inner_run_frame in Hinner as [Hre Hevs].
  cbn [heap] in Hre.
  destruct (remined_snapshot _ _ _ _ Hre Hsnap1) as (cb' & g' & Hsnap2).
  apply run_now_le in Hevs. rewrite now_snoc in Hevs.
  eapply IH; [done | lia].
Qed.

End Termination.

End Mining.

(** C7: take a run of [mine] on a transaction [utx] that is on the heap.
    - If it returns a transaction, that is [utx] itself, with no error: some
      [currBlock] request was answered with a block id [cbID] while the
      deadline had not passed, and then, for the graffiti values 0, 1, 2, ...
      in this order, every turn found the deadline not passed and [cbID]
      reported valid; the last turn is the first whose unsigned bytes have
      a difficulty that meets the estimate fetched in that turn, and the
      returned transaction carries [cbID] and that graffiti.
    - Whenever [validBlockID] answers that the block id is no longer valid,
      the very next thing the run does is to send [currBlock] again, unless
      the deadline has passed by then and the run ends with the cancellation
      error.
    - With the deadline passed when it starts a turn, [mine] returns no
      transaction and the error of the context; and when the deadline
      passes for good, [mine] returns, given fuel for the turns until
      then.
    - A run that returns no transaction returns an error, never [nil]:
      either the deadline has passed where the run ends and the error is
      that of the context, or the error is that of the last request of the
      run, which the node failed, or that of [chain.UnsignedBytes].
    - No turn of either loop starts after the deadline: whenever the run
      sends [currBlock] or [validBlockID], the deadline has not passed.
      So once the deadline has passed where a turn would start, wherever
      in the search that is, the run ends there with the cancellation
      error and no transaction. *)
Theorem mine_first_hit_or_cancel w lib ctx utx fuel s t0 :
  snapshot (heap s) utx = Some t0 ->
  (forall l err s',
      mine w lib fuel ctx utx s = (Val (Some l, err), s') ->
      l = utx /\ err = None /\
      exists n0 cbID k,
        (now s <= n0)%nat /\ alive w ctx n0 /\ w_currBlock w n0 = Ok cbID /\
        (forall j, (j < k)%nat ->
           attempt w lib ctx cbID t0 (S n0 + 2 * j) (graffiti_of j) false) /\
        attempt w lib ctx cbID t0 (S n0 + 2 * k) (graffiti_of k) true /\
        now s' = (S n0 + 2 * k + 2)%nat /\
        snapshot (heap s') utx = Some (mined t0 cbID (graffiti_of k))) /\
  (forall r s' n blkID,
      mine w lib fuel ctx utx s = (Val r, s') ->
      (now s <= n)%nat ->
      events s' !! n = Some (EvSend (ReqValidBlockID blkID)) ->
      w_validBlockID w n blkID = Ok false ->
      events s' !! S n = Some (EvSend ReqCurrBlock) \/
      (S n = now s' /\ expired w ctx (S n) /\
       r = (None, Some DeadlineExceeded))) /\
  (expired w ctx (now s) ->
   mine w lib (S fuel) ctx utx s = (Val (None, Some DeadlineExceeded), s)) /\
  (forall N,
      (forall n, (N <= n)%nat -> expired w ctx n) ->
      (N - now s < fuel)%nat ->
      exists r s', mine w lib fuel ctx utx s = (Val r, s')) /\
  (forall err s',
      mine w lib fuel ctx utx s = (Val (None, err), s') ->
      (err = Some DeadlineExceeded /\ expired w ctx (now s')) \/
      exists e,
        err = Some e /\
        (failed_request w s s' e \/ failed_bytes lib utx s' e)) /\
  (forall r s' n ev,
      mine w lib fuel ctx utx s = (Val r, s') ->
      (now s <= n)%nat ->
      events s' !! n = Some ev ->
      turn_head ev = true ->
      alive w ctx n).
Proof.
  intros Hsnap. split; [| split; [| split; [| split; [| split]]]].
  - intros l err s' Hrun. apply mine_mine_run in Hrun.
    by eapply mine_run_hit.
  - intros r s' n blkID Hrun Hn Hev Hinvalid. apply mine_mine_run in Hrun.
    pose proof (mine_run_answers _ _ _ _ _ _ _ Hrun n _ Hn Hev) as Hans.
    cbn [answer] in Hans. by rewrite Hinvalid in Hans.
  - apply mine_expired.
  - intros N HN Hfuel. by eapply mine_terminates.
  - intros err s' Hrun. apply mine_mine_run in Hrun.
    by eapply mine_run_error.
  - intros r s' n ev Hrun Hn Hev Hhead. apply mine_mine_run in Hrun.
    by eapply mine_run_heads.
Qed.

(** C7 on the sample run: the steady node, five turns of fuel. *)
Lemma mine_first_hit_or_cancel_witness :
  let run :=
    mine sample_client.steady sample_client.lib 5 sample_client.soon 0%nat
      sample_client.pending in
  exists n0 cbID k,
    now run.2 = (S n0 + 2 * k + 2)%nat /\
    snapshot (heap run.2) 0%nat
    = Some (mined (SnapClaim sample_client.pending_base) cbID
              (graffiti_of k)).
Proof.
  cbv zeta.
  destruct (mine_first_hit_or_cancel sample_client.steady sample_client.lib
              sample_client.soon 0%nat 5 sample_client.pending
              (SnapClaim sample_client.pending_base) eq_refl) as [Hhit _].
  destruct (Hhit 0%nat None
              (mine sample_client.steady sample_client.lib 5
                 sample_client.soon 0%nat sample_client.pending).2)
    as (_ & _ & n0 & cbID & k & _ & _ & _ & _ & _ & Hnow & Hsnap).
  { vm_compute. reflexivity. }
  exists n0, cbID, k. split; [exact Hnow | exact Hsnap].
Defined.

(** The deadline passes during the search: the node asks for a difficulty
    of 1000, which no graffiti of the run meets, and the deadline is where
    the fourth turn of the inner loop would start.  The run has fetched the
    block and gone through three turns; it ends there with the cancellation
    error and no transaction. *)
Lemma mine_cancelled_during_the_search :
  let run :=
    mine sample_client.hard sample_client.lib 10 (mkContext 7) 0%nat
      sample_client.pending in
  run.1 = Val (None, Some DeadlineExceeded) /\
  events run.2
  = [EvSend ReqCurrBlock;
     EvSend (ReqValidBlockID sample_client.block1);
     EvSend ReqDifficultyEstimate;
     EvSend (ReqValidBlockID sample_client.block1);
     EvSend ReqDifficultyEstimate;
     EvSend (ReqValidBlockID sample_client.block1);
     EvSend ReqDifficultyEstimate] /\
  alive sample_client.hard (mkContext 7) 5 /\
  expired sample_client.hard (mkContext 7) (now run.2).
Proof. cbv zeta. repeat split; vm_compute; reflexivity. Qed.

(** *** Failing requests *)

(** A turn of the polling loop in which the one-second timer fires before
    the deadline and [checkTx] does not say "confirmed": the loop goes on. *)
Lemma poll_not_confirmed w ctx fuel txID s :
  w_clock w (now s) + Second < deadline ctx ->
  (exists e, w_checkTx w (S (now s)) txID = Failed e) \/
  w_checkTx w (S (now s)) txID = Ok false ->
  poll w (S fuel) ctx txID s
  = poll w fuel ctx txID
      (mkClient (heap s) (events s ++ [EvSelect; EvSend (ReqCheckTx txID)])).
Proof.
  intros Htimer Hcheck.
  assert (alive w ctx (now s)) as Ha.
  { unfold alive. apply Z.leb_gt. unfold Second in Htimer. lia. }
  cbn [poll]. unfold bind at 1.
  rewrite ctx_Err_alive by done. unfold bind at 1, select_timer.
  apply Z.ltb_lt in Htimer. rewrite Htimer.
  cbn [negb]. unfold bind, checkTx. rewrite now_log.
  unfold log. cbn [heap events]. rewrite <- app_assoc. cbn [app].
  by destruct Hcheck as [[e ->] | ->].
Qed.

(** A turn in which the deadline comes before the one-second timer: the
    loop is left without a request. *)
Lemma poll_deadline_first w ctx fuel txID s :
  alive w ctx (now s) ->
  deadline ctx < w_clock w (now s) + Second ->
  poll w (S fuel) ctx txID s = (Val tt, log s EvSelect).
Proof.
  intros Ha Hdone. cbn [poll]. unfold bind at 1.
  rewrite ctx_Err_alive by done. unfold bind at 1, select_timer.
  assert ((w_clock w (now s) + Second <? deadline ctx) = false) as ->
    by (apply Z.ltb_ge; lia).
  apply Z.ltb_lt in Hdone. by rewrite Hdone.
Qed.

(** The state in which [claimFunc] calls [mine], and the transaction it
    hands over: the new [ClaimTx] and its [BaseTx] are on the heap. *)
Definition claim_start (priv : PrivateKey) (pfx : list byte) (s : Client)
  : Client * loc :=
  let '(h1, b0) :=
    alloc_BaseTx (heap s)
      (mkBaseTx (PublicKey_Bytes priv) pfx zeroID 0 0 0) in
  let '(h2, utx) := alloc_utx h1 (ClaimTxObj (mkClaimTx b0)) in
  (mkClient h2 (events s), utx).

Lemma claimFunc_returns_mine_error w lib fuel privateKeyFile requestTimeout
    prefixInfo (arg : string) s priv r e s' :
  LoadPK lib privateKeyFile = Ok priv ->
  ParseKey lib (trim_slash (list_byte_of_string arg)) = None ->
  let pfx := trim_slash (list_byte_of_string arg) in
  mine w lib fuel (mkContext (w_clock w (now s) + requestTimeout))
    (claim_start priv pfx s).2 (claim_start priv pfx s).1
  = (Val (r, Some e), s') ->
  claimFunc w lib fuel privateKeyFile requestTimeout prefixInfo [arg] s
  = (Val (Some e), s').
Proof.
  intros Hkey Hparse pfx Hmine. unfold claimFunc. rewrite Hkey.
  unfold bind at 1, getClaimOp. rewrite Hparse. fold pfx.
  unfold ret at 1, bind at 1, alloc at 1, bind at 1, alloc at 1.
  unfold claim_start in Hmine. cbn [alloc_BaseTx alloc_utx] in Hmine |- *.
  cbn [heap events fst snd] in Hmine |- *.
  unfold bind at 1, WithTimeout. unfold now at 1. cbn [events].
  fold (now s). unfold bind at 1. rewrite Hmine. reflexivity.
Qed.

(** C8, amended: in the confirmation polling of [claimFunc] a failed
    [checkTx] ends nothing.  In every turn the loop waits on a timer of one
    second, the same in every turn: when the time of the turn plus one
    second is before the deadline, [checkTx] is sent, and after a failure
    the loop goes on exactly as after the answer "not confirmed", into a
    next turn of the same kind; when the deadline comes first, the loop is
    left without a request.  In [mine] a failed [currBlock], [validBlockID]
    or [difficultyEstimate] is the last request of the run, and its error
    is what [mine] returns; and an error of [mine] is what [claimFunc]
    returns. *)
Theorem request_failures w lib ctx :
  (forall fuel txID s,
      w_clock w (now s) + Second < deadline ctx ->
      (exists e, w_checkTx w (S (now s)) txID = Failed e) \/
      w_checkTx w (S (now s)) txID = Ok false ->
      poll w (S fuel) ctx txID s
      = poll w fuel ctx txID
          (mkClient (heap s)
             (events s ++ [EvSelect; EvSend (ReqCheckTx txID)]))) /\
  (forall fuel txID s,
      alive w ctx (now s) ->
      deadline ctx < w_clock w (now s) + Second ->
      poll w (S fuel) ctx txID s = (Val tt, log s EvSelect)) /\
  (forall utx fuel s r s' n ev e,
      mine w lib fuel ctx utx s = (Val r, s') ->
      (now s <= n)%nat ->
      events s' !! n = Some ev ->
      answer w n ev = AnsFailed e ->
      S n = now s' /\ r = (None, Some e)) /\
  (forall fuel privateKeyFile requestTimeout prefixInfo (arg : string) s
          priv r e s',
      LoadPK lib privateKeyFile = Ok priv ->
      ParseKey lib (trim_slash (list_byte_of_string arg)) = None ->
      let pfx := trim_slash (list_byte_of_string arg) in
      mine w lib fuel (mkContext (w_clock w (now s) + requestTimeout))
        (claim_start priv pfx s).2 (claim_start priv pfx s).1
      = (Val (r, Some e), s') ->
      claimFunc w lib fuel privateKeyFile requestTimeout prefixInfo [arg] s
      = (Val (Some e), s')).
Proof.
  split; [| split; [| split]].
  - intros fuel txID s Htimer Hcheck. by apply poll_not_confirmed.
  - intros fuel txID s Ha Hdone. by apply poll_deadline_first.
  - intros utx fuel s r s' n ev e Hrun Hn Hev Hans.
    apply mine_mine_run in Hrun.
    pose proof (mine_run_answers _ _ _ _ _ _ _ Hrun n ev Hn Hev) as H.
    by rewrite Hans in H.
  - intros fuel privateKeyFile requestTimeout prefixInfo arg s priv r e s'
           Hkey Hparse pfx Hmine.
    by eapply claimFunc_returns_mine_error.
Qed.

Lemma request_failures_witness :
  poll sample_client.flaky 4 sample_client.later [x01] sample_client.pending
  = poll sample_client.flaky 3 sample_client.later [x01]
      (mkClient (heap sample_client.pending)
         [EvSelect; EvSend (ReqCheckTx [x01])]) /\
  1%nat = now (log sample_client.pending (EvSend ReqCurrBlock)).
Proof.
  destruct (request_failures sample_client.flaky sample_client.lib
              sample_client.later) as [Hpoll _].
  destruct (request_failures sample_client.unreachable sample_client.lib
              sample_client.soon) as [_ [_ [Hmine _]]].
  split.
  - apply (Hpoll 3%nat [x01] sample_client.pending); [reflexivity |].
    left. by exists (ErrRequest 2).
  - apply (Hmine 0%nat 10%nat sample_client.pending
             (None, Some (ErrRequest 1))
             (log sample_client.pending (EvSend ReqCurrBlock))
             0%nat (EvSend ReqCurrBlock) (ErrRequest 1));
      [reflexivity | apply Nat.le_refl | reflexivity | reflexivity].
Defined.

(** What C8 says fails on the node whose [currBlock] fails: the claim ends
    with that error after this one request, which is never sent again,
    though the deadline is far and fuel is left. *)
Lemma currBlock_failure_is_fatal :
  let run :=
    claimFunc sample_client.unreachable sample_client.lib 10 "" 30 true
      ["hi"%string] (mkClient (mkHeap ∅ ∅) []) in
  run.1 = Val (Some (ErrRequest 1)) /\
  events run.2 = [EvSend ReqCurrBlock] /\
  alive sample_client.unreachable (mkContext 30) (now run.2).
Proof. cbv zeta. split; [| split]; vm_compute; reflexivity. Qed.

(** *** [TransferTx.Copy] and the object [mine] works on *)

Lemma BytesToAddress_copy (a : Address) :
  wf_address a ->
  BytesToAddress (go_copy (repeat x00 AddressLength) a) = a.
Proof.
  unfold wf_address, BytesToAddress. intros Hlen.
  assert (go_copy (repeat x00 AddressLength) a = a) as ->.
  { unfold go_copy. rewrite repeat_length.
    rewrite take_ge by lia.
    rewrite drop_ge by (rewrite repeat_length; lia).
    apply app_nil_r. }
  rewrite Hlen, Nat.sub_diag, drop_0, Hlen, Nat.sub_diag.
  reflexivity.
Qed.

Lemma Copy_deep h t tx b :
  utxs h !! t = Some (TransferTxObj tx) ->
  baseTxs h !! baseTx tx = Some b ->
  wf_address (To tx) ->
  exists h' t' b',
    Copy h t = Some (h', t') /\
    utxs h' !! t' = Some (TransferTxObj (mkTransferTx b' (To tx) (Units tx)))
    /\ baseTxs h' !! b' = Some b /\
    utxs h !! t' = None /\ baseTxs h !! b' = None /\
    (forall l, l <> t' -> utxs h' !! l = utxs h !! l) /\
    (forall l, l <> b' -> baseTxs h' !! l = baseTxs h !! l).
Proof.
  intros Ht Hb Hwf.
  exists (mkHeap (<[fresh (dom (baseTxs h)) := b]> (baseTxs h))
            (<[fresh (dom (utxs h)) :=
                 TransferTxObj (mkTransferTx (fresh (dom (baseTxs h)))
                                  (To tx) (Units tx))]> (utxs h))),
    (fresh (dom (utxs h))), (fresh (dom (baseTxs h))).
  split.
  { unfold Copy, BaseTx_Copy, alloc_BaseTx, alloc_utx.
    rewrite Ht. cbn -[BytesToAddress go_copy fresh]. rewrite Hb.
    cbn -[BytesToAddress go_copy fresh].
    rewrite BytesToAddress_copy by done. by destruct b. }
  cbn [utxs baseTxs].
  split; [apply lookup_insert_eq |]. split; [apply lookup_insert_eq |].
  split; [apply not_elem_of_dom, is_fresh |].
  split; [apply not_elem_of_dom, is_fresh |].
  split; intros l Hl; by apply lookup_insert_ne.
Qed.

Lemma inner_run_returns cbID w lib ctx utx graffiti s l err s' :
  inner_run w lib ctx utx cbID graffiti s (Some (Some l, err)) s' -> l = utx.
Proof.
  intros Hrun. remember (Some (Some l, err)) as out eqn:Hout.
  induction Hrun; try discriminate Hout; [congruence | auto].
Qed.

Lemma mine_run_returns w lib ctx utx s l err s' :
  mine_run w lib ctx utx s (Some l, err) s' -> l = utx.
Proof.
  intros Hrun. remember (Some l, err) as r eqn:Hr.
  induction Hrun as
    [ s Hx | s e Ha Hc
    | s cbID h1 r s' Ha Hc Hset Hin
    | s cbID h1 s1 r s' Ha Hc Hset Hin Hrun IH ];
    try discriminate Hr; [| auto].
  subst r. by eapply inner_run_returns.
Qed.

(** C9, amended.  [TransferTx.Copy] returns a deep copy: a new
    [TransferTx] with the recipient and the units of the original and a new
    [BaseTx] with its field values; the original objects stay as they were,
    and whatever is written later to the two new objects, the original reads
    as before.  [mine] does not copy: it returns the pointer it was given,
    and the heap it leaves is the one it found but for the block id and the
    graffiti of the [BaseTx] of that transaction.  So the original of a
    transaction reads as before after [mine] has run on its copy. *)
Theorem Copy_is_deep_and_mine_works_in_place h t tx b :
  utxs h !! t = Some (TransferTxObj tx) ->
  baseTxs h !! baseTx tx = Some b ->
  wf_address (To tx) ->
  exists h' t' b',
    Copy h t = Some (h', t') /\
    utxs h' !! t' = Some (TransferTxObj (mkTransferTx b' (To tx) (Units tx)))
    /\ baseTxs h' !! b' = Some b /\
    t' <> t /\ b' <> baseTx tx /\
    snapshot h' t = snapshot h t /\
    (forall o v,
        snapshot (store_utx (store_BaseTx h' b' v) t' o) t = snapshot h t) /\
    (forall w lib ctx utx fuel s r s',
        mine w lib fuel ctx utx s = (Val r, s') ->
        remined utx (heap s) (heap s') /\
        forall l, r.1 = Some l -> l = utx) /\
    (forall w lib ctx fuel evs r s',
        mine w lib fuel ctx t' (mkClient h' evs) = (Val r, s') ->
        snapshot (heap s') t = snapshot h t).
Proof.
  intros Ht Hb Hwf.
  destruct (Copy_deep h t tx b Ht Hb Hwf)
    as (h' & t' & b' & Hcopy & Ht' & Hb' & Hnew_t & Hnew_b & Hold_t & Hold_b).
  assert (t' <> t) as Hne_t by congruence.
  assert (b' <> baseTx tx) as Hne_b by congruence.
  assert (forall h2, utxs h2 !! t = utxs h !! t ->
                     baseTxs h2 !! baseTx tx = baseTxs h !! baseTx tx ->
                     snapshot h2 t = snapshot h t) as Hsame.
  { intros h2 Hu2 Hb2. unfold snapshot. rewrite Hu2, Ht. cbn.
    by rewrite Hb2. }
  exists h', t', b'. repeat (split; [done |]).
  split; [apply Hsame; auto |]. split; [| split].
  - intros o v. apply Hsame; cbn.
    + rewrite lookup_insert_ne by done. auto.
    + rewrite lookup_insert_ne by done. auto.
  - intros w lib ctx utx fuel s r s' Hrun. apply mine_mine_run in Hrun.
    split; [by apply mine_run_frame in Hrun as [? _] |].
    destruct r as [r1 err]. cbn. intros l ->.
    by eapply mine_run_returns.
  - intros w lib ctx fuel evs r s' Hrun.
    apply mine_mine_run, mine_run_frame in Hrun as [Hre _].
    cbn [heap] in Hre. apply remined_frame in Hre as [Hu Hframe].
    apply Hsame.
    + rewrite Hu. auto.
    + rewrite (Hframe _ _ Ht') by done. auto.
Qed.

Lemma Copy_is_deep_and_mine_works_in_place_witness :
  exists h' t' b',
    Copy sample_client.transfer_heap 7%nat = Some (h', t') /\
    utxs h' !! t' = Some (TransferTxObj (mkTransferTx b' sample.bob 4)) /\
    baseTxs h' !! b' = Some sample_client.pending_base /\
    t' <> 7%nat /\ b' <> 3%nat.
Proof.
  destruct (Copy_is_deep_and_mine_works_in_place sample_client.transfer_heap
              7%nat (mkTransferTx 3%nat sample.bob 4)
              sample_client.pending_base)
    as (h' & t' & b' & Hcopy & Ht' & Hb' & Hne_t & Hne_b & _);
    [reflexivity | reflexivity | reflexivity |].
  exists h', t', b'. repeat (split; [assumption |]). assumption.
Defined.

(** What C9 says of the mining loop fails on the sample run: [mine] is given
    the pending claim at 0 and returns that pointer, and the object then
    carries the fetched block id and the graffiti 2 in place of what it held
    before. *)
Lemma mine_mutates_the_pending_transaction :
  let run :=
    mine sample_client.steady sample_client.lib 5 sample_client.soon 0%nat
      sample_client.pending in
  run.1 = Val (Some 0%nat, None) /\
  snapshot (heap sample_client.pending) 0%nat
  = Some (SnapClaim sample_client.pending_base) /\
  snapshot (heap run.2) 0%nat
  = Some (SnapClaim
            (with_Graffiti
               (with_BlockID sample_client.pending_base sample_client.block1)
               2)) /\
  snapshot (heap run.2) 0%nat <> snapshot (heap sample_client.pending) 0%nat.
Proof.
  cbv zeta. split; [vm_compute; reflexivity |].
  split; [vm_compute; reflexivity |].
  split; [vm_compute; reflexivity |].
  vm_compute. discriminate.
Qed.

(** * Further properties *)

(** ** [Genesis.Load], entry by entry *)

Section Load_more.

Variable Keccak256Hex : list byte -> string.
Variable json_Unmarshal : list byte -> list (option Airdrop) * error.

Local Abbreviation Load := (Load Keccak256Hex json_Unmarshal).
Local Abbreviation Load_airdrop := (Load_airdrop Keccak256Hex json_Unmarshal).

(** X1: without a declared digest [Load] never looks at the payload: for
    every payload, digest function and decoder its result is that of the
    custom loop alone on the ledger it was given.  It panics when the custom
    list has a nil entry and returns [nil] otherwise, and in both cases an
    address holds the balance of the last entry that names it among those
    before the first nil entry, or what it held when none does. *)
Theorem Load_without_digest g db airdropData :
  AirdropHash g = EmptyString ->
  Load g db airdropData = Load_custom db (CustomAllocations g) /\
  (Load g db airdropData).2 = range_end (CustomAllocations g) /\
  forall a, (Load g db airdropData).1 !! a
            = match custom_entry (until_nil (CustomAllocations g)) a with
              | Some bal => Some bal
              | None => db !! a
              end.
Proof.
  intros Hempty.
  assert (Load g db airdropData = Load_custom db (CustomAllocations g))
    as Heq.
  { unfold chain.Load. rewrite Load_airdrop_cases.
    by rewrite decide_True. }
  split; [done |]. rewrite Heq.
  destruct (Load_custom_lookup db (CustomAllocations g)) as (db' & -> & H).
  done.
Qed.

(** X2: a payload with the declared digest that does not decode makes
    [Load] return the decoder's error with the ledger as it was: no airdrop
    entry and no custom allocation is written. *)
Theorem Load_undecodable g db airdropData junk e :
  AirdropHash g <> EmptyString ->
  Keccak256Hex airdropData = AirdropHash g ->
  json_Unmarshal airdropData = (junk, Some e) ->
  Load g db airdropData = (db, Val (Some e)).
Proof.
  intros Hdecl Hhash Hjson. unfold chain.Load.
  rewrite Load_airdrop_cases, decide_False, decide_True, Hjson by done.
  done.
Qed.

(** X3: [Load] returns an error exactly when a digest is declared and the
    payload has another digest or does not decode; the custom loop never
    adds an error of its own. *)
Theorem Load_fails_iff g db airdropData :
  (exists e, (Load g db airdropData).2 = Val (Some e)) <->
  AirdropHash g <> EmptyString /\
  (Keccak256Hex airdropData <> AirdropHash g \/
   (json_Unmarshal airdropData).2 <> None).
Proof.
  assert (forall {A} (l : list (option A)) e,
             range_end l <> Val (Some e)) as Hend.
  { intros A l e. unfold range_end. by destruct (has_nil l). }
  unfold chain.Load. rewrite Load_airdrop_cases.
  destruct (decide (AirdropHash g = EmptyString)) as [Hempty | Hdecl].
  { destruct (Load_custom_lookup db (CustomAllocations g)) as (? & -> & _).
    cbn. split; [| by intros [? _]]. intros [e He]. by apply Hend in He. }
  destruct (decide (Keccak256Hex airdropData = AirdropHash g))
    as [Hhash | Hhash].
  2:{ cbn. split; [intros _; split; [done | by left] |].
      intros _. by eexists. }
  destruct (json_Unmarshal airdropData) as [l [e |]]; cbn.
  { split; [intros _; split; [done | by right] |]. intros _. by eexists. }
  destruct (Load_standard_lookup db (AirdropUnits g) l) as (db1 & -> & _).
  split.
  - intros [e He]. exfalso. unfold range_end in He.
    destruct (has_nil l); [discriminate He |].
    destruct (Load_custom_lookup db1 (CustomAllocations g))
      as (? & Hcus & _).
    rewrite Hcus in He. by apply Hend in He.
  - intros [_ [? | ?]]; done.
Qed.

(** X4: whatever [Load] returns, and also when it panics, it has written to
    no address outside the decoded airdrop list and the custom list. *)
Theorem Load_frame g db airdropData a :
  a ∉ map Airdrop_Address (until_nil (json_Unmarshal airdropData).1) ->
  a ∉ map Alloc_Address (until_nil (CustomAllocations g)) ->
  (Load g db airdropData).1 !! a = db !! a.
Proof.
  intros Hair Hcus. apply custom_entry_None in Hcus.
  unfold chain.Load. rewrite Load_airdrop_cases.
  destruct (decide (AirdropHash g = EmptyString)) as [Hempty | Hdecl].
  { destruct (Load_custom_lookup db (CustomAllocations g)) as (? & -> & H).
    cbn. by rewrite H, Hcus. }
  destruct (decide (Keccak256Hex airdropData = AirdropHash g))
    as [Hhash | Hhash]; [| done].
  destruct (json_Unmarshal airdropData) as [l [e |]]; cbn in *; [done |].
  destruct (Load_standard_lookup db (AirdropUnits g) l) as (db1 & -> & H1).
  assert (db1 !! a = db !! a) as Hdb1 by (by rewrite H1, decide_False).
  unfold range_end. destruct (has_nil l); [done |].
  destruct (Load_custom_lookup db1 (CustomAllocations g)) as (? & -> & H2).
  cbn. by rewrite H2, Hcus.
Qed.

(** X5: [Load] can be run again: on the ledger a successful [Load] has
    left, the same genesis and payload give that very ledger back. *)
Theorem Load_again g db airdropData db' :
  Load g db airdropData = (db', Val None) ->
  Load g db' airdropData = (db', Val None).
Proof.
  intros Hload.
  destruct (Load_returns_nil _ _ _ _ _ _ Hload)
    as (d1 & Hair & Hcus & Hnil).
  apply range_end_Val in Hnil.
  destruct (Load_custom_lookup d1 (CustomAllocations g)) as (d2 & Hcus2 & H2).
  rewrite Hcus in Hcus2. injection Hcus2 as <- _.
  unfold chain.Load. rewrite Load_airdrop_cases in Hair |- *.
  destruct (decide (AirdropHash g = EmptyString)) as [Hempty | Hdecl].
  { injection Hair as <-.
    destruct (Load_custom_lookup db' (CustomAllocations g))
      as (d3 & -> & H3).
    rewrite Hnil. f_equal. apply map_eq. intros a. rewrite H3, H2.
    by destruct (custom_entry (until_nil (CustomAllocations g)) a). }
  destruct (decide (Keccak256Hex airdropData = AirdropHash g))
    as [Hhash | Hhash]; [| discriminate Hair].
  destruct (json_Unmarshal airdropData) as [l [e |]]; [discriminate Hair |].
  destruct (Load_standard_lookup db (AirdropUnits g) l) as (d0 & Hstd & H1).
  rewrite Hstd in Hair. injection Hair as <- Hend.
  destruct (Load_standard_lookup db' (AirdropUnits g) l) as (d3 & -> & H3).
  rewrite Hend.
  destruct (Load_custom_lookup d3 (CustomAllocations g)) as (d4 & -> & H4).
  rewrite Hnil. f_equal. apply map_eq. intros a.
  rewrite H4, H3, H2, H1.
  destruct (custom_entry (until_nil (CustomAllocations g)) a); [done |].
  by destruct (decide (a ∈ map Airdrop_Address (until_nil l))).
Qed.

End Load_more.

(** X6: the airdrop depends on which addresses the payload lists, not on
    their order or on how often one is listed: two decoders that give, on a
    payload, lists that name the same addresses before their first nil
    entry, and that both have a nil entry or both have none, make [Load]
    return the same.  For lists without a nil entry this is: the same
    addresses. *)
Theorem Load_airdrop_as_a_set Keccak256Hex decode1 decode2 g db airdropData
    l1 l2 :
  decode1 airdropData = (l1, None) ->
  decode2 airdropData = (l2, None) ->
  (None ∈ l1 <-> None ∈ l2) ->
  (forall a, a ∈ map Airdrop_Address (until_nil l1)
             <-> a ∈ map Airdrop_Address (until_nil l2)) ->
  Load Keccak256Hex decode1 g db airdropData
  = Load Keccak256Hex decode2 g db airdropData.
Proof.
  intros H1 H2 Hnil Hsame. unfold Load. rewrite !Load_airdrop_cases, H1, H2.
  destruct (decide (AirdropHash g = EmptyString)) as [| Hdecl]; [done |].
  destruct (decide (Keccak256Hex airdropData = AirdropHash g))
    as [Hhash | Hhash]; [| done].
  destruct (Load_standard_lookup db (AirdropUnits g) l1) as (d1 & -> & Hl1).
  destruct (Load_standard_lookup db (AirdropUnits g) l2) as (d2 & -> & Hl2).
  assert (range_end l2 = range_end l1) as ->.
  { unfold range_end. rewrite <- !has_nil_spec in Hnil.
    destruct Hnil as [Hnil1 Hnil2].
    destruct (has_nil l1), (has_nil l2); try done.
    - discriminate (Hnil1 eq_refl).
    - discriminate (Hnil2 eq_refl). }
  replace d2 with d1; [done |]. apply map_eq. intros a.
  rewrite Hl1, Hl2.
  destruct (decide (a ∈ map Airdrop_Address (until_nil l1))) as [Hin | Hout].
  - rewrite decide_True; [done | by apply Hsame].
  - rewrite decide_False; [done |]. intros Hin. by apply Hout, Hsame.
Qed.

(** *** Witnesses on the sample genesis files *)

Lemma Load_without_digest_witness :
  Load crypto.Keccak256Hex json.Unmarshal sample_genesis.no_magic ∅
    sample_genesis.payload
  = Load_custom ∅ (CustomAllocations sample_genesis.no_magic).
Proof.
  apply (Load_without_digest crypto.Keccak256Hex json.Unmarshal
           sample_genesis.no_magic ∅ sample_genesis.payload).
  reflexivity.
Defined.

Lemma Load_undecodable_witness :
  Load crypto.Keccak256Hex json.Unmarshal sample_genesis.genesis_bad ∅
    sample_genesis.payload_bad
  = (∅, Val (Some ErrUnmarshal)).
Proof.
  apply (Load_undecodable crypto.Keccak256Hex json.Unmarshal
           sample_genesis.genesis_bad ∅ sample_genesis.payload_bad []
           ErrUnmarshal).
  - discriminate.
  - apply digest_payload_bad.
  - apply decode_payload_bad.
Defined.

Lemma Load_frame_witness :
  (Load crypto.Keccak256Hex json.Unmarshal sample_genesis.genesis ∅
     sample_genesis.payload).1 !! zeroAddress
  = (∅ : Ledger) !! zeroAddress.
Proof.
  apply (Load_frame crypto.Keccak256Hex json.Unmarshal
           sample_genesis.genesis ∅ sample_genesis.payload zeroAddress).
  - rewrite decode_payload. cbn.
    intros [H | [H | H%elem_of_nil]%elem_of_cons]%elem_of_cons; [| | done];
      vm_compute in H; discriminate H.
  - cbn. intros [H | H%elem_of_nil]%elem_of_cons; [| done].
    vm_compute in H. discriminate H.
Defined.

Lemma Load_again_witness :
  Load crypto.Keccak256Hex json.Unmarshal sample_genesis.genesis
    (<[sample.bob := 7]> (<[sample.bob := 5]> (<[sample.alice := 5]> ∅)))
    sample_genesis.payload
  = (<[sample.bob := 7]> (<[sample.bob := 5]> (<[sample.alice := 5]> ∅)),
     Val None).
Proof.
  apply (Load_again crypto.Keccak256Hex json.Unmarshal
           sample_genesis.genesis ∅ sample_genesis.payload).
  apply Load_sample_genesis.
Defined.

Lemma Load_airdrop_as_a_set_witness :
  Load crypto.Keccak256Hex json.Unmarshal sample_genesis.genesis ∅
    sample_genesis.payload
  = Load crypto.Keccak256Hex
      (fun _ => ([Some (mkAirdrop sample.bob); Some (mkAirdrop sample.alice);
                  Some (mkAirdrop sample.bob)], None))
      sample_genesis.genesis ∅ sample_genesis.payload.
Proof.
  apply (Load_airdrop_as_a_set crypto.Keccak256Hex json.Unmarshal
           (fun _ => ([Some (mkAirdrop sample.bob);
                       Some (mkAirdrop sample.alice);
                       Some (mkAirdrop sample.bob)], None))
           sample_genesis.genesis ∅ sample_genesis.payload
           [Some (mkAirdrop sample.alice); Some (mkAirdrop sample.bob)]
           [Some (mkAirdrop sample.bob); Some (mkAirdrop sample.alice);
            Some (mkAirdrop sample.bob)]).
  - apply decode_payload.
  - reflexivity.
  - rewrite <- !has_nil_spec. done.
  - intros a. cbn. rewrite !elem_of_cons. rewrite elem_of_nil. tauto.
Defined.

(** ** [TransferTx.Execute], account by account *)

Lemma ModifyBalance_frame (db : Ledger) a add change b :
  a <> b -> (ModifyBalance db a add change).1 !! b = db !! b.
Proof.
  intros Hne. unfold ModifyBalance, SetBalance.
  destruct add.
  - destruct (MaxUint64 <? GetBalance db a + change); [done |].
    cbn. by apply lookup_insert_ne.
  - destruct (GetBalance db a <? change); [done |].
    cbn. by apply lookup_insert_ne.
Qed.

(** X7: in every outcome of [Execute] the accounts other than the sender and
    the recipient are as they were, and when [Execute] returns an error the
    recipient's account is as it was too: a failed transfer credits
    nothing. *)
Theorem Execute_frame t c :
  (forall a, a <> Sender c -> a <> To t ->
             (Execute t c).1 !! a = Database c !! a) /\
  ((Execute t c).2 <> None ->
   (Execute t c).1 !! To t = Database c !! To t).
Proof.
  destruct (decide (To t = Sender c \/ To t = zeroAddress \/ Units t = 0))
    as [Hna | Hact].
  { rewrite Execute_guarded_ledger by done. done. }
  assert (To t <> zeroAddress /\ To t <> Sender c /\ Units t <> 0)
    as (Hz & Hs & Hu) by naive_solver.
  destruct (Z.lt_ge_cases (GetBalance (Database c) (Sender c)) (Units t))
    as [Hlt | Hle].
  { rewrite Execute_insufficient by done. done. }
  destruct (Z.lt_ge_cases MaxUint64
              (GetBalance (Database c) (To t) + Units t)) as [Hover | Hfits].
  - rewrite Execute_credit_overflow by done. cbn [fst snd]. split.
    + intros a Ha _. by apply lookup_insert_ne.
    + intros _. apply lookup_insert_ne. congruence.
  - rewrite Execute_success by done. cbn [fst snd]. split; [| done].
    intros a Ha1 Ha2. by rewrite !lookup_insert_ne.
Qed.

(** A transfer in the other direction: from the recipient of [t] back to
    the sender [back_to]. *)
Definition pay_back (t : TransferTx) (back_to : Address) : TransferTx :=
  mkTransferTx (baseTx t) back_to (Units t).

(** X8: a transfer that succeeds can be undone by the recipient: paying the
    same units back succeeds and every account has the balance it started
    with, provided the sender is not the zero address and the balances were
    [uint64]s. *)
Theorem Execute_and_back t c db1 :
  Sender c <> zeroAddress ->
  wf_ledger (Database c) ->
  Execute t c = (db1, None) ->
  exists db2,
    Execute (pay_back t (Sender c)) (mkTransactionContext db1 (To t))
    = (db2, None) /\
    forall a, GetBalance db2 a = GetBalance (Database c) a.
Proof.
  intros Hsz Hwf Hrun.
  pose proof (Hwf (Sender c)) as [_ Hmax]. pose proof (Hwf (To t)) as [Hto _].
  destruct (decide (To t = Sender c \/ To t = zeroAddress \/ Units t = 0))
    as [Hna | Hact].
  { unfold Execute in Hrun.
    destruct (bytes_Equal (To t) zeroAddress) eqn:Hz; [discriminate |].
    destruct (bytes_Equal (To t) (Sender c)) eqn:Hs; [discriminate |].
    destruct (Units t =? 0) eqn:Hu; [discriminate |].
    apply bytes_Equal_false in Hz, Hs. apply Z.eqb_neq in Hu.
    destruct Hna as [H | [H | H]]; congruence. }
  assert (To t <> zeroAddress /\ To t <> Sender c /\ Units t <> 0)
    as (Hz & Hs & Hu) by naive_solver.
  destruct (Z.lt_ge_cases (GetBalance (Database c) (Sender c)) (Units t))
    as [Hlt | Hle].
  { rewrite Execute_insufficient in Hrun by done. discriminate Hrun. }
  destruct (Z.lt_ge_cases MaxUint64
              (GetBalance (Database c) (To t) + Units t)) as [Hover | Hfits].
  { rewrite Execute_credit_overflow in Hrun by done. discriminate Hrun. }
  rewrite Execute_success in Hrun by done. injection Hrun as <-.
  eexists. split.
  - apply Execute_success; cbn [To Units Sender Database pay_back];
      rewrite ?GetBalance_insert_eq;
      rewrite ?GetBalance_insert_ne by done;
      rewrite ?GetBalance_insert_eq; try done; try congruence; lia.
  - intros a. cbn [To Units Sender Database pay_back].
    rewrite !GetBalance_insert_eq.
    rewrite (GetBalance_insert_ne _ (To t) (Sender c)) by done.
    rewrite GetBalance_insert_eq.
    destruct (decide (a = Sender c)) as [-> | Ha1].
    { rewrite GetBalance_insert_eq. lia. }
    rewrite GetBalance_insert_ne by done.
    destruct (decide (a = To t)) as [-> | Ha2].
    { rewrite GetBalance_insert_eq. lia. }
    by rewrite !GetBalance_insert_ne.
Qed.

Lemma wf_ledger_empty : wf_ledger ∅.
Proof.
  intros a. unfold GetBalance. rewrite lookup_empty. cbn.
  unfold is_uint64, MaxUint64. lia.
Qed.

Lemma wf_ledger_ten_three : wf_ledger sample.ten_three.
Proof.
  unfold sample.ten_three.
  repeat (apply wf_ledger_insert; [| unfold is_uint64, MaxUint64; lia]).
  apply wf_ledger_empty.
Qed.

Lemma alice_not_zero : sample.alice <> zeroAddress.
Proof. vm_compute. discriminate. Qed.

Lemma Execute_ten_three :
  Execute (sample.pay_bob 4) (sample.from_alice sample.ten_three)
  = (<[sample.bob := 3 + 4]> (<[sample.alice := 10 - 4]> sample.ten_three),
     None).
Proof.
  rewrite Execute_success;
    cbn [To Units Sender Database sample.pay_bob sample.from_alice];
    rewrite ?ten_three_alice, ?ten_three_bob;
    first [ apply bob_not_zero | apply bob_not_alice | done
          | unfold MaxUint64; lia ].
Qed.

Lemma Execute_and_back_witness :
  exists db2,
    Execute (pay_back (sample.pay_bob 4) sample.alice)
      (mkTransactionContext
         (<[sample.bob := 3 + 4]> (<[sample.alice := 10 - 4]> sample.ten_three))
         sample.bob)
    = (db2, None) /\
    forall a, GetBalance db2 a = GetBalance sample.ten_three a.
Proof.
  apply (Execute_and_back (sample.pay_bob 4)
           (sample.from_alice sample.ten_three)).
  - apply alice_not_zero.
  - apply wf_ledger_ten_three.
  - apply Execute_ten_three.
Defined.

(** ** [TransferTx.Copy], the other way round *)

(** X9: the copy is as good as the original at the time of the copy, and
    stays so: it reads as the original did, and a later run of [mine] on the
    original changes nothing the copy leads to. *)
Theorem Copy_keeps_what_it_copied h t tx b h' t' :
  utxs h !! t = Some (TransferTxObj tx) ->
  baseTxs h !! baseTx tx = Some b ->
  wf_address (To tx) ->
  Copy h t = Some (h', t') ->
  snapshot h' t' = snapshot h t /\
  forall w lib ctx fuel evs r s',
    mine w lib fuel ctx t (mkClient h' evs) = (Val r, s') ->
    snapshot (heap s') t' = snapshot h t.
Proof.
  intros Ht Hb Hwf Hcopy.
  destruct (Copy_deep h t tx b Ht Hb Hwf)
    as (h2 & t2 & b' & Hcopy' & Ht' & Hb' & Hnew_t & Hnew_b & Hold_t & Hold_b).
  rewrite Hcopy in Hcopy'. injection Hcopy' as <- <-.
  assert (snapshot h t = Some (SnapTransfer b (To tx) (Units tx))) as Hsnap.
  { unfold snapshot. rewrite Ht. cbn. by rewrite Hb. }
  assert (forall h3, utxs h3 !! t' = utxs h' !! t' ->
                     baseTxs h3 !! b' = baseTxs h' !! b' ->
                     snapshot h3 t' = snapshot h t) as Hsame.
  { intros h3 Hu3 Hb3. rewrite Hsnap. unfold snapshot.
    rewrite Hu3, Ht'. cbn. by rewrite Hb3, Hb'. }
  split; [by apply Hsame |].
  intros w lib ctx fuel evs r s' Hrun.
  apply mine_mine_run, mine_run_frame in Hrun as [Hre _].
  cbn [heap] in Hre. apply remined_frame in Hre as [Hu Hframe].
  assert (utxs h' !! t = Some (TransferTxObj tx)) as Ht_h'.
  { rewrite Hold_t by congruence. done. }
  apply Hsame.
  - by rewrite Hu.
  - apply (Hframe _ _ Ht_h'). cbn. congruence.
Qed.

Lemma Copy_keeps_what_it_copied_witness :
  exists h' t',
    Copy sample_client.transfer_heap 7%nat = Some (h', t') /\
    snapshot h' t' = snapshot sample_client.transfer_heap 7%nat.
Proof.
  destruct (Copy sample_client.transfer_heap 7%nat) as [[h' t'] |] eqn:Hcopy.
  - exists h', t'. split; [reflexivity |].
    apply (Copy_keeps_what_it_copied sample_client.transfer_heap 7%nat
             (mkTransferTx 3%nat sample.bob 4) sample_client.pending_base
             h' t'); [reflexivity | reflexivity | reflexivity | exact Hcopy].
  - vm_compute in Hcopy. discriminate Hcopy.
Defined.

(** ** [TransferTx.TypedData] *)

(** The values of a [tdata.TypedDataMessage] and the entries of its type
    list. *)
Module tdata.

Inductive Value : Type :=
| VString (s : string)
| VUint64 (n : Z)
| VAddress (a : chain.Address).

Record Type_ : Type := mkType {
  Name : string;
  Typ : string       (* field [Type] *)
}.

End tdata.

Section TypedData.

(** [tdata.TypedData] and [tdata.CreateTypedData], of a package of this
    repository that is not under [src/]. *)
Variable TD : Type.
Variable CreateTypedData :
  Z -> string -> list tdata.Type_ -> gmap string tdata.Value -> TD.

(** The constant [Transfer] of [chain], declared outside [src/]. *)
Variable Transfer : string.

(** [ids.ID.String] *)
Variable ID_String : ID -> string.

(** The message of [TransferTx.TypedData]. *)
Definition TypedData_message (b : BaseTx) (tx : TransferTx)
  : gmap string tdata.Value :=
  <["blockID"%string := tdata.VString (ID_String (BlockID b))]>
    (<["price"%string := tdata.VUint64 (Price b)]>
       (<["to"%string := tdata.VAddress (To tx)]>
          (<["units"%string := tdata.VUint64 (Units tx)]> ∅))).

(** [TransferTx.TypedData]; [None] where Go dereferences a nil pointer or
    the receiver is not a [*TransferTx]. *)
Definition TypedData (h : Heap) (t : loc) : option TD :=
  o ← utxs h !! t;
  match o with
  | TransferTxObj tx =>
    b ← baseTxs h !! baseTx tx;
    Some (CreateTypedData (BaseTx_Magic b) Transfer
            [tdata.mkType "blockID" "string";
             tdata.mkType "price" "uint64";
             tdata.mkType "to" "address";
             tdata.mkType "units" "uint64"]
            (TypedData_message b tx))
  | ClaimTxObj _ => None
  end.

(** X10: the typed data of a transfer does not contain its graffiti:
    assigning the graffiti, as the mining loop does, leaves the typed data
    what it was. *)
Theorem TypedData_without_graffiti h t tx graffiti h' :
  utxs h !! t = Some (TransferTxObj tx) ->
  SetGraffiti h t graffiti = Some h' ->
  TypedData h' t = TypedData h t.
Proof.
  intros Ht Hset. unfold SetGraffiti in Hset. rewrite Ht in Hset.
  cbn in Hset.
  destruct (baseTxs h !! baseTx tx) as [b |] eqn:Hb; [| discriminate Hset].
  cbn in Hset. injection Hset as <-.
  unfold TypedData. cbn. rewrite Ht. cbn.
  rewrite Hb, lookup_insert_eq. reflexivity.
Qed.

(** X11: the typed data binds the transfer: when [CreateTypedData] tells
    apart different magic values and messages and [ID.String] different ids,
    two transfers with the same typed data have the same magic, block id,
    price, recipient and units. *)
Theorem TypedData_binds h1 t1 tx1 b1 h2 t2 tx2 b2 :
  (forall m ty tys msg m' ty' tys' msg',
      CreateTypedData m ty tys msg = CreateTypedData m' ty' tys' msg' ->
      m = m' /\ msg = msg') ->
  (forall i j, ID_String i = ID_String j -> i = j) ->
  utxs h1 !! t1 = Some (TransferTxObj tx1) ->
  baseTxs h1 !! baseTx tx1 = Some b1 ->
  utxs h2 !! t2 = Some (TransferTxObj tx2) ->
  baseTxs h2 !! baseTx tx2 = Some b2 ->
  TypedData h1 t1 = TypedData h2 t2 ->
  BaseTx_Magic b1 = BaseTx_Magic b2 /\ BlockID b1 = BlockID b2 /\
  Price b1 = Price b2 /\ To tx1 = To tx2 /\ Units tx1 = Units tx2.
Proof.
  intros Hcreate Hid Ht1 Hb1 Ht2 Hb2. unfold TypedData.
  rewrite Ht1, Ht2. cbn. rewrite Hb1, Hb2. cbn.
  intros [= Heq]. apply Hcreate in Heq as [Hmagic Hmsg].
  split; [done |]. unfold TypedData_message in Hmsg.
  pose proof (f_equal (fun m => m !! "blockID"%string) Hmsg) as Hblock.
  pose proof (f_equal (fun m => m !! "price"%string) Hmsg) as Hprice.
  pose proof (f_equal (fun m => m !! "to"%string) Hmsg) as Hto.
  pose proof (f_equal (fun m => m !! "units"%string) Hmsg) as Hunits.
  cbn beta in *.
  assert (forall (k k' : string) (v : tdata.Value)
                 (m : gmap string tdata.Value),
             String.eqb k k' = false -> <[k := v]> m !! k' = m !! k')
    as Hskip.
  { intros k k' v m Hk. apply lookup_insert_ne.
    intros ->. by rewrite String.eqb_refl in Hk. }
  rewrite !lookup_insert_eq in Hblock.
  rewrite !Hskip in Hprice by reflexivity.
  rewrite !lookup_insert_eq in Hprice.
  rewrite !Hskip in Hto by reflexivity.
  rewrite !lookup_insert_eq in Hto.
  rewrite !Hskip in Hunits by reflexivity.
  rewrite !lookup_insert_eq in Hunits.
  injection Hblock as Hblock. apply Hid in Hblock.
  injection Hprice as Hprice. injection Hto as Hto.
  injection Hunits as Hunits. done.
Qed.

End TypedData.

(** *** Witnesses on the sample transfer *)

Lemma TypedData_without_graffiti_witness :
  TypedData (Z * gmap string tdata.Value) (fun m _ _ msg => (m, msg))
    "transfer" string_of_list_byte
    (store_BaseTx sample_client.transfer_heap 3%nat
       (with_Graffiti sample_client.pending_base 9)) 7%nat
  = TypedData (Z * gmap string tdata.Value) (fun m _ _ msg => (m, msg))
      "transfer" string_of_list_byte sample_client.transfer_heap 7%nat.
Proof.
  apply (TypedData_without_graffiti _ _ _ _ sample_client.transfer_heap
           7%nat (mkTransferTx 3%nat sample.bob 4) 9);
    reflexivity.
Defined.

Lemma string_of_list_byte_inj (i j : list byte) :
  string_of_list_byte i = string_of_list_byte j -> i = j.
Proof.
  intros Heq. apply (f_equal list_byte_of_string) in Heq.
  by rewrite !list_byte_of_string_of_list_byte in Heq.
Qed.

Lemma TypedData_binds_witness :
  To (mkTransferTx 3%nat sample.bob 4) = sample.bob /\
  Units (mkTransferTx 3%nat sample.bob 4) = 4.
Proof.
  destruct (TypedData_binds (Z * gmap string tdata.Value)
              (fun m _ _ msg => (m, msg)) "transfer" string_of_list_byte
              sample_client.transfer_heap 7%nat
              (mkTransferTx 3%nat sample.bob 4) sample_client.pending_base
              sample_client.transfer_heap 7%nat
              (mkTransferTx 3%nat sample.bob 4) sample_client.pending_base)
    as (_ & _ & _ & Hto & Hunits);
    [ intros m ty tys msg m' ty' tys' msg' [= -> ->]; done
    | apply string_of_list_byte_inj
    | reflexivity | reflexivity | reflexivity | reflexivity | reflexivity
    | ].
  split; [exact Hto | exact Hunits].
Defined.

(** ** The requests of [mine] *)

(** The traces of [mine] after [n] events, [cur] being the block id that the
    latest [currBlock] answered, if there is one: nothing but the three
    queries, and every [validBlockID] asks about [cur]. *)
Fixpoint mining_trace (w : World) (n : nat) (cur : option ID)
    (evs : list Event) : Prop :=
  match evs with
  | [] => True
  | EvSend ReqCurrBlock :: rest =>
    mining_trace w (S n)
      (match w_currBlock w n with Ok cbID => Some cbID | Failed _ => None end)
      rest
  | EvSend (ReqValidBlockID blkID) :: rest =>
    cur = Some blkID /\ mining_trace w (S n) cur rest
  | EvSend ReqDifficultyEstimate :: rest => mining_trace w (S n) cur rest
  | _ => False
  end.


Lemma inner_run_trace w lib ctx utx cbID graffiti s out s' :
  inner_run w lib ctx utx cbID graffiti s out s' ->
  exists evs,
    events s' = events s ++ evs /\
    forall rest,
      mining_trace w (now s') (Some cbID) rest ->
      mining_trace w (now s) (Some cbID) (evs ++ rest).
Proof.
  induction 1 as
    [ g s Hx | g s e Ha Hv | g s Ha Hv
    | g s h1 t b e Ha Hv Hset Hsnap Hb
    | g s h1 t b e Ha Hv Hset Hsnap Hb He
    | g s h1 t b est Ha Hv Hset Hsnap Hb He Hd
    | g s h1 t b est out s' Ha Hv Hset Hsnap Hb He Hd Hrun IH ].
  1:{ exists []. by rewrite app_nil_r. }
  6:{ destruct IH as (evs & Hevs & Htrace). cbn [events] in Hevs.
      exists ([EvSend (ReqValidBlockID cbID); EvSend ReqDifficultyEstimate]
              ++ evs).
      split; [by rewrite Hevs, <- app_assoc |].
      intros rest Hrest. apply Htrace in Hrest.
      rewrite !now_snoc_2 in Hrest. cbn.
      split; [reflexivity | exact Hrest]. }
  all: eexists; split; [reflexivity |]; intros rest Hrest; cbn;
    rewrite ?now_log, ?now_snoc, ?now_snoc_2 in Hrest;
    (split; [reflexivity | exact Hrest]).
Qed.

Lemma mine_run_trace w lib ctx utx s r s' :
  mine_run w lib ctx utx s r s' ->
  exists evs,
    events s' = events s ++ evs /\
    forall cur, mining_trace w (now s) cur evs.
Proof.
  induction 1 as
    [ s Hx | s e Ha Hc
    | s cbID h1 r s' Ha Hc Hset Hin
    | s cbID h1 s1 r s' Ha Hc Hset Hin Hrun IH ].
  - exists []. by rewrite app_nil_r.
  - exists [EvSend ReqCurrBlock]. split; [done |]. intros cur. by cbn.
  - apply inner_run_trace in Hin as (evs & Hevs & Htrace).
    cbn [events] in Hevs. rewrite now_snoc in Htrace.
    exists (EvSend ReqCurrBlock :: evs).
    split; [by rewrite Hevs, <- app_assoc |].
    intros cur. cbn. rewrite Hc.
    specialize (Htrace [] I). by rewrite app_nil_r in Htrace.
  - apply inner_run_trace in Hin as (evs & Hevs & Htrace).
    cbn [events] in Hevs. rewrite now_snoc in Htrace.
    destruct IH as (evs' & Hevs' & Htrace').
    exists (EvSend ReqCurrBlock :: evs ++ evs').
    split; [by rewrite Hevs', Hevs, <- !app_assoc |].
    intros cur. cbn. rewrite Hc. apply Htrace, Htrace'.
Qed.

(** X12: a run of [mine] sends nothing but [currBlock], [validBlockID] and
    [difficultyEstimate] requests (it never issues a transaction and never
    waits), and every [validBlockID] asks about the block id that the latest
    [currBlock] of the run answered. *)
Theorem mine_sends_queries_only w lib ctx utx fuel s r s' :
  mine w lib fuel ctx utx s = (Val r, s') ->
  exists evs,
    events s' = events s ++ evs /\ mining_trace w (now s) None evs.
Proof.
  intros Hrun. apply mine_mine_run, mine_run_trace in Hrun
    as (evs & Hevs & Htrace).
  by exists evs.
Qed.

Lemma mine_sends_queries_only_witness :
  let run :=
    mine sample_client.steady sample_client.lib 5 sample_client.soon 0%nat
      sample_client.pending in
  exists evs,
    events run.2 = events sample_client.pending ++ evs /\
    mining_trace sample_client.steady (now sample_client.pending) None evs.
Proof.
  cbv zeta.
  apply (mine_sends_queries_only sample_client.steady sample_client.lib
           sample_client.soon 0%nat 5 sample_client.pending
           (Some 0%nat, None)).
  vm_compute. reflexivity.
Defined.

(** ** [getClaimOp] and the arguments of [claimFunc] *)

Lemma trim_slash_cases (pfx : list byte) :
  trim_slash pfx = pfx \/ pfx = trim_slash pfx ++ [slash].
Proof.
  destruct (decide (last pfx = Some slash)) as [Hlast | Hlast].
  - right. destruct pfx as [| x pfx'] using rev_ind; [discriminate Hlast |].
    rewrite last_snoc in Hlast. injection Hlast as ->.
    by rewrite trim_slash_snoc.
  - left. by apply trim_slash_id.
Qed.

(** X13: a prefix that [getClaimOp] returns was the only argument, with at
    most one trailing slash taken off, and [ParseKey] accepted it;
    [getClaimOp] has changed nothing. *)
Theorem getClaimOp_returns lib args s pfx s' :
  getClaimOp lib args s = (Val pfx, s') ->
  s' = s /\ ParseKey lib pfx = None /\
  exists arg : string,
    args = [arg] /\
    (list_byte_of_string arg = pfx \/
     list_byte_of_string arg = pfx ++ [slash]).
Proof.
  unfold getClaimOp. destruct args as [| arg [| arg' args]];
    try discriminate.
  destruct (ParseKey lib (trim_slash (list_byte_of_string arg))) eqn:Hkey;
    [discriminate |].
  intros [= <- <-]. split; [done |]. split; [done |].
  exists arg. split; [done |].
  destruct (trim_slash_cases (list_byte_of_string arg)) as [-> | Heq];
    [by left | by right].
Qed.

Lemma getClaimOp_returns_witness :
  ParseKey sample_client.lib [x68; x69] = None.
Proof.
  destruct (getClaimOp_returns sample_client.lib ["hi/"%string]
              sample_client.pending [x68; x69] sample_client.pending)
    as (_ & Hkey & _); [reflexivity | exact Hkey].
Defined.

(** X14: with no argument or with more than one, [claimFunc] ends in
    [os.Exit(128)] in the state it started in; the key file is read first,
    so when it cannot be read [claimFunc] returns that error and the
    arguments are not looked at. *)
Theorem claimFunc_wrong_arity w lib fuel privateKeyFile requestTimeout
    prefixInfo args s :
  length args <> 1%nat ->
  claimFunc w lib fuel privateKeyFile requestTimeout prefixInfo args s
  = match LoadPK lib privateKeyFile with
    | Ok _ => (Exit 128, s)
    | Failed e => (Val (Some e), s)
    end.
Proof.
  intros Hlen. unfold claimFunc.
  destruct (LoadPK lib privateKeyFile); [| done].
  unfold bind, getClaimOp. by destruct args as [| arg [| arg' args]].
Qed.

Lemma claimFunc_wrong_arity_witness :
  claimFunc sample_client.steady sample_client.lib 10 "" 30 true []
    sample_client.pending
  = (Exit 128, sample_client.pending).
Proof.
  apply (claimFunc_wrong_arity sample_client.steady sample_client.lib 10 ""
           30 true [] sample_client.pending).
  discriminate.
Defined.

Lemma claim_start_events priv pfx s :
  events (claim_start priv pfx s).1 = events s.
Proof. reflexivity. Qed.

(** X15: with a request timeout of zero or less [claimFunc] has no time to
    mine: given any fuel, a readable key and an accepted prefix, it returns
    the deadline error of the context and has sent no request; the
    transaction is never issued. *)
Theorem claimFunc_without_time w lib fuel privateKeyFile requestTimeout
    prefixInfo (arg : string) s priv :
  LoadPK lib privateKeyFile = Ok priv ->
  ParseKey lib (trim_slash (list_byte_of_string arg)) = None ->
  requestTimeout <= 0 ->
  exists s',
    claimFunc w lib (S fuel) privateKeyFile requestTimeout prefixInfo [arg] s
    = (Val (Some DeadlineExceeded), s') /\
    events s' = events s.
Proof.
  intros Hkey Hparse Htime.
  exists (claim_start priv (trim_slash (list_byte_of_string arg)) s).1.
  split; [| apply claim_start_events].
  eapply claimFunc_returns_mine_error; [done | done |].
  apply mine_expired. unfold expired, now. rewrite claim_start_events.
  cbn [deadline]. apply Z.leb_le. unfold now. lia.
Qed.

Lemma claimFunc_without_time_witness :
  exists s',
    claimFunc sample_client.steady sample_client.lib 1 "" 0 true
      ["hi"%string] sample_client.pending
    = (Val (Some DeadlineExceeded), s') /\
    events s' = events sample_client.pending.
Proof.
  apply (claimFunc_without_time sample_client.steady sample_client.lib 0 ""
           0 true "hi"%string sample_client.pending sample_client.key);
    [reflexivity | reflexivity | lia].
Defined.

(** ** The confirmation polling *)

(** The traces of the polling loop for [txID]: a wait, then a [checkTx]
    for [txID], again and again, and possibly one last wait. *)
Fixpoint polling_trace (txID : ID) (evs : list Event) : Prop :=
  match evs with
  | [] => True
  | EvSelect :: rest =>
    match rest with
    | [] => True
    | EvSend (ReqCheckTx id) :: rest' => id = txID /\ polling_trace txID rest'
    | _ => False
    end
  | _ => False
  end.

Section Polling.

Variable w : World.
Variable ctx : Context.
Variable txID : ID.

Lemma poll_step fuel s :
  poll w (S fuel) ctx txID s =
    if deadline ctx <=? w_clock w (now s) then (Val tt, s)
    else
      match (select_timer w ctx s).1 with
      | Val true =>
        let s2 :=
          mkClient (heap s)
            (events s ++ [EvSelect; EvSend (ReqCheckTx txID)]) in
        match w_checkTx w (S (now s)) txID with
        | Ok true => (Val tt, s2)
        | _ => poll w fuel ctx txID s2
        end
      | _ => (Val tt, log s EvSelect)
      end.
Proof.
  cbn [poll]. unfold bind at 1, ctx_Err.
  destruct (deadline ctx <=? w_clock w (now s)); [done |].
  unfold bind at 1, select_timer. cbn [fst].
  match goal with
  | |- context [if ?c then true else ?d] =>
    destruct (if c then true else d)
  end; cbn [negb]; [| done].
  unfold bind, checkTx. rewrite now_log. unfold log. cbn [heap events].
  rewrite <- app_assoc. cbn [app].
  by destruct (w_checkTx w (S (now s)) txID) as [[|] | e].
Qed.

Lemma poll_run fuel s out s' :
  poll w fuel ctx txID s = (out, s') ->
  heap s' = heap s /\ (out = Val tt \/ out = OutOfFuel) /\
  exists evs,
    events s' = events s ++ evs /\ polling_trace txID evs /\
    forall n id,
      (now s <= n)%nat ->
      events s' !! n = Some (EvSend (ReqCheckTx id)) ->
      w_checkTx w n id = Ok true ->
      S n = now s'.
Proof.
  revert s. induction fuel as [| fuel IH]; intros s.
  { intros [= <- <-]. split; [done |]. split; [by right |].
    exists []. rewrite app_nil_r. split; [done |]. split; [done |].
    intros n id Hn Hev. apply lookup_lt_Some in Hev. unfold now in Hn. lia. }
  rewrite poll_step.
  destruct (deadline ctx <=? w_clock w (now s)).
  { intros [= <- <-]. split; [done |]. split; [by left |].
    exists []. rewrite app_nil_r. split; [done |]. split; [done |].
    intros n id Hn Hev. apply lookup_lt_Some in Hev. unfold now in Hn. lia. }
  assert (forall o, (o, log s EvSelect) = (out, s') ->
            heap s' = heap s /\ (o = out) /\
            exists evs,
              events s' = events s ++ evs /\ polling_trace txID evs /\
              forall n id,
                (now s <= n)%nat ->
                events s' !! n = Some (EvSend (ReqCheckTx id)) ->
                w_checkTx w n id = Ok true ->
                S n = now s') as Hdone.
  { intros o [= <- <-]. split; [done |]. split; [done |].
    exists [EvSelect]. split; [done |]. split; [done |].
    intros n id Hn Hev. cbn in Hev.
    apply lookup_new_events in Hev; [| done].
    destruct (n - length (events s))%nat as [| k]; cbn in Hev;
      discriminate Hev. }
  destruct ((select_timer w ctx s).1) as [[|] | code | |].
  2-5: intros Hrun; apply Hdone in Hrun as (? & <- & ?);
    split; [done |]; split; [by left | done].
  clear Hdone. cbv zeta.
  destruct (w_checkTx w (S (now s)) txID) as [[|] | e] eqn:Hcheck.
  - intros [= <- <-]. split; [done |]. split; [by left |].
    exists [EvSelect; EvSend (ReqCheckTx txID)].
    split; [done |]. split; [done |].
    intros n id Hn Hev _. cbn [events] in Hev.
    apply lookup_new_events in Hev; [| done]. fold (now s) in Hev.
    rewrite now_snoc_2.
    destruct (n - now s)%nat as [| [| k]] eqn:Hk; cbn in Hev;
      try discriminate Hev.
    lia.
  - intros Hrun. apply IH in Hrun as (Hheap & Hout & evs & Hevs & Htr & Hstop).
    cbn [heap events] in Hheap, Hevs. split; [done |]. split; [done |].
    exists ([EvSelect; EvSend (ReqCheckTx txID)] ++ evs).
    split; [by rewrite Hevs, <- app_assoc |]. split; [done |].
    intros n id Hn Hev Hok.
    destruct (decide (n < now s + 2)%nat) as [Hlt | Hge].
    + rewrite Hevs, <- app_assoc in Hev.
      apply lookup_new_events in Hev; [| done]. fold (now s) in Hev.
      destruct (n - now s)%nat as [| [| k]] eqn:Hk; cbn in Hev;
        [discriminate Hev | | lia].
      injection Hev as <-. replace n with (S (now s)) in Hok by lia.
      congruence.
    + apply (Hstop n id); [rewrite now_snoc_2; lia | done | done].
  - intros Hrun. apply IH in Hrun as (Hheap & Hout & evs & Hevs & Htr & Hstop).
    cbn [heap events] in Hheap, Hevs. split; [done |]. split; [done |].
    exists ([EvSelect; EvSend (ReqCheckTx txID)] ++ evs).
    split; [by rewrite Hevs, <- app_assoc |]. split; [done |].
    intros n id Hn Hev Hok.
    destruct (decide (n < now s + 2)%nat) as [Hlt | Hge].
    + rewrite Hevs, <- app_assoc in Hev.
      apply lookup_new_events in Hev; [| done]. fold (now s) in Hev.
      destruct (n - now s)%nat as [| [| k]] eqn:Hk; cbn in Hev;
        [discriminate Hev | | lia].
      injection Hev as <-. replace n with (S (now s)) in Hok by lia.
      congruence.
    + apply (Hstop n id); [rewrite now_snoc_2; lia | done | done].
Qed.

(** X16: the polling loop touches no transaction and sends nothing but
    [checkTx] requests for its transaction id, each after a wait; once an
    answer says confirmed, nothing more is sent.  It has no error to
    return. *)
Theorem poll_only_checks fuel s out s' :
  poll w fuel ctx txID s = (out, s') ->
  heap s' = heap s /\ (out = Val tt \/ out = OutOfFuel) /\
  exists evs,
    events s' = events s ++ evs /\ polling_trace txID evs /\
    forall n,
      (now s <= n)%nat ->
      events s' !! n = Some (EvSend (ReqCheckTx txID)) ->
      w_checkTx w n txID = Ok true ->
      S n = now s'.
Proof.
  intros Hrun. apply poll_run in Hrun as (Hheap & Hout & evs & Hevs & Htr & H).
  split; [done |]. split; [done |]. exists evs.
  split; [done |]. split; [done |]. intros n. apply H.
Qed.

(** X17: the polling loop ends: when the deadline has passed for good after
    [N] events, [poll] returns, given fuel for the turns until then,
    whether or not the transaction was ever confirmed. *)
Theorem poll_terminates N fuel s :
  (forall n, (N <= n)%nat -> expired w ctx n) ->
  (N - now s < fuel)%nat ->
  exists s', poll w fuel ctx txID s = (Val tt, s').
Proof.
  intros HN. revert s. induction fuel as [| fuel IH]; intros s Hfuel; [lia |].
  rewrite poll_step.
  destruct (deadline ctx <=? w_clock w (now s)) eqn:Hctx; [by eexists |].
  assert (now s < N)%nat as Hlt.
  { destruct (decide (now s < N)%nat) as [| Hge]; [done |].
    assert (expired w ctx (now s)) as Hx by (apply HN; lia).
    unfold expired in Hx. congruence. }
  destruct ((select_timer w ctx s).1) as [[|] | code | |];
    try by eexists.
  cbv zeta.
  destruct (w_checkTx w (S (now s)) txID) as [[|] | e]; [by eexists | |];
    apply IH; rewrite now_snoc_2; lia.
Qed.

End Polling.

Lemma poll_only_checks_witness :
  heap (poll sample_client.flaky 4 sample_client.later [x01]
          sample_client.pending).2
  = heap sample_client.pending.
Proof.
  apply (poll_only_checks sample_client.flaky sample_client.later [x01] 4
           sample_client.pending
           (poll sample_client.flaky 4 sample_client.later [x01]
              sample_client.pending).1).
  apply surjective_pairing.
Defined.

Lemma poll_terminates_witness :
  exists s',
    poll sample_client.flaky 101 sample_client.soon [x01]
      sample_client.pending
    = (Val tt, s').
Proof.
  apply (poll_terminates sample_client.flaky sample_client.soon [x01] 100).
  - intros n Hn. unfold expired. cbn. apply Z.leb_le. lia.
  - cbn. lia.
Defined.

(** ** [claimFunc] after the mining *)

(** What [claimFunc] does once [mine] has returned the transaction [mtx]:
    it signs it and issues it, and polls when the node accepted it. *)
Lemma claimFunc_after_mining w lib fuel privateKeyFile requestTimeout
    prefixInfo (arg : string) s priv mtx s1 t b sig id txBytes :
  LoadPK lib privateKeyFile = Ok priv ->
  ParseKey lib (trim_slash (list_byte_of_string arg)) = None ->
  let pfx := trim_slash (list_byte_of_string arg) in
  mine w lib fuel (mkContext (w_clock w (now s) + requestTimeout))
    (claim_start priv pfx s).2 (claim_start priv pfx s).1
  = (Val (Some mtx, None), s1) ->
  snapshot (heap s1) mtx = Some t ->
  UnsignedBytes lib t = (b, None) ->
  Sign priv b = (sig, None) ->
  NewTx_Init lib t sig = ((id, txBytes), None) ->
  claimFunc w lib fuel privateKeyFile requestTimeout prefixInfo [arg] s
  = let s2 := log s1 (EvSend (ReqIssueTx txBytes)) in
    match w_issueTx w (now s1) txBytes with
    | Failed e => (Val (Some e), s2)
    | Ok (txID, false) => (Val (Some (ErrTxFailed txID)), s2)
    | Ok (txID, true) =>
      match poll w fuel (mkContext (w_clock w (now s2) + requestTimeout))
              txID s2 with
      | (Val _, s3) =>
        (Val None,
         if prefixInfo then log s3 (EvSend (ReqPrefixInfo pfx)) else s3)
      | (Exit code, s3) => (Exit code, s3)
      | (Panic, s3) => (Panic, s3)
      | (OutOfFuel, s3) => (OutOfFuel, s3)
      end
    end.
Proof.
  intros Hkey Hparse pfx Hmine Hsnap Hbytes Hsign Hinit.
  unfold claimFunc. rewrite Hkey.
  unfold bind at 1, getClaimOp. rewrite Hparse. fold pfx.
  unfold ret at 1, bind at 1, alloc at 1, bind at 1, alloc at 1.
  unfold claim_start in Hmine. cbn [alloc_BaseTx alloc_utx] in Hmine |- *.
  cbn [heap events fst snd] in Hmine |- *.
  unfold bind at 1, WithTimeout at 1. unfold now at 1. cbn [events].
  fold (now s). unfold bind at 1. rewrite Hmine.
  unfold bind at 1, read_heap. cbn [mbind option_bind].
  rewrite Hsnap, Hbytes, Hsign, Hinit.
  unfold bind at 1, issueTx. cbv zeta.
  destruct (w_issueTx w (now s1) txBytes) as [[txID [|]] | e];
    cbn [negb]; [| done | done].
  unfold bind at 1, WithTimeout. unfold bind at 1.
  destruct (poll w fuel _ txID _) as [[[] | code | |] s3]; try done.
  unfold bind, GetPrefixInfo, ret. by destruct prefixInfo.
Qed.

(** X18: once [mine] has returned a transaction and it is signed,
    [claimFunc] issues it with one request.  When the node does not accept
    it, [claimFunc] returns the failure and never asks for a confirmation.
    When the node accepts it, [claimFunc] returns no error as soon as the
    polling loop ends, confirmed or not, and its last request is for the
    prefix information exactly when the flag asks for it. *)
Theorem claimFunc_issues_once w lib fuel privateKeyFile requestTimeout
    prefixInfo (arg : string) s priv mtx s1 t b sig id txBytes txID :
  LoadPK lib privateKeyFile = Ok priv ->
  ParseKey lib (trim_slash (list_byte_of_string arg)) = None ->
  let pfx := trim_slash (list_byte_of_string arg) in
  let s2 := log s1 (EvSend (ReqIssueTx txBytes)) in
  mine w lib fuel (mkContext (w_clock w (now s) + requestTimeout))
    (claim_start priv pfx s).2 (claim_start priv pfx s).1
  = (Val (Some mtx, None), s1) ->
  snapshot (heap s1) mtx = Some t ->
  UnsignedBytes lib t = (b, None) ->
  Sign priv b = (sig, None) ->
  NewTx_Init lib t sig = ((id, txBytes), None) ->
  (w_issueTx w (now s1) txBytes = Ok (txID, false) ->
   claimFunc w lib fuel privateKeyFile requestTimeout prefixInfo [arg] s
   = (Val (Some (ErrTxFailed txID)), s2)) /\
  (forall s3,
      w_issueTx w (now s1) txBytes = Ok (txID, true) ->
      poll w fuel (mkContext (w_clock w (now s2) + requestTimeout)) txID s2
      = (Val tt, s3) ->
      claimFunc w lib fuel privateKeyFile requestTimeout prefixInfo [arg] s
      = (Val None,
         if prefixInfo then log s3 (EvSend (ReqPrefixInfo pfx)) else s3)).
Proof.
  intros Hkey Hparse pfx s2 Hmine Hsnap Hbytes Hsign Hinit.
  pose proof (claimFunc_after_mining w lib fuel privateKeyFile
                requestTimeout prefixInfo arg s priv mtx s1 t b sig id
                txBytes Hkey Hparse Hmine Hsnap Hbytes Hsign Hinit) as Hrun.
  cbv zeta in Hrun. fold pfx s2 in Hrun. split.
  - intros Hissue. by rewrite Hrun, Hissue.
  - intros s3 Hissue Hpoll. by rewrite Hrun, Hissue, Hpoll.
Qed.

Lemma claimFunc_issues_once_witness :
  (claimFunc sample_client.steady sample_client.lib 10 "" 30 true
     ["hi"%string] (mkClient (mkHeap ∅ ∅) [])).1
  = Val None.
Proof.
  edestruct (claimFunc_issues_once sample_client.steady sample_client.lib
               10 "" 30 true "hi"%string (mkClient (mkHeap ∅ ∅) [])
               sample_client.key) as [_ Haccepted];
    [ reflexivity | reflexivity | reflexivity | reflexivity | reflexivity
    | reflexivity | reflexivity | ].
  erewrite Haccepted; reflexivity.
Defined.

(** ** Transfers, one after the other *)

(** X19: when exactly a transfer goes through.  [Execute] returns no error
    exactly for a transfer to another, non-zero address of a non-zero
    amount that the sender can pay and the recipient has room for; it
    returns [ErrNonActionable] exactly when one of its three guards
    applies. *)
Theorem Execute_succeeds_iff t c :
  ((Execute t c).2 = None <->
   To t <> zeroAddress /\ To t <> Sender c /\ Units t <> 0 /\
   Units t <= GetBalance (Database c) (Sender c) /\
   GetBalance (Database c) (To t) + Units t <= MaxUint64) /\
  ((Execute t c).2 = Some ErrNonActionable <->
   To t = Sender c \/ To t = zeroAddress \/ Units t = 0).
Proof.
  destruct (decide (To t = Sender c \/ To t = zeroAddress \/ Units t = 0))
    as [Hna | Hact].
  { assert ((Execute t c).2 = Some ErrNonActionable) as ->.
    { unfold Execute.
      destruct (bytes_Equal (To t) zeroAddress) eqn:Hz; [done |].
      destruct (bytes_Equal (To t) (Sender c)) eqn:Hs; [done |].
      destruct (Units t =? 0) eqn:Hu; [done |].
      apply bytes_Equal_false in Hz, Hs. apply Z.eqb_neq in Hu.
      destruct Hna as [H | [H | H]]; congruence. }
    split; [| done]. split; [done |]. intros (Hz & Hs & Hu & _).
    destruct Hna as [H | [H | H]]; congruence. }
  assert (To t <> zeroAddress /\ To t <> Sender c /\ Units t <> 0)
    as (Hz & Hs & Hu) by naive_solver.
  destruct (Z.lt_ge_cases (GetBalance (Database c) (Sender c)) (Units t))
    as [Hlt | Hle].
  { rewrite Execute_insufficient by done. cbn [snd].
    split; split; try done. intros (_ & _ & _ & Hle & _). lia. }
  destruct (Z.lt_ge_cases MaxUint64
              (GetBalance (Database c) (To t) + Units t)) as [Hover | Hfits].
  { rewrite Execute_credit_overflow by done. cbn [snd].
    split; split; try done. intros (_ & _ & _ & _ & Hfits). lia. }
  rewrite Execute_success by done. cbn [snd]. split; split; done.
Qed.

(** The ledgers that calls of [Execute] with [uint64] amounts lead to,
    whether the calls succeed or fail. *)
Inductive transfers_lead : Ledger -> Ledger -> Prop :=
| lead_nowhere db : transfers_lead db db
| lead_on db t c db' :
    transfers_lead db (Database c) ->
    is_uint64 (Units t) ->
    (Execute t c).1 = db' ->
    transfers_lead db db'.

(** X20: the invariant of accounts.  From a ledger of [uint64]
    balances, no sequence of [Execute] calls with [uint64] amounts leads to
    a ledger with a balance outside [uint64]; no balance ever gets
    negative. *)
Theorem transfers_keep_balances_in_range db db' :
  wf_ledger db -> transfers_lead db db' -> wf_ledger db'.
Proof.
  intros Hwf Hlead. induction Hlead as [| db t c db' Hlead IH Hunits <-];
    [done |].
  apply Execute_keeps_balances_in_range; auto.
Qed.

Lemma transfers_keep_balances_in_range_witness :
  wf_ledger
    (Execute (sample.pay_bob 4) (sample.from_alice sample.ten_three)).1.
Proof.
  apply (transfers_keep_balances_in_range sample.ten_three).
  - apply wf_ledger_ten_three.
  - apply (lead_on _ (sample.pay_bob 4)
             (sample.from_alice sample.ten_three)).
    + apply lead_nowhere.
    + unfold is_uint64, MaxUint64. cbn. lia.
    + reflexivity.
Defined.

(** ** From the genesis to the first transfer *)

Lemma Load_custom_wf (db : Ledger) allocs :
  wf_ledger db ->
  Forall (fun alloc => is_uint64 (Balance alloc)) (until_nil allocs) ->
  wf_ledger (Load_custom db allocs).1.
Proof.
  revert db. induction allocs as [| [x |] rest IH]; intros db Hwf Hall; cbn.
  - done.
  - cbn in Hall. apply Forall_cons in Hall as [Hx Hrest].
    apply IH; [| done]. by apply wf_ledger_insert.
  - done.
Qed.

Lemma Load_standard_wf (db : Ledger) units allocs :
  wf_ledger db -> is_uint64 units ->
  wf_ledger (Load_standard db units allocs).1.
Proof.
  revert db. induction allocs as [| [x |] rest IH]; intros db Hwf Hu; cbn.
  - done.
  - apply IH; [| done]. by apply wf_ledger_insert.
  - done.
Qed.

(** X21: [Load] keeps the ledger within [uint64]: when the balances it is
    given, the airdrop units and the custom balances are [uint64]s, so are
    all the balances it leaves, whatever it returns, and also when it
    panics. *)
Theorem Load_keeps_balances_in_range Keccak256Hex json_Unmarshal g db
    airdropData :
  wf_ledger db ->
  is_uint64 (AirdropUnits g) ->
  Forall (fun alloc => is_uint64 (Balance alloc))
    (until_nil (CustomAllocations g)) ->
  wf_ledger (Load Keccak256Hex json_Unmarshal g db airdropData).1.
Proof.
  intros Hwf Hunits Hcustom. unfold Load. rewrite Load_airdrop_cases.
  destruct (decide (AirdropHash g = EmptyString)) as [Hempty | Hdecl].
  { by apply Load_custom_wf. }
  destruct (decide (Keccak256Hex airdropData = AirdropHash g))
    as [Hhash | Hhash]; [| done].
  destruct (json_Unmarshal airdropData) as [l [e |]]; [done |].
  pose proof (Load_standard_wf db (AirdropUnits g) l Hwf Hunits) as Hstd.
  destruct (Load_standard_lookup db (AirdropUnits g) l) as (db1 & Hrun & _).
  rewrite Hrun in Hstd |- *. unfold range_end.
  destruct (has_nil l); [done |]. by apply Load_custom_wf.
Qed.

(** X22: what the airdrop is good for.  After a successful [Load] with a
    verified airdrop, an address of the airdrop list that the custom list
    does not name can pay any amount up to [AirdropUnits] to another,
    non-zero address that has room for it: [Execute] succeeds and leaves
    the payer with [AirdropUnits] less the amount. *)
Theorem airdrop_can_be_spent Keccak256Hex json_Unmarshal g db airdropData
    standardAllocation db' t c :
  AirdropHash g <> EmptyString ->
  Keccak256Hex airdropData = AirdropHash g ->
  json_Unmarshal airdropData = (standardAllocation, None) ->
  Load Keccak256Hex json_Unmarshal g db airdropData = (db', Val None) ->
  Database c = db' ->
  Sender c ∈ map Airdrop_Address (until_nil standardAllocation) ->
  Sender c ∉ map Alloc_Address (until_nil (CustomAllocations g)) ->
  To t <> zeroAddress -> To t <> Sender c ->
  0 < Units t <= AirdropUnits g ->
  GetBalance db' (To t) + Units t <= MaxUint64 ->
  exists db'',
    Execute t c = (db'', None) /\
    GetBalance db'' (Sender c) = AirdropUnits g - Units t /\
    GetBalance db'' (To t) = GetBalance db' (To t) + Units t.
Proof.
  intros Hdecl Hhash Hjson Hload Hdb Hin Hnot Hz Hs [Hpos Hle] Hfits.
  assert (GetBalance db' (Sender c) = AirdropUnits g) as Hbal.
  { destruct (Load_returns_nil _ _ _ _ _ _ Hload)
      as (db1 & Hair & Hcus & _).
    rewrite Load_airdrop_cases, decide_False, decide_True, Hjson in Hair
      by done.
    destruct (Load_standard_lookup db (AirdropUnits g) standardAllocation)
      as (d1 & Hstd & H1).
    rewrite Hstd in Hair. injection Hair as <- _.
    destruct (Load_custom_lookup d1 (CustomAllocations g))
      as (db2 & Hcus2 & H2).
    rewrite Hcus in Hcus2. injection Hcus2 as <- _.
    apply custom_entry_None in Hnot.
    unfold GetBalance. rewrite H2, Hnot, H1. by rewrite decide_True. }
  subst db'. eexists. split.
  - apply Execute_success; try done; lia.
  - rewrite Hbal. split.
    + rewrite GetBalance_insert_ne by done. apply GetBalance_insert_eq.
    + apply GetBalance_insert_eq.
Qed.

Lemma wf_ledger_sample_genesis :
  Forall (fun alloc => is_uint64 (Balance alloc))
    (until_nil (CustomAllocations sample_genesis.genesis)).
Proof.
  repeat constructor; unfold is_uint64, MaxUint64; cbn; lia.
Qed.

Lemma Load_keeps_balances_in_range_witness :
  wf_ledger
    (Load crypto.Keccak256Hex json.Unmarshal sample_genesis.genesis
       ∅ sample_genesis.payload).1.
Proof.
  apply (Load_keeps_balances_in_range crypto.Keccak256Hex json.Unmarshal
           sample_genesis.genesis ∅ sample_genesis.payload).
  - apply wf_ledger_empty.
  - unfold is_uint64, MaxUint64. cbn. lia.
  - apply wf_ledger_sample_genesis.
Defined.

Lemma airdrop_can_be_spent_witness :
  exists db'',
    Execute (sample.pay_bob 4)
      (sample.from_alice
         (<[sample.bob := 7]>
            (<[sample.bob := 5]> (<[sample.alice := 5]> ∅))))
    = (db'', None) /\
    GetBalance db'' sample.alice = 5 - 4.
Proof.
  destruct (airdrop_can_be_spent crypto.Keccak256Hex json.Unmarshal
              sample_genesis.genesis ∅ sample_genesis.payload
              [Some (mkAirdrop sample.alice); Some (mkAirdrop sample.bob)]
              (<[sample.bob := 7]>
                 (<[sample.bob := 5]> (<[sample.alice := 5]> ∅)))
              (sample.pay_bob 4)
              (sample.from_alice
                 (<[sample.bob := 7]>
                    (<[sample.bob := 5]> (<[sample.alice := 5]> ∅)))))
    as (db'' & Hrun & Hpayer & _).
  - discriminate.
  - apply digest_payload.
  - apply decode_payload.
  - apply Load_sample_genesis.
  - reflexivity.
  - cbn. apply elem_of_cons. by left.
  - cbn. intros [H | H%elem_of_nil]%elem_of_cons; [| done].
    by apply bob_not_alice.
  - apply bob_not_zero.
  - apply bob_not_alice.
  - cbn. lia.
  - cbn [To Units sample.pay_bob]. rewrite GetBalance_insert_eq.
    unfold MaxUint64. lia.
  - exists db''. split; [exact Hrun | exact Hpayer].
Defined.

Lemma Execute_frame_witness :
  (Execute (sample.pay_bob 4) (sample.from_alice sample.ten_three)).1
    !! zeroAddress
  = sample.ten_three !! zeroAddress.
Proof.
  apply (proj1 (Execute_frame (sample.pay_bob 4)
                  (sample.from_alice sample.ten_three))).
  - cbn. intros H. by apply alice_not_zero.
  - cbn. intros H. by apply bob_not_zero.
Defined.

Lemma Execute_succeeds_iff_witness :
  (Execute (sample.pay_bob 4) (sample.from_alice sample.ten_three)).2 = None.
Proof.
  apply (proj1 (Execute_succeeds_iff (sample.pay_bob 4)
                  (sample.from_alice sample.ten_three))).
  cbn [To Units Sender Database sample.pay_bob sample.from_alice].
  rewrite ten_three_alice, ten_three_bob.
  split; [apply bob_not_zero |].
  split; [apply bob_not_alice |].
  unfold MaxUint64. lia.
Defined.
